(** * LiveSync backup: path safety, payload decryption and chunk reassembly

    A shallow embedding of the TypeScript sources [path_safety.ts],
    [crypto.ts], [couchdb.ts], [extractor.ts] and [backup.ts], together
    with the properties of the specification that concern them and further
    properties of the code.

    Conventions of the embedding.
    - A JavaScript string is the list of its UTF-16 code units ([jsstring]);
      [js "..."] turns an ASCII literal into such a list.
    - A [Uint8Array] is a [list byte].
    - [join], [normalize] and [isAbsolute] are the POSIX flavour of
      deno.land/std@0.208.0/path (the tool runs in a Linux container);
      [normalizeString] is transcribed statement by statement.
    - WebCrypto primitives and the file system are interfaces (type classes);
      every theorem holds for all their implementations.
    - The module variables of [crypto.ts] (salt, cached master key, legacy
      key cache) and the lines it logs are an explicit state, threaded by a
      state and error monad; a rejected promise is an [Err].
    - [await] is sequential: the batches of a prefetch run one after the
      other, and a database request is a lookup in a fixed snapshot.

    - The operating system calls of [backup.ts] are an interface too; the
      clock is an argument ([Date.now()], [toISOString()]), and a directory
      is listed in one go.

    Not modelled: the Windows flavour of the path module, the progress
    output of [extractor.ts] and [backup.ts], keys that an [eden] object
    would inherit from its prototype, and the sources that only wire the
    others to the environment and the network ([config.ts], [main.ts],
    [notify.ts], the HTTP requests of [couchdb.ts]). *)

From Stdlib Require Import ZArith NArith Ascii String Strings.Byte Bool Lia.
From stdpp Require Import base option list gmap.

Local Open Scope Z_scope.

(* ================================================================== *)
(** ** JavaScript strings *)

Module JS.

Abbreviation jsstring := (list N).

Definition js (s : string) : jsstring := map N_of_ascii (list_ascii_of_string s).
Arguments js s%_string.

Definition CHAR_NUL : N := 0.
Definition CHAR_PERCENT : N := 37.
Definition CHAR_DOT : N := 46.
Definition CHAR_FORWARD_SLASH : N := 47.
Definition CHAR_COLON : N := 58.
Definition CHAR_EQUALS : N := 61.
Definition CHAR_BACKSLASH : N := 92.

(** [String.prototype.startsWith]. *)
Fixpoint startsWith (s p : jsstring) {struct p} : bool :=
  match p, s with
  | [], _ => true
  | _ :: _, [] => false
  | c :: p', d :: s' => (N.eqb c d) && startsWith s' p'
  end.

(** [s.includes(c)] for a one-character needle. *)
Definition includesChar (s : jsstring) (c : N) : bool := existsb (N.eqb c) s.

(** Index arithmetic of [String.prototype.slice] / [Array.prototype.slice]:
    a negative index counts from the end, everything is clamped to the
    length. *)
Definition clampIndex (len k : Z) : Z :=
  if k <? 0 then Z.max (len + k) 0 else Z.min k len.

Definition slice {A} (s : list A) (from to : Z) : list A :=
  let len := Z.of_nat (length s) in
  let a := clampIndex len from in
  let b := clampIndex len to in
  take (Z.to_nat (b - a)) (drop (Z.to_nat a) s).

Definition sliceFrom {A} (s : list A) (from : Z) : list A :=
  slice s from (Z.of_nat (length s)).

(** [s.lastIndexOf(c)], [-1] when [c] does not occur. *)
Fixpoint lastIndexOf_from (c : N) (s : jsstring) (i acc : Z) : Z :=
  match s with
  | [] => acc
  | x :: s' => lastIndexOf_from c s' (i + 1) (if N.eqb x c then i else acc)
  end.
Definition lastIndexOf (s : jsstring) (c : N) : Z := lastIndexOf_from c s 0 (-1).

(** [s.charCodeAt(i)] for an index inside the string. *)
Definition charCodeAt (s : jsstring) (i : Z) : option N :=
  if i <? 0 then None else s !! Z.to_nat i.

(** White space and line terminators, as [String.prototype.trim] strips
    them (ECMAScript WhiteSpace and LineTerminator productions). *)
Definition isWhiteSpace (c : N) : bool :=
  match c with
  | 9 | 10 | 11 | 12 | 13 | 32 | 160 | 5760
  | 8192 | 8193 | 8194 | 8195 | 8196 | 8197 | 8198 | 8199 | 8200 | 8201 | 8202
  | 8232 | 8233 | 8239 | 8287 | 12288 | 65279 => true
  | _ => false
  end%N.

Fixpoint trimStart (s : jsstring) : jsstring :=
  match s with
  | c :: s' => if isWhiteSpace c then trimStart s' else s
  | [] => []
  end.
Definition trimEnd (s : jsstring) : jsstring := rev (trimStart (rev s)).
Definition trim (s : jsstring) : jsstring := trimEnd (trimStart s).

(** [s.replace(/\\/g, "/")]. *)
Definition replaceBackslashes (s : jsstring) : jsstring :=
  map (fun c => if N.eqb c CHAR_BACKSLASH then CHAR_FORWARD_SLASH else c) s.

(** [s.replace(/\/+/g, "/")]: every maximal run of slashes becomes one. *)
Fixpoint collapseSlashes (s : jsstring) : jsstring :=
  match s with
  | [] => []
  | c :: s' =>
      if N.eqb c CHAR_FORWARD_SLASH then
        match s' with
        | d :: _ => if N.eqb d CHAR_FORWARD_SLASH then collapseSlashes s'
                    else c :: collapseSlashes s'
        | [] => [c]
        end
      else c :: collapseSlashes s'
  end.

(** [s.replace(/=+$/, "")]: the trailing run of [=] is removed. *)
Fixpoint dropWhileEq (s : jsstring) : jsstring :=
  match s with
  | c :: s' => if N.eqb c CHAR_EQUALS then dropWhileEq s' else s
  | [] => []
  end.
Definition stripTrailingEquals (s : jsstring) : jsstring := rev (dropWhileEq (rev s)).

Definition isAsciiLetter (c : N) : bool :=
  ((65 <=? c) && (c <=? 90) || (97 <=? c) && (c <=? 122))%N.

Definition isHexDigit (c : N) : bool :=
  ((48 <=? c) && (c <=? 57) || (65 <=? c) && (c <=? 70) || (97 <=? c) && (c <=? 102))%N.

End JS.
Export JS.

(* ================================================================== *)
(** ** deno.land/std@0.208.0/path, POSIX flavour *)

Module Path.

Definition isPosixPathSeparator (code : N) : bool := N.eqb code CHAR_FORWARD_SLASH.

(** The four mutable locals of [normalizeString]. *)
Record NormState := mkNormState {
  res : jsstring;
  lastSegmentLength : Z;
  lastSlash : Z;
  dots : Z
}.

Definition len (s : jsstring) : Z := Z.of_nat (length s).

(** One iteration of the [for] loop of [normalizeString], once [code] has
    been chosen; every branch ends with the assignments that the source
    performs before [continue] or at the end of the body. *)
Definition normalizeString_body (path : jsstring) (allowAboveRoot : bool)
    (i : Z) (code : N) (s : NormState) : NormState :=
  if isPosixPathSeparator code then
    if (lastSlash s =? i - 1) || (dots s =? 1) then
      (* NOOP *)
      mkNormState (res s) (lastSegmentLength s) i 0
    else if dots s =? 2 then
      let r := res s in
      let aboveRoot :=
        if allowAboveRoot then
          mkNormState (if 0 <? len r then r ++ js "/.." else js "..") 2 i 0
        else mkNormState r (lastSegmentLength s) i 0 in
      if (len r <? 2) || negb (lastSegmentLength s =? 2)
         || negb (bool_decide (charCodeAt r (len r - 1) = Some CHAR_DOT))
         || negb (bool_decide (charCodeAt r (len r - 2) = Some CHAR_DOT)) then
        if 2 <? len r then
          let lastSlashIndex := lastIndexOf r CHAR_FORWARD_SLASH in
          if lastSlashIndex =? -1 then mkNormState [] 0 i 0
          else
            let r' := slice r 0 lastSlashIndex in
            mkNormState r' (len r' - 1 - lastIndexOf r' CHAR_FORWARD_SLASH) i 0
        else if (len r =? 2) || (len r =? 1) then mkNormState [] 0 i 0
        else aboveRoot
      else aboveRoot
    else
      let seg := slice path (lastSlash s + 1) i in
      mkNormState (if 0 <? len (res s) then res s ++ CHAR_FORWARD_SLASH :: seg else seg)
                  (i - lastSlash s - 1) i 0
  else if N.eqb code CHAR_DOT && negb (dots s =? -1) then
    mkNormState (res s) (lastSegmentLength s) (lastSlash s) (dots s + 1)
  else
    mkNormState (res s) (lastSegmentLength s) (lastSlash s) (-1).

(** The loop runs [i] from [0] to [path.length] inclusive.  [code] is the
    variable of the source that survives from one iteration to the next
    ([None] while it is still undefined); at [i = path.length] the loop
    stops if the last character was a separator and otherwise feeds one
    more separator. *)
Fixpoint normalizeString_loop (path : jsstring) (allowAboveRoot : bool)
    (rest : jsstring) (i : Z) (code : option N) (s : NormState) : jsstring :=
  match rest with
  | c :: rest' =>
      normalizeString_loop path allowAboveRoot rest' (i + 1) (Some c)
        (normalizeString_body path allowAboveRoot i c s)
  | [] =>
      match code with
      | Some c =>
          if isPosixPathSeparator c then res s
          else res (normalizeString_body path allowAboveRoot i CHAR_FORWARD_SLASH s)
      | None => res (normalizeString_body path allowAboveRoot i CHAR_FORWARD_SLASH s)
      end
  end.

Definition normalizeString (path : jsstring) (allowAboveRoot : bool) : jsstring :=
  normalizeString_loop path allowAboveRoot path 0 None (mkNormState [] 0 (-1) 0).

Definition isAbsolute (path : jsstring) : bool :=
  match path with
  | c :: _ => isPosixPathSeparator c
  | [] => false
  end.

Definition normalize (path : jsstring) : jsstring :=
  match path with
  | [] => js "."
  | _ =>
      let isAbs := isAbsolute path in
      let trailingSeparator :=
        match last path with Some c => isPosixPathSeparator c | None => false end in
      let p := normalizeString path (negb isAbs) in
      let p := if (length p =? 0)%nat && negb isAbs then js "." else p in
      let p := if (0 <? length p)%nat && trailingSeparator then p ++ js "/" else p in
      if isAbs then CHAR_FORWARD_SLASH :: p else p
  end.

(** [join(a, b)]: the non-empty arguments are glued with ["/"], then
    normalized. *)
Definition join (a b : jsstring) : jsstring :=
  let joined :=
    match a, b with
    | [], [] => None
    | [], _ => Some b
    | _, [] => Some a
    | _, _ => Some (a ++ CHAR_FORWARD_SLASH :: b)
    end in
  match joined with
  | None => js "."
  | Some j => normalize j
  end.

End Path.

(* ================================================================== *)
(** ** path_safety.ts *)

Module PathSafety.
Import Path.

Definition isPathSafe (filePath baseDir : jsstring) : bool :=
  (* Reject empty paths *)
  if bool_decide (filePath = []) || bool_decide (trim filePath = []) then false
  (* Reject paths with null bytes *)
  else if includesChar filePath CHAR_NUL then false
  (* Reject standalone . or .. *)
  else if bool_decide (filePath = js ".") || bool_decide (filePath = js "..") then false
  else
    let normalizedInput := replaceBackslashes filePath in
    (* Reject absolute paths *)
    if isAbsolute normalizedInput || startsWith normalizedInput (js "/") then false
    (* Windows drive letters: /^[a-zA-Z]:/ *)
    else if match normalizedInput with
            | c :: d :: _ => isAsciiLetter c && N.eqb d CHAR_COLON
            | _ => false
            end then false
    else
      let fullPath := normalize (join baseDir normalizedInput) in
      let normalizedBase := normalize baseDir in
      if negb (startsWith fullPath normalizedBase) then false
      else
        let relativePart := sliceFrom fullPath (len normalizedBase) in
        if bool_decide (relativePart = []) && negb (bool_decide (normalizedInput = []))
        then false
        else true.

Definition sanitizePath (filePath : jsstring) : jsstring :=
  collapseSlashes (replaceBackslashes (trim filePath)).

End PathSafety.
Export Path PathSafety.


(* ================================================================== *)
(** ** Platform functions used by crypto.ts *)

Module Platform.

Abbreviation bytes := (list byte).

(** Storing a number into a [Uint8Array] element keeps it modulo 256. *)
Definition toUint8 (n : Z) : byte :=
  default Byte.x00 (Byte.of_N (Z.to_N (n mod 256))).

Definition isAsciiWhitespace (c : N) : bool :=
  match c with 9 | 10 | 12 | 13 | 32 => true | _ => false end%N.

Definition base64Value (c : N) : option N :=
  (if (65 <=? c) && (c <=? 90) then Some (c - 65)
   else if (97 <=? c) && (c <=? 122) then Some (c - 71)
   else if (48 <=? c) && (c <=? 57) then Some (c + 4)
   else if c =? 43 then Some 62
   else if c =? 47 then Some 63
   else None)%N.

Fixpoint base64Values (s : jsstring) : option (list N) :=
  match s with
  | [] => Some []
  | c :: s' =>
      match base64Value c, base64Values s' with
      | Some v, Some vs => Some (v :: vs)
      | _, _ => None
      end
  end.

Fixpoint decodeSextets (vs : list N) : bytes :=
  match vs with
  | a :: b :: c :: d :: rest =>
      let n := Z.of_N (a * 262144 + b * 4096 + c * 64 + d) in
      toUint8 (n / 65536) :: toUint8 (n / 256) :: toUint8 n :: decodeSextets rest
  | [a; b; c] =>
      let n := Z.of_N (a * 4096 + b * 64 + c) / 4 in
      [toUint8 (n / 256); toUint8 n]
  | [a; b] => [toUint8 (Z.of_N (a * 64 + b) / 16)]
  | _ => []
  end.

(** [atob] (forgiving-base64 decode of the HTML standard) followed by
    [Uint8Array.from(_, c => c.charCodeAt(0))]; [None] when [atob] throws. *)
Definition atob (data : jsstring) : option bytes :=
  let data := List.filter (fun c => negb (isAsciiWhitespace c)) data in
  let data :=
    if (length data mod 4 =? 0)%nat then
      match rev data with
      | 61%N :: 61%N :: r => rev r
      | 61%N :: r => rev r
      | _ => data
      end
    else data in
  if (length data mod 4 =? 1)%nat then None
  else option_map decodeSextets (base64Values data).

Definition hexDigitValue (c : N) : option Z :=
  (if (48 <=? c) && (c <=? 57) then Some (Z.of_N c - 48)%Z
   else if (65 <=? c) && (c <=? 70) then Some (Z.of_N c - 55)%Z
   else if (97 <=? c) && (c <=? 102) then Some (Z.of_N c - 87)%Z
   else None)%N.

Fixpoint hexPrefixValue (s : jsstring) (acc : option Z) : option Z :=
  match s with
  | c :: s' =>
      match hexDigitValue c with
      | Some v => hexPrefixValue s' (Some (default 0 acc * 16 + v))
      | None => acc
      end
  | [] => acc
  end.

(** [parseInt(s, 16)]; [None] stands for [NaN]. *)
Definition parseInt16 (s : jsstring) : option Z :=
  let s := trimStart s in
  let '(sign, s) :=
    match s with
    | 45%N :: r => (-1, r)
    | 43%N :: r => (1, r)
    | _ => (1, s)
    end in
  let s :=
    match s with
    | 48%N :: 120%N :: r => r
    | 48%N :: 88%N :: r => r
    | _ => s
    end in
  option_map (Z.mul sign) (hexPrefixValue s None).

(** [b.toString(16).padStart(2, '0')] for a byte. *)
Definition hexDigitChar (v : N) : N := (if v <? 10 then 48 + v else 87 + v)%N.
Definition byteToHex (b : byte) : jsstring :=
  let n := Byte.to_N b in [hexDigitChar (n / 16); hexDigitChar (n mod 16)]%N.

End Platform.
Export Platform.

(* ================================================================== *)
(** ** crypto.ts *)

(** The WebCrypto and encoding primitives that crypto.ts calls.  Key
    material is a byte sequence; [deriveBits] is always asked for 256 bits. *)
Class WebCrypto := {
  (** [new TextEncoder().encode(s)] *)
  utf8_encode : jsstring -> bytes;
  (** [new TextDecoder().decode(b)] *)
  utf8_decode : bytes -> jsstring;
  (** [crypto.subtle.digest("SHA-256", b)] *)
  sha256 : bytes -> bytes;
  (** [deriveBits({name: "PBKDF2", salt, iterations, hash: "SHA-256"}, key, 256)],
      arguments: key material, salt, iterations *)
  pbkdf2_sha256 : bytes -> bytes -> N -> bytes;
  (** [deriveBits({name: "HKDF", hash: "SHA-256", salt, info}, key, 256)],
      arguments: key material, salt, info *)
  hkdf_sha256 : bytes -> bytes -> bytes -> bytes;
  (** [crypto.subtle.decrypt({name: "AES-GCM", iv, tagLength: 128}, key, data)],
      arguments: key material, iv, ciphertext followed by tag;
      [None] when the call rejects *)
  aes_gcm_decrypt : bytes -> bytes -> bytes -> option bytes
}.

Module Crypto.

(** What a rejected promise carries. *)
Inductive Error :=
| SaltNotSet                        (* "PBKDF2 salt not set. Call setPBKDF2Salt first." *)
| EncryptedDataTooShort (n : nat)   (* "Encrypted data too short: n bytes" *)
| V2LegacyDataTooShort (n : nat)    (* "V2 legacy data too short: n chars" *)
| NotEncryptedData                  (* "Not encrypted data (missing % or %= prefix)" *)
| InvalidCharacterError             (* thrown by atob *)
| OperationError                    (* thrown by crypto.subtle.decrypt *)
| MissingChunk (chunkId : jsstring) (* "Missing chunk: chunkId" *)
| UnsafePathRejected (p : jsstring) (* "Unsafe path rejected: p" *)
| WriteFailed.                      (* thrown by ensureDir or Deno.writeTextFile *)

Inductive Result (A : Type) :=
| Ok (a : A)
| Err (e : Error).
Arguments Ok {A} a.
Arguments Err {A} e.

Inductive KeyAlgorithm := PBKDF2 | HKDF | AES_GCM.

(** A [CryptoKey] made by [importKey("raw", raw, algorithm, ...)]. *)
Record CryptoKey := importKey { raw : bytes; algorithm : KeyAlgorithm }.

(** The two lines the module writes to the console. *)
Inductive LogLine :=
| DerivingMasterKey      (* "Deriving master key (this only happens once)..." *)
| MasterKeyDerived.      (* "Master key derived and cached" *)

(** The module-level variables of crypto.ts, and the console. *)
Record CryptoState := mkCryptoState {
  globalPBKDF2Salt : option bytes;
  cachedHKDFKey : option CryptoKey;
  cachedPassphrase : option jsstring;
  v2LegacyKeyCache : gmap jsstring CryptoKey;
  console : list LogLine
}.

(** An [async] function of the module: it reads and writes the module
    state and either returns or throws. *)
Definition M (A : Type) : Type := CryptoState -> Result A * CryptoState.

Definition ret {A} (a : A) : M A := fun st => (Ok a, st).
Definition throw {A} (e : Error) : M A := fun st => (Err e, st).
Definition bind {A B} (m : M A) (k : A -> M B) : M B :=
  fun st => match m st with
            | (Ok a, st') => k a st'
            | (Err e, st') => (Err e, st')
            end.
Definition console_log (l : LogLine) : M unit :=
  fun st => (Ok tt, mkCryptoState (globalPBKDF2Salt st) (cachedHKDFKey st)
                      (cachedPassphrase st) (v2LegacyKeyCache st) (console st ++ [l])).

Notation "'do' x <- m ; k" := (bind m (fun x => k))
  (at level 10, x name, m at level 100, k at level 200).
Notation "m ;; k" := (bind m (fun _ => k))
  (at level 100, k at level 200, right associativity).

Definition HKDF_PREFIX : jsstring := js "%=".
Definition INLINE_PREFIX : jsstring := js "%".
Definition PBKDF2_ITERATIONS : N := 310000.
Definition V2_LEGACY_ITERATIONS : N := 100000.

Definition setPBKDF2Salt (salt : bytes) : M unit :=
  fun st => (Ok tt, mkCryptoState (Some salt) None None (v2LegacyKeyCache st) (console st)).

(** [cachedHKDFKey = key; cachedPassphrase = passphrase] *)
Definition setCachedHKDFKey (key : CryptoKey) (passphrase : jsstring) : M unit :=
  fun st => (Ok tt, mkCryptoState (globalPBKDF2Salt st) (Some key) (Some passphrase)
                      (v2LegacyKeyCache st) (console st)).

Section WithCrypto.
Context {webcrypto : WebCrypto}.

Definition getHKDFMasterKey (passphrase : jsstring) : M CryptoKey :=
  fun st =>
    match cachedHKDFKey st, bool_decide (cachedPassphrase st = Some passphrase),
          globalPBKDF2Salt st with
    | Some key, true, _ =>
        (* Return cached key if passphrase matches *)
        (Ok key, st)
    | _, _, None => (Err SaltNotSet, st)
    | _, _, Some salt =>
        (console_log DerivingMasterKey ;;
         let passphraseKey := importKey (utf8_encode passphrase) PBKDF2 in
         let pbkdf2Bits := pbkdf2_sha256 (raw passphraseKey) salt PBKDF2_ITERATIONS in
         let key := importKey pbkdf2Bits HKDF in
         setCachedHKDFKey key passphrase ;;
         console_log MasterKeyDerived ;;
         ret key) st
    end.

Definition deriveChunkKeyHKDF (passphrase : jsstring) (hkdfSalt : bytes) : M CryptoKey :=
  do hkdfKey <- getHKDFMasterKey passphrase;
  let aesKeyBits := hkdf_sha256 (raw hkdfKey) hkdfSalt [] in
  ret (importKey aesKeyBits AES_GCM).

Definition saltToHex (salt : bytes) : jsstring := concat (map byteToHex salt).

Definition deriveV2LegacyKey (passphrase : jsstring) (salt : bytes) : M CryptoKey :=
  fun st =>
    let saltHex := saltToHex salt in
    let cacheKey := passphrase ++ js ":" ++ saltHex in
    match v2LegacyKeyCache st !! cacheKey with
    | Some key => (Ok key, st)
    | None =>
        let passphraseHash := sha256 (utf8_encode passphrase) in
        let passphraseKey := importKey passphraseHash PBKDF2 in
        let keyBits := pbkdf2_sha256 (raw passphraseKey) salt V2_LEGACY_ITERATIONS in
        let aesKey := importKey keyBits AES_GCM in
        (Ok aesKey, mkCryptoState (globalPBKDF2Salt st) (cachedHKDFKey st)
                      (cachedPassphrase st) (<[cacheKey := aesKey]> (v2LegacyKeyCache st))
                      (console st))
    end.

(** A lone last character has no slot in the array and is dropped. *)
Fixpoint hexStringToUint8Array (hexString : jsstring) : bytes :=
  match hexString with
  | a :: b :: rest => toUint8 (default 0 (parseInt16 [a; b])) :: hexStringToUint8Array rest
  | _ => []
  end.

(** The padding repair shared by both decoders. *)
Definition repad (base64Part : jsstring) : jsstring :=
  let stripped := stripTrailingEquals base64Part in
  let paddingNeeded := ((4 - (length stripped mod 4)) mod 4)%nat in
  stripped ++ replicate paddingNeeded CHAR_EQUALS.

(** [crypto.subtle.decrypt] followed by [new TextDecoder().decode]. *)
Definition decryptAesGcm (key : CryptoKey) (iv ciphertextWithTag : bytes) : M jsstring :=
  match aes_gcm_decrypt (raw key) iv ciphertextWithTag with
  | Some decrypted => ret (utf8_decode decrypted)
  | None => throw OperationError
  end.

Definition decryptHKDF (encryptedData passphrase : jsstring) : M jsstring :=
  let paddedBase64 := repad (sliceFrom encryptedData (len HKDF_PREFIX)) in
  match atob paddedBase64 with
  | None => throw InvalidCharacterError
  | Some binaryData =>
      if (length binaryData <? 60)%nat then throw (EncryptedDataTooShort (length binaryData))
      else
        let iv := slice binaryData 0 12 in
        let hkdfSalt := slice binaryData 12 44 in
        let ciphertextWithTag := sliceFrom binaryData 44 in
        do key <- deriveChunkKeyHKDF passphrase hkdfSalt;
        decryptAesGcm key iv ciphertextWithTag
  end.

Definition decryptV2Legacy (encryptedData passphrase : jsstring) : M jsstring :=
  let data := sliceFrom encryptedData (len INLINE_PREFIX) in
  if (length data <? 65)%nat then throw (V2LegacyDataTooShort (length data))
  else
    let ivHex := slice data 0 32 in
    let saltHex := slice data 32 64 in
    let base64Ciphertext := sliceFrom data 64 in
    let iv := hexStringToUint8Array ivHex in
    let salt := hexStringToUint8Array saltHex in
    match atob (repad base64Ciphertext) with
    | None => throw InvalidCharacterError
    | Some ciphertextWithTag =>
        do key <- deriveV2LegacyKey passphrase salt;
        decryptAesGcm key iv ciphertextWithTag
    end.

(** [/^[0-9a-fA-F]{32}$/.test(s)] *)
Definition isHex32 (s : jsstring) : bool :=
  (length s =? 32)%nat && forallb isHexDigit s.

Definition decryptV2 (encryptedData passphrase : jsstring) : M jsstring :=
  if startsWith encryptedData HKDF_PREFIX then decryptHKDF encryptedData passphrase
  else if startsWith encryptedData INLINE_PREFIX then
    let afterPrefix := sliceFrom encryptedData (len INLINE_PREFIX) in
    let first32 := slice afterPrefix 0 32 in
    let isHexFormat := isHex32 first32 in
    if isHexFormat then decryptV2Legacy encryptedData passphrase
    else
      let hkdfData := HKDF_PREFIX ++ afterPrefix in
      decryptHKDF hkdfData passphrase
  else throw NotEncryptedData.

Definition isV2Encrypted (data : jsstring) : bool :=
  startsWith data HKDF_PREFIX || startsWith data INLINE_PREFIX.

Definition decryptChunk (data passphrase : jsstring) : M jsstring :=
  if negb (isV2Encrypted data) then ret data
  else decryptV2 data passphrase.

(** [!content] holds for the empty string only. *)
Definition decryptContent (content passphrase : jsstring) : M jsstring :=
  if bool_decide (content = []) || negb (isV2Encrypted content) then ret content
  else decryptV2 content passphrase.

End WithCrypto.
End Crypto.
Export Crypto.

(* ================================================================== *)
(** ** path_safety.ts: the throwing variant *)

Module SafePath.

Definition requireSafePath (filePath baseDir : jsstring) : Result jsstring :=
  if negb (isPathSafe filePath baseDir) then Err (UnsafePathRejected filePath)
  else Ok (sanitizePath filePath).

End SafePath.
Export SafePath.

(* ================================================================== *)
(** ** couchdb.ts: the documents and the client, as extractor.ts uses them *)

Module CouchDB.

Record LeafChunk := mkLeafChunk {
  chunk_id : jsstring;
  data : jsstring
}.

(** [eden] maps a chunk id to the [data] of the inline chunk. *)
Record FileEntry := mkFileEntry {
  _id : jsstring;
  children : list jsstring;
  eden : option (gmap jsstring jsstring)
}.

(** The three requests of [CouchDBClient] that the extractor issues,
    answered from one snapshot of the database; [None] is a rejected
    request. *)
Record CouchDBClient := mkClient {
  getAllFileEntries : option (list FileEntry);
  getChunks : list jsstring -> option (gmap jsstring LeafChunk);
  getChunk : jsstring -> option LeafChunk
}.

(** A document as the database returns it, with the fields that the
    client tests: [deleted] as a truth value, [children] when it is an
    array, [data] when it is there. *)
Record Doc := mkDoc {
  doc_id : jsstring;
  doc_deleted : bool;
  doc_children : option (list jsstring);
  doc_eden : option (gmap jsstring jsstring);
  doc_data : option jsstring
}.

(** A row of an [AllDocsResponse]. *)
Record Row := mkRow {
  row_id : jsstring;
  row_doc : option Doc
}.

(** What the private [fetch] method resolves with for the three requests
    of the client, the JSON decoded; [None] is a rejected request (a
    network error or a status that is not ok). *)
Record Database := mkDatabase {
  (** [GET /_all_docs?include_docs=true] *)
  allDocs : option (list Row);
  (** [POST /_all_docs?include_docs=true] with [{keys: chunkIds}] *)
  allDocsWithKeys : list jsstring -> option (list Row);
  (** [GET /<chunkId>] *)
  document : jsstring -> option Doc
}.

(** The document read as a [FileEntry], or as a [LeafChunk]; a missing
    [data] is as falsy as the empty string. *)
Definition asFileEntry (doc : Doc) : FileEntry :=
  mkFileEntry (doc_id doc) (default [] (doc_children doc)) (doc_eden doc).
Definition asLeafChunk (doc : Doc) : LeafChunk :=
  mkLeafChunk (doc_id doc) (default [] (doc_data doc)).

(** The callback of [result.rows.filter] in [getAllFileEntries]. *)
Definition isFileEntryRow (row : Row) : bool :=
  match row_doc row with
  | None => false
  | Some doc =>
      (* Skip design documents *)
      if startsWith (row_id row) (js "_design/") then false
      (* Skip chunk documents *)
      else if startsWith (row_id row) (js "h:") then false
      (* Skip deleted documents *)
      else if doc_deleted doc then false
      (* Must have children array *)
      else if negb (bool_decide (is_Some (doc_children doc))) then false
      else true
  end.

Definition fileEntriesOf (rows : list Row) : list FileEntry :=
  omap (fun row => asFileEntry <$> row_doc row) (List.filter isFileEntryRow rows).

(** The body of the loop of [getChunks]: [chunks.set(row.id, row.doc)] when
    the row has a document with non-empty [data]. *)
Definition storeChunk (chunks : gmap jsstring LeafChunk) (row : Row)
    : gmap jsstring LeafChunk :=
  match row_doc row with
  | Some doc =>
      match doc_data doc with
      | Some (_ :: _) => <[row_id row := asLeafChunk doc]> chunks
      | _ => chunks
      end
  | None => chunks
  end.

Definition chunksOf (rows : list Row) : gmap jsstring LeafChunk :=
  fold_left storeChunk rows ∅.

(** The client of a database. *)
Definition clientOf (db : Database) : CouchDBClient := {|
  getAllFileEntries := fileEntriesOf <$> allDocs db;
  getChunks := fun chunkIds => chunksOf <$> allDocsWithKeys db chunkIds;
  getChunk := fun chunkId => asLeafChunk <$> document db chunkId
|}.

End CouchDB.
Export CouchDB.

(* ================================================================== *)
(** ** extractor.ts *)

(** The file-system calls of extractor.ts.  Each call reports whether it
    succeeded and leaves a new file system behind.  [dirname] is the one of
    deno.land/std/path. *)
Class FileSystem := {
  FS : Type;
  dirname : jsstring -> jsstring;
  ensureDir : jsstring -> FS -> bool * FS;
  writeTextFile : jsstring -> jsstring -> FS -> bool * FS
}.

Module Extractor.

Record ExtractionResult := mkResult {
  totalFiles : nat;
  extractedFiles : nat;
  failedFiles : list jsstring;
  skippedFiles : list jsstring
}.

Section WithPlatform.
Context {webcrypto : WebCrypto} {filesystem : FileSystem}.

Definition writeFileSafely (baseDir relativePath content : jsstring) (fs : FS)
    : Result unit * FS :=
  if negb (isPathSafe relativePath baseDir) then (Err (UnsafePathRejected relativePath), fs)
  else
    let safePath := sanitizePath relativePath in
    let fullPath := join baseDir safePath in
    match ensureDir (dirname fullPath) fs with
    | (false, fs1) => (Err WriteFailed, fs1)
    | (true, fs1) =>
        match writeTextFile fullPath content fs1 with
        | (false, fs2) => (Err WriteFailed, fs2)
        | (true, fs2) => (Ok tt, fs2)
        end
    end.

(** The fields of an [Extractor] object. *)
Variable client : CouchDBClient.
Variable passphrase : jsstring.

Definition BATCH_SIZE : nat := 100.

(** Insertion order of a [Set]: first occurrences only. *)
Fixpoint uniqueInOrder (seen ids : list jsstring) : list jsstring :=
  match ids with
  | [] => []
  | x :: ids' =>
      if bool_decide (x ∈ seen) then uniqueInOrder seen ids'
      else x :: uniqueInOrder (x :: seen) ids'
  end.

Definition allChunkIds (fileEntries : list FileEntry) : list jsstring :=
  uniqueInOrder []
    (List.filter (fun chunkId => startsWith chunkId (js "h:"))
       (concat (map children fileEntries))).

(** The batches [chunkIdArray.slice(i, i + BATCH_SIZE)] for
    [i = 0, BATCH_SIZE, ...] below the length. *)
Definition batchesOf (chunkIdArray : list jsstring) : list (list jsstring) :=
  map (fun k => take BATCH_SIZE (drop (k * BATCH_SIZE) chunkIdArray))
      (seq 0 ((length chunkIdArray + BATCH_SIZE - 1) / BATCH_SIZE)%nat).

(** A rejected bulk fetch ends the loop; the batches stored before it stay
    in the cache. *)
Fixpoint prefetchBatches (batches : list (list jsstring))
    (chunkCache : gmap jsstring LeafChunk) : bool * gmap jsstring LeafChunk :=
  match batches with
  | [] => (true, chunkCache)
  | batch :: rest =>
      match getChunks client batch with
      | None => (false, chunkCache)
      | Some chunks => prefetchBatches rest (chunks ∪ chunkCache)
      end
  end.

Definition prefetchChunks (fileEntries : list FileEntry)
    (chunkCache : gmap jsstring LeafChunk) : bool * gmap jsstring LeafChunk :=
  prefetchBatches (batchesOf (allChunkIds fileEntries)) chunkCache.

(** [None] is the [null] of the source. *)
Definition getChunkData (chunkCache : gmap jsstring LeafChunk)
    (chunkId : jsstring) (entry : FileEntry) : option jsstring :=
  match eden entry ≫= (fun e => e !! chunkId) with
  | Some inlineData => Some inlineData
  | None =>
      match chunkCache !! chunkId with
      | Some chunk => Some (data chunk)
      | None =>
          match getChunk client chunkId with
          | Some fetchedChunk => Some (data fetchedChunk)
          | None => None
          end
      end
  end.

(** [!encryptedData]: [null] and the empty string are the falsy values. *)
Definition falsy (encryptedData : option jsstring) : bool :=
  match encryptedData with
  | None | Some [] => true
  | Some (_ :: _) => false
  end.

Fixpoint reassembleChunks (chunkCache : gmap jsstring LeafChunk) (entry : FileEntry)
    (chunkIds : list jsstring) (decryptedChunks : list jsstring) : M jsstring :=
  match chunkIds with
  | [] => ret (concat decryptedChunks)
  | chunkId :: rest =>
      match getChunkData chunkCache chunkId entry with
      | Some (c :: d) =>
          let encryptedData := c :: d in
          do decrypted <- decryptChunk encryptedData passphrase;
          reassembleChunks chunkCache entry rest (decryptedChunks ++ [decrypted])
      | _ => throw (MissingChunk chunkId)
      end
  end.

Definition reassembleFile (chunkCache : gmap jsstring LeafChunk) (entry : FileEntry)
    : M jsstring :=
  reassembleChunks chunkCache entry (children entry) [].

(** What the loop of [extractAll] carries from one entry to the next. *)
Record LoopState := mkLoop {
  cryptoState : CryptoState;
  fileSystem : FS;
  result : ExtractionResult
}.

Definition pushSkipped (filePath : jsstring) (r : ExtractionResult) : ExtractionResult :=
  mkResult (totalFiles r) (extractedFiles r) (failedFiles r) (skippedFiles r ++ [filePath]).
Definition pushFailed (filePath : jsstring) (r : ExtractionResult) : ExtractionResult :=
  mkResult (totalFiles r) (extractedFiles r) (failedFiles r ++ [filePath]) (skippedFiles r).
Definition countExtracted (r : ExtractionResult) : ExtractionResult :=
  mkResult (totalFiles r) (S (extractedFiles r)) (failedFiles r) (skippedFiles r).

(** The body of [for (const entry of fileEntries)]. *)
Definition extractEntry (outputDir : jsstring) (chunkCache : gmap jsstring LeafChunk)
    (s : LoopState) (entry : FileEntry) : LoopState :=
  let filePath := _id entry in
  if startsWith filePath (js ".obsidian/") then
    mkLoop (cryptoState s) (fileSystem s) (pushSkipped filePath (result s))
  else
    (* try *)
    match reassembleFile chunkCache entry (cryptoState s) with
    | (Ok content, cs) =>
        match writeFileSafely outputDir filePath content (fileSystem s) with
        | (Ok _, fs) => mkLoop cs fs (countExtracted (result s))
        | (Err _, fs) => mkLoop cs fs (pushFailed filePath (result s))
        end
    (* catch *)
    | (Err _, cs) => mkLoop cs (fileSystem s) (pushFailed filePath (result s))
    end.

Definition extractEntries (outputDir : jsstring) (chunkCache : gmap jsstring LeafChunk)
    (fileEntries : list FileEntry) (s : LoopState) : LoopState :=
  fold_left (extractEntry outputDir chunkCache) fileEntries s.

(** The state of the run: the extractor's [chunkCache], the crypto module
    and the file system. *)
Record RunState := mkRun {
  chunkCache : gmap jsstring LeafChunk;
  run_crypto : CryptoState;
  run_fs : FS
}.

(** [None]: the promise of [extractAll] rejects, which only a failed
    listing or a failed bulk fetch causes. *)
Definition extractAll (outputDir : jsstring) (st : RunState)
    : option ExtractionResult * RunState :=
  match getAllFileEntries client with
  | None => (None, st)
  | Some fileEntries =>
      match prefetchChunks fileEntries (chunkCache st) with
      | (false, cache) => (None, mkRun cache (run_crypto st) (run_fs st))
      | (true, cache) =>
          let s := extractEntries outputDir cache fileEntries
                     (mkLoop (run_crypto st) (run_fs st)
                        (mkResult (length fileEntries) 0 [] [])) in
          (Some (result s), mkRun cache (cryptoState s) (fileSystem s))
      end
  end.

End WithPlatform.
End Extractor.
Export Extractor.

(* ================================================================== *)
(** ** backup.ts *)

Record FileInfo := mkFileInfo {
  isFile : bool;
  isDirectory : bool;
  (** [mtime.getTime()], in milliseconds; [None] is [null] *)
  mtime : option Z
}.

Record DirEntry := mkDirEntry {
  entryName : jsstring;
  entryIsFile : bool
}.

(** The calls of backup.ts into the operating system. *)
Class BackupPlatform := {
  Disk : Type;
  (** [Deno.stat(path)]; [None] when it throws *)
  stat : jsstring -> Disk -> option FileInfo;
  (** the entries of [Deno.readDir(path)]; [None] when it throws *)
  readDir : jsstring -> Disk -> option (list DirEntry);
  (** [Deno.remove(path)]: whether it succeeded *)
  remove : jsstring -> Disk -> bool * Disk;
  (** [new Deno.Command("zip", {args, cwd}).output()]: the exit code,
      [None] when the command cannot be run *)
  runZip : list jsstring -> jsstring -> Disk -> option Z * Disk
}.

Module Backup.

(** The regular expressions of the module are sequences of literal
    characters and [\d]. *)
Inductive PatternItem :=
| Lit (c : N)
| Digit.

Definition isDigit (c : N) : bool := ((48 <=? c) && (c <=? 57))%N.

(** [/^pattern$/.test(s)] *)
Fixpoint test (pattern : list PatternItem) (s : jsstring) : bool :=
  match pattern, s with
  | [], [] => true
  | Lit c :: pattern', d :: s' => N.eqb c d && test pattern' s'
  | Digit :: pattern', d :: s' => isDigit d && test pattern' s'
  | _, _ => false
  end.

(** [/^obsidian-\d{4}-\d{2}-\d{2}\.zip$/] *)
Definition BACKUP_FILENAME_PATTERN : list PatternItem :=
  map Lit (js "obsidian-") ++ replicate 4 Digit ++ map Lit (js "-")
  ++ replicate 2 Digit ++ map Lit (js "-") ++ replicate 2 Digit ++ map Lit (js ".zip").

Definition isBackupFile (filename : jsstring) : bool :=
  test BACKUP_FILENAME_PATTERN filename.

(** [s.split(sep)[0]] for a one-character separator. *)
Fixpoint firstPiece (sep : N) (s : jsstring) : jsstring :=
  match s with
  | [] => []
  | c :: s' => if N.eqb c sep then [] else c :: firstPiece sep s'
  end.

Definition CHAR_UPPERCASE_T : N := 84.

Inductive BackupError :=
| ZipFailed          (* "Failed to create zip: ..." *)
| CommandFailed      (* thrown by Deno.Command.output *)
| StatFailed         (* thrown by Deno.stat *)
| ReadDirFailed.     (* thrown by Deno.readDir *)

(** Why an entry is listed in [skipped]: the text added to its name. *)
Inductive SkipReason :=
| NotAFile           (* " (not a file)" *)
| NoPatternMatch     (* " (doesn't match backup pattern)" *)
| StatSaysNotAFile   (* " (stat says not a file)" *)
| ProcessingError.   (* " (error: ...)" *)

Record PruneResult := mkPruneResult {
  pruned : list jsstring;
  skipped : list (jsstring * SkipReason)
}.

Section WithPlatform.
Context {platform : BackupPlatform}.

(** [isoNow] is [new Date().toISOString()]. *)
Definition createZipArchive (isoNow : jsstring) (sourceDir outputPath : jsstring)
    (disk : Disk) : (BackupError + jsstring) * Disk :=
  let date := firstPiece CHAR_UPPERCASE_T isoNow in
  let zipName := js "obsidian-" ++ date ++ js ".zip" in
  let zipPath := join outputPath zipName in
  match runZip [js "-r"; zipPath; js "."] sourceDir disk with
  | (None, disk1) => (inl CommandFailed, disk1)
  | (Some code, disk1) =>
      if negb (code =? 0) then (inl ZipFailed, disk1)
      else
        (* Get file size for logging *)
        match stat zipPath disk1 with
        | None => (inl StatFailed, disk1)
        | Some _ => (inr zipPath, disk1)
        end
  end.

Definition skip (entry : DirEntry) (reason : SkipReason) (r : PruneResult) : PruneResult :=
  mkPruneResult (pruned r) (skipped r ++ [(entryName entry, reason)]).

(** The body of [for await (const entry of Deno.readDir(backupDir))]. *)
Definition pruneEntry (backupDir : jsstring) (cutoff : Z) (s : PruneResult * Disk)
    (entry : DirEntry) : PruneResult * Disk :=
  let '(r, disk) := s in
  (* SAFETY: Only process regular files *)
  if negb (entryIsFile entry) then (skip entry NotAFile r, disk)
  (* SAFETY: Only process files matching our exact backup pattern *)
  else if negb (isBackupFile (entryName entry)) then (skip entry NoPatternMatch r, disk)
  else
    let filePath := join backupDir (entryName entry) in
    (* try *)
    match stat filePath disk with
    | None => (skip entry ProcessingError r, disk)
    | Some info =>
        (* Double-check it's a file *)
        if negb (isFile info) then (skip entry StatSaysNotAFile r, disk)
        else
          (* Check if older than retention period *)
          match mtime info with
          | Some t =>
              if t <? cutoff then
                match remove filePath disk with
                | (true, disk') =>
                    (mkPruneResult (pruned r ++ [entryName entry]) (skipped r), disk')
                | (false, disk') => (skip entry ProcessingError r, disk')
                end
              else (r, disk)
          | None => (r, disk)
          end
    end.

(** [now] is [Date.now()]; the days of retention are a whole number.
    [inl]: the promise rejects, which only a failing [readDir] causes. *)
Definition pruneOldBackups (now : Z) (backupDir : jsstring) (retentionDays : Z)
    (disk : Disk) : (BackupError + PruneResult) * Disk :=
  let result := mkPruneResult [] [] in
  (* Check if directory exists *)
  match stat backupDir disk with
  | None => (inr result, disk)
  | Some info =>
      if negb (isDirectory info) then (inr result, disk)
      else
        let cutoff := now - retentionDays * 24 * 60 * 60 * 1000 in
        match readDir backupDir disk with
        | None => (inl ReadDirFailed, disk)
        | Some entries =>
            let '(r, disk') := fold_left (pruneEntry backupDir cutoff) entries (result, disk) in
            (inr r, disk')
        end
  end.

End WithPlatform.
End Backup.
Export Backup.

(* ================================================================== *)
(** ** Segment view of paths *)

Module Segments.

(** The pieces of a path between its slashes; never the empty list. *)
Fixpoint splitSlash (s : jsstring) : list jsstring :=
  match s with
  | [] => [[]]
  | c :: s' =>
      if isPosixPathSeparator c then [] :: splitSlash s'
      else match splitSlash s' with
           | seg :: segs => (c :: seg) :: segs
           | [] => [[c]]
           end
  end.

Fixpoint joinSlash (segs : list jsstring) : jsstring :=
  match segs with
  | [] => []
  | [seg] => seg
  | seg :: rest => seg ++ CHAR_FORWARD_SLASH :: joinSlash rest
  end.

(** Lexical resolution below the root: the stack holds the directories
    entered so far, innermost first; [".."] at the root stays at the root. *)
Definition pushSegment (stack : list jsstring) (seg : jsstring) : list jsstring :=
  if bool_decide (seg = []) || bool_decide (seg = js ".") then stack
  else if bool_decide (seg = js "..") then tail stack
  else seg :: stack.

Definition resolveSegments (segs : list jsstring) : list jsstring :=
  rev (fold_left pushSegment segs []).

(** The directories an absolute path resolves to, outermost first. *)
Definition directoriesOf (path : jsstring) : list jsstring :=
  resolveSegments (splitSlash path).

(** [full] lies strictly inside [base]: the directories of [base] are a
    strict prefix of those of [full]. *)
Definition strictlyInside (full base : jsstring) : bool :=
  let f := directoriesOf full in
  let b := directoriesOf base in
  bool_decide (take (length b) f = b) && (length b <? length f)%nat.

(** The value of [dots] after the characters of one segment. *)
Definition dotsAfter (d : Z) (seg : jsstring) : Z :=
  fold_left (fun d c => if N.eqb c CHAR_DOT && negb (d =? -1) then d + 1 else -1) seg d.

Definition slashFree (seg : jsstring) : Prop := Forall (fun c => c <> CHAR_FORWARD_SLASH) seg.

(** A segment that [normalizeString] keeps. *)
Definition proper (seg : jsstring) : Prop :=
  seg <> [] /\ slashFree seg /\ seg <> js "." /\ seg <> js "..".

(** The loop invariant of [normalizeString] at the start of a segment that
    begins at index [i], for a path resolved below the root. *)
Definition atSegmentStart (i : Z) (stack : list jsstring) (s : NormState) : Prop :=
  res s = joinSlash (rev stack) /\
  lastSegmentLength s = len (hd [] stack) /\
  lastSlash s = i - 1 /\
  dots s = 0 /\
  Forall proper stack.

(** Decidable form of [proper]. *)
Definition properb (seg : jsstring) : bool :=
  negb (bool_decide (seg = [])) && forallb (fun c => negb (isPosixPathSeparator c)) seg
  && negb (bool_decide (seg = js ".")) && negb (bool_decide (seg = js "..")).

Definition trailingSeparator (path : jsstring) : bool :=
  match last path with Some c => isPosixPathSeparator c | None => false end.

(** An absolute path as [normalize] prints it: the directories joined
    below the root, and the trailing slash of the input kept. *)
Definition printedBase (dirs : list jsstring) (trailing : bool) : jsstring :=
  CHAR_FORWARD_SLASH ::
    (let p := joinSlash dirs in
     if (0 <? length p)%nat && trailing then p ++ js "/" else p).

Fixpoint countSlash (s : jsstring) : nat :=
  match s with
  | [] => 0
  | c :: s' => (if isPosixPathSeparator c then 1 else 0) + countSlash s'
  end.

Definition noLeadingSpace (s : jsstring) : Prop :=
  forall c, head s = Some c -> isWhiteSpace c = false.
Definition noTrailingSpace (s : jsstring) : Prop :=
  forall c, last s = Some c -> isWhiteSpace c = false.

End Segments.
Export Segments.

(* ================================================================== *)
(** ** The wire formats in the words of the specification *)

Module Reference.

Inductive Format := HkdfExpand | LegacyPbkdf2 | Plaintext.

(** FormatDetector: the long prefix, else the short prefix followed by 32
    hexadecimal digits (legacy) or by anything else (HKDF-expand with an
    implicit prefix), else plaintext. *)
Definition classify (payload : jsstring) : Format :=
  match payload with
  | c :: body =>
      if N.eqb c CHAR_PERCENT then
        if match body with d :: _ => N.eqb d CHAR_EQUALS | [] => false end
        then HkdfExpand
        else if (32 <=? length body)%nat && forallb isHexDigit (take 32 body)
        then LegacyPbkdf2
        else HkdfExpand
      else Plaintext
  | [] => Plaintext
  end.

(** The text after the prefix. *)
Definition bodyOf (payload : jsstring) : jsstring :=
  match payload with
  | c :: body =>
      if N.eqb c CHAR_PERCENT then
        match body with
        | d :: rest => if N.eqb d CHAR_EQUALS then rest else body
        | [] => body
        end
      else payload
  | [] => []
  end.

Section WithCrypto.
Context {webcrypto : WebCrypto}.

(** KeyDeriver, without its caches. *)
Definition masterKey (passphrase : jsstring) (globalSalt : bytes) : CryptoKey :=
  importKey (pbkdf2_sha256 (utf8_encode passphrase) globalSalt 310000) HKDF.

Definition chunkKey (passphrase : jsstring) (globalSalt chunkSalt : bytes) : CryptoKey :=
  importKey (hkdf_sha256 (raw (masterKey passphrase globalSalt)) chunkSalt []) AES_GCM.

Definition legacyKey (passphrase : jsstring) (salt : bytes) : CryptoKey :=
  importKey (pbkdf2_sha256 (sha256 (utf8_encode passphrase)) salt 100000) AES_GCM.

Definition authenticatedDecrypt (key : CryptoKey) (iv ciphertextWithTag : bytes)
    : Result jsstring :=
  match aes_gcm_decrypt (raw key) iv ciphertextWithTag with
  | Some plain => Ok (utf8_decode plain)
  | None => Err OperationError
  end.

(** HKDF-expand layout: base64( IV[12] ‖ chunkSalt[32] ‖ ciphertext ‖ tag[16] ). *)
Definition hkdfPlaintext (globalSalt : option bytes) (passphrase body : jsstring)
    : Result jsstring :=
  match atob (repad body) with
  | None => Err InvalidCharacterError
  | Some decoded =>
      if (length decoded <? 60)%nat then Err (EncryptedDataTooShort (length decoded))
      else
        match globalSalt with
        | None => Err SaltNotSet
        | Some salt =>
            authenticatedDecrypt (chunkKey passphrase salt (take 32 (drop 12 decoded)))
              (take 12 decoded) (drop 44 decoded)
        end
  end.

(** Legacy layout: 32 hex characters of IV, 32 hex characters of salt,
    base64( ciphertext ‖ tag[16] ). *)
Definition legacyPlaintext (passphrase body : jsstring) : Result jsstring :=
  if (length body <? 65)%nat then Err (V2LegacyDataTooShort (length body))
  else
    match atob (repad (drop 64 body)) with
    | None => Err InvalidCharacterError
    | Some ciphertextWithTag =>
        authenticatedDecrypt
          (legacyKey passphrase (hexStringToUint8Array (take 32 (drop 32 body))))
          (hexStringToUint8Array (take 32 body)) ciphertextWithTag
    end.

(** ChunkDecryptor. *)
Definition plaintextOf (globalSalt : option bytes) (passphrase payload : jsstring)
    : Result jsstring :=
  match classify payload with
  | Plaintext => Ok payload
  | HkdfExpand => hkdfPlaintext globalSalt passphrase (bodyOf payload)
  | LegacyPbkdf2 => legacyPlaintext passphrase (bodyOf payload)
  end.

(** Every cached key is the key that a fresh derivation would give. *)
Definition coherent (st : CryptoState) : Prop :=
  (forall key passphrase,
      cachedHKDFKey st = Some key -> cachedPassphrase st = Some passphrase ->
      exists salt, globalPBKDF2Salt st = Some salt /\ key = masterKey passphrase salt) /\
  (forall passphrase salt key,
      v2LegacyKeyCache st !! (passphrase ++ js ":" ++ saltToHex salt) = Some key ->
      key = legacyKey passphrase salt).

(** [m], started in a coherent state [st], ends in a coherent state with
    the same global salt and returns (or throws) [v]. *)
Definition yields {A} (m : M A) (st : CryptoState) (v : Result A) : Prop :=
  coherent (m st).2 /\
  globalPBKDF2Salt (m st).2 = globalPBKDF2Salt st /\
  (m st).1 = v.

(** ChunkReassembler, without the caches of the key deriver: the chunks
    are resolved as the extractor resolves them and decrypted one by one. *)
Fixpoint reassemblePlain (client : CouchDBClient) (passphrase : jsstring)
    (globalSalt : option bytes) (chunkCache : gmap jsstring LeafChunk)
    (entry : FileEntry) (chunkIds : list jsstring) (plain : list jsstring)
    : Result jsstring :=
  match chunkIds with
  | [] => Ok (concat plain)
  | chunkId :: rest =>
      match getChunkData client chunkCache chunkId entry with
      | Some (c :: d) =>
          match plaintextOf globalSalt passphrase (c :: d) with
          | Ok p => reassemblePlain client passphrase globalSalt chunkCache entry rest
                      (plain ++ [p])
          | Err e => Err e
          end
      | _ => Err (MissingChunk chunkId)
      end
  end.

(** A chunk reference resolves to data that decrypts to [p], by the
    reference decryptor. *)
Definition decryptsTo (client : CouchDBClient) (passphrase : jsstring)
    (salt : option bytes) (chunkCache : gmap jsstring LeafChunk) (entry : FileEntry)
    (chunkId p : jsstring) : Prop :=
  exists encryptedData,
    getChunkData client chunkCache chunkId entry = Some encryptedData /\
    encryptedData <> [] /\
    plaintextOf salt passphrase encryptedData = Ok p.

(** A chunk reference resolves to data that [decryptChunk], run in state
    [st], decrypts to [p]. *)
Definition resolvesTo (client : CouchDBClient) (passphrase : jsstring)
    (chunkCache : gmap jsstring LeafChunk) (entry : FileEntry) (st : CryptoState)
    (chunkId p : jsstring) : Prop :=
  exists encryptedData,
    getChunkData client chunkCache chunkId entry = Some encryptedData /\
    encryptedData <> [] /\
    (decryptChunk encryptedData passphrase st).1 = Ok p.

(** Every entry ends in exactly one of the three tallies. *)
Definition tally (r : ExtractionResult) : nat :=
  (extractedFiles r + length (failedFiles r) + length (skippedFiles r))%nat.

End WithCrypto.
End Reference.
Export Reference.

(* ================================================================== *)
(** ** What the further properties speak of *)

Module Conduct.

(** [/^[a-zA-Z]:/.test(p)] *)
Definition hasDriveLetter (p : jsstring) : bool :=
  match p with
  | c :: d :: _ => isAsciiLetter c && N.eqb d CHAR_COLON
  | _ => false
  end.

(** The checks of [isPathSafe] that do not look at the base directory:
    the path is not blank, has no null byte, is neither [.] nor [..], does
    not begin with a slash or a backslash, nor with a drive letter. *)
Definition shapeChecks (filePath : jsstring) : bool :=
  negb (forallb isWhiteSpace filePath)
  && negb (includesChar filePath CHAR_NUL)
  && negb (bool_decide (filePath = js ".")) && negb (bool_decide (filePath = js ".."))
  && negb (isAbsolute (replaceBackslashes filePath))
  && negb (hasDriveLetter filePath).

(** Two slashes in a row, somewhere in the string. *)
Fixpoint hasDoubleSlash (s : jsstring) : bool :=
  match s with
  | c :: s' =>
      match s' with
      | d :: _ => isPosixPathSeparator c && isPosixPathSeparator d || hasDoubleSlash s'
      | [] => false
      end
  | [] => false
  end.

Section Writes.
Context {webcrypto : WebCrypto} {filesystem : FileSystem}.

(** The file system [fs'] is reached from [fs] by calls of [ensureDir] and
    [Deno.writeTextFile] only, each for an approved pair of a path and a
    content. *)
Inductive writesOnly (approved : jsstring -> jsstring -> Prop) : FS -> FS -> Prop :=
| writes_nothing fs : writesOnly approved fs fs
| writes_directory fs fs' fullPath content :
    writesOnly approved fs fs' -> approved fullPath content ->
    writesOnly approved fs (ensureDir (dirname fullPath) fs').2
| writes_file fs fs' fullPath content :
    writesOnly approved fs fs' -> approved fullPath content ->
    writesOnly approved fs (writeTextFile fullPath content fs').2.

(** [fullPath] is where [writeFileSafely] puts a document of the listing
    that is not a configuration file and has a safe identifier, and
    [content] is the plaintexts of its chunks, in order. *)
Definition decryptedDocument (client : CouchDBClient) (passphrase outputDir : jsstring)
    (globalSalt : option bytes) (chunkCache : gmap jsstring LeafChunk)
    (fileEntries : list FileEntry) (fullPath content : jsstring) : Prop :=
  exists entry,
    entry ∈ fileEntries /\
    startsWith (_id entry) (js ".obsidian/") = false /\
    isPathSafe (_id entry) outputDir = true /\
    fullPath = join outputDir (sanitizePath (_id entry)) /\
    reassemblePlain client passphrase globalSalt chunkCache entry (children entry) []
      = Ok content.

End Writes.

(** [chunk] is the document of a row of the response with the identifier
    [chunkId] and the data of [chunk]. *)
Definition storedChunk (rows : list Row) (chunkId : jsstring) (chunk : LeafChunk) : Prop :=
  exists row doc,
    row ∈ rows /\ row_id row = chunkId /\ row_doc row = Some doc /\
    doc_data doc = Some (data chunk) /\ chunk = asLeafChunk doc.

(** [YYYY-MM-DD], the date of [toISOString] for the years 0 to 9999. *)
Definition ISO_DATE_PATTERN : list PatternItem :=
  replicate 4 Digit ++ map Lit (js "-") ++ replicate 2 Digit ++ map Lit (js "-")
  ++ replicate 2 Digit.

Section Removes.
Context {platform : BackupPlatform}.

(** The disk [disk'] is reached from [disk] by calls of [Deno.remove]
    only, each on a path that is allowed on the disk it meets. *)
Inductive removesOnly (allowed : jsstring -> Disk -> Prop) : Disk -> Disk -> Prop :=
| removes_nothing disk : removesOnly allowed disk disk
| removes_file disk disk' path :
    removesOnly allowed disk disk' -> allowed path disk' ->
    removesOnly allowed disk (remove path disk').2.

(** [path] is an entry of the listing of [backupDir] that is a regular
    file with the name of a backup, and [Deno.stat] says on [disk] that it
    is a regular file last modified before the cutoff. *)
Definition oldBackup (backupDir : jsstring) (cutoff : Z) (listing : list DirEntry)
    (path : jsstring) (disk : Disk) : Prop :=
  exists entry info t,
    entry ∈ listing /\ entryIsFile entry = true /\ isBackupFile (entryName entry) = true /\
    path = join backupDir (entryName entry) /\
    stat path disk = Some info /\ isFile info = true /\ mtime info = Some t /\ t < cutoff.

End Removes.

End Conduct.
Export Conduct.

(* ================================================================== *)
(** ** A stand-in platform and sample documents

    Used only to instantiate the theorems on concrete inputs: the "cipher"
    checks nothing and strips a 16-byte tag. *)

Module Sample.

Definition toyCrypto : WebCrypto := {|
  utf8_encode := map (fun c => toUint8 (Z.of_N c));
  utf8_decode := map Byte.to_N;
  sha256 := fun b => rev b;
  pbkdf2_sha256 := fun key salt _ => key ++ salt;
  hkdf_sha256 := fun key salt info => salt ++ key ++ info;
  aes_gcm_decrypt := fun _ _ d =>
    if (length d <? 16)%nat then None else Some (take (length d - 16) d)
|}.

(** A file system that records every write and never fails. *)
Definition logFS : FileSystem := {|
  FS := list (jsstring * jsstring);
  dirname := fun p => p;
  ensureDir := fun _ fs => (true, fs);
  writeTextFile := fun p c fs => (true, fs ++ [(p, c)])
|}.

Definition emptyState : CryptoState := mkCryptoState None None None ∅ [].

(** The state after [setPBKDF2Salt] on a fresh module. *)
Definition saltedState : CryptoState :=
  mkCryptoState (Some [Byte.x01; Byte.x02]) None None ∅ [].

Definition passphrase : jsstring := js "correct horse".

(** [%=] and the base64 of 12 bytes [I], 32 bytes [S], the text [wor] and
    16 bytes [T]. *)
Definition hkdfPayload : jsstring :=
  js "%=SUlJSUlJSUlJSUlJU1NTU1NTU1NTU1NTU1NTU1NTU1NTU1NTU1NTU1NTU1N3b3JUVFRUVFRUVFRUVFRUVFRU".

(** [%], 32 hex digits of IV, 32 hex digits of salt and the base64 of the
    text [ld!] and 16 bytes [T]. *)
Definition legacyPayload : jsstring :=
  js "%000102030405060708090a0b0c0d0e0fA0A1A2A3A4A5A6A7A8A9AAABACADAEAFbGQhVFRUVFRUVFRUVFRUVFRUVA==".

(** The payload of the tests of the source: it decodes to 8 bytes. *)
Definition shortPayload : jsstring := js "%dG9vc2hvcnQ=".

(** Two stored chunks, one plaintext and one in the HKDF format; every
    other reference is unknown to the store. *)
Definition sampleClient : CouchDBClient := {|
  getAllFileEntries := None;
  getChunks := fun _ => Some ∅;
  getChunk := fun id =>
    if bool_decide (id = js "h:one") then Some (mkLeafChunk id (js "Hello, "))
    else if bool_decide (id = js "h:two") then Some (mkLeafChunk id hkdfPayload)
    else None
|}.

(** Two stored chunks and an inline chunk in the legacy format. *)
Definition sampleEntry : FileEntry :=
  mkFileEntry (js "notes/hello.md") [js "h:one"; js "h:two"; js "e1"]
    (Some {[ js "e1" := legacyPayload ]}).

(** The second reference resolves to nothing. *)
Definition brokenEntry : FileEntry :=
  mkFileEntry (js "notes/broken.md") [js "h:one"; js "h:gone"; js "h:two"] None.

Definition lastEntry : FileEntry :=
  mkFileEntry (js "last.md") [js "h:one"] None.

Definition configEntry : FileEntry :=
  mkFileEntry (js ".obsidian/app.json") [js "h:one"] None.

(** A store that lists four documents; its bulk fetch only finds the first
    chunk, the second one is fetched on demand. *)
Definition sampleStore : CouchDBClient := {|
  getAllFileEntries := Some [configEntry; sampleEntry; brokenEntry; lastEntry];
  getChunks := fun _ => Some {[ js "h:one" := mkLeafChunk (js "h:one") (js "Hello, ") ]};
  getChunk := getChunk sampleClient
|}.

(** Two documents of the configuration directory whose identifiers are
    spelled otherwise, after the configuration file itself. *)
Definition dottedEntry : FileEntry :=
  mkFileEntry (js "./.obsidian/app.json") [js "h:one"] None.

Definition spacedEntry : FileEntry :=
  mkFileEntry (js " .obsidian/workspace.json") [js "h:one"] None.

Definition spelledStore : CouchDBClient := {|
  getAllFileEntries := Some [configEntry; dottedEntry; spacedEntry];
  getChunks := getChunks sampleStore;
  getChunk := getChunk sampleClient
|}.

(** The chunk cache after the prefetch on [sampleStore]. *)
Definition sampleCache : gmap jsstring LeafChunk :=
  {[ js "h:one" := mkLeafChunk (js "h:one") (js "Hello, ") ]}.

(** A new extractor, the salt set, an empty output directory. *)
Definition startOfRun : RunState (filesystem := logFS) :=
  mkRun (filesystem := logFS) ∅ saltedState [].

(** The answers of a database: a live document, a chunk, a design
    document and a deleted document in the listing; a chunk with data, a
    chunk without and an unknown key in every bulk answer. *)
Definition sampleDatabase : Database := {|
  allDocs := Some
    [ mkRow (js "notes/hello.md")
        (Some (mkDoc (js "notes/hello.md") false (Some [js "h:one"]) None None));
      mkRow (js "h:one") (Some (mkDoc (js "h:one") false None None (Some (js "Hello, "))));
      mkRow (js "_design/replicate")
        (Some (mkDoc (js "_design/replicate") false None None None));
      mkRow (js "old.md") (Some (mkDoc (js "old.md") true (Some []) None None)) ];
  allDocsWithKeys := fun _ =>
    Some [ mkRow (js "h:one") (Some (mkDoc (js "h:one") false None None (Some (js "Hello, "))));
           mkRow (js "h:two") (Some (mkDoc (js "h:two") false None None (Some [])));
           mkRow (js "h:gone") None ];
  document := fun _ => None
|}.

(** A store that answers every bulk request in full. *)
Definition fullStore : CouchDBClient := {|
  getAllFileEntries := Some [sampleEntry; lastEntry];
  getChunks := fun chunkIds =>
    Some (list_to_map (map (fun chunkId => (chunkId, mkLeafChunk chunkId (js "Hello, ")))
                         chunkIds));
  getChunk := fun _ => None
|}.

(** A disk with one directory, [/backup], given by its entries; nothing
    fails on it, and [zip] leaves the archive it is asked for. *)
Definition listDisk : BackupPlatform := {|
  Disk := list (jsstring * FileInfo);
  stat := fun path disk =>
    if bool_decide (path = js "/backup") then Some (mkFileInfo false true None)
    else if startsWith path (js "/backup/") then
      snd <$> List.find (fun e => bool_decide (e.1 = drop 8 path)) disk
    else None;
  readDir := fun path disk =>
    if bool_decide (path = js "/backup")
    then Some (map (fun e => mkDirEntry e.1 (isFile e.2)) disk)
    else None;
  remove := fun path disk =>
    (true, List.filter (fun e => negb (bool_decide (e.1 = drop 8 path))) disk);
  runZip := fun args _ disk =>
    match args with
    | [_; zipPath; _] =>
        (Some 0, disk ++ [(drop 8 zipPath, mkFileInfo true false (Some 0))])
    | _ => (Some 2, disk)
    end
|}.

Definition day : Z := 24 * 60 * 60 * 1000.

(** An old backup, a recent one, a file of another name and a directory
    with the name of a backup. *)
Definition sampleDisk : list (jsstring * FileInfo) :=
  [ (js "obsidian-2024-01-01.zip", mkFileInfo true false (Some (10 * day)));
    (js "obsidian-2024-03-01.zip", mkFileInfo true false (Some (70 * day)));
    (js "notes.md", mkFileInfo true false (Some 0));
    (js "obsidian-2023-01-01.zip", mkFileInfo false true (Some 0)) ].

End Sample.

(* ================================================================== *)
(** * Properties *)


(** *** Strings *)

Lemma startsWith_app (p s : jsstring) : startsWith (p ++ s) p = true.
Proof. induction p as [|c p IH]; simpl; [done|]. by rewrite N.eqb_refl. Qed.

Lemma startsWith_prefix (s p : jsstring) :
  startsWith s p = true <-> exists r, s = p ++ r.
Proof.
  revert s. induction p as [|c p IH]; intros s; simpl.
  - split; [eauto|done].
  - destruct s as [|d s]; [split; [done|intros [r Hr]; done]|].
    rewrite andb_true_iff, N.eqb_eq, IH. split.
    + intros [-> [r ->]]. eauto.
    + intros [r Hr]. injection Hr as -> ->. eauto.
Qed.

Lemma slice_in_range {A} (s : list A) (a b : Z) :
  0 <= a <= b -> b <= Z.of_nat (length s) ->
  slice s a b = take (Z.to_nat (b - a)) (drop (Z.to_nat a) s).
Proof.
  intros Ha Hb. unfold slice, clampIndex.
  destruct (Z.ltb_spec a 0); [lia|]. destruct (Z.ltb_spec b 0); [lia|].
  by rewrite !Z.min_l by lia.
Qed.

Lemma slice_app_middle {A} (a b c : list A) :
  slice (a ++ b ++ c) (Z.of_nat (length a)) (Z.of_nat (length a) + Z.of_nat (length b)) = b.
Proof.
  rewrite slice_in_range by (rewrite ?length_app; lia).
  replace (Z.to_nat (_ + _ - _)) with (length b) by lia.
  rewrite Nat2Z.id, drop_app_length. by rewrite take_app_length.
Qed.

Lemma slice_prefix {A} (a b : list A) :
  slice (a ++ b) 0 (Z.of_nat (length a)) = a.
Proof.
  rewrite slice_in_range by (rewrite ?length_app; lia).
  rewrite Z.sub_0_r, Nat2Z.id. change (Z.to_nat 0) with 0%nat. rewrite drop_0.
  by rewrite take_app_length.
Qed.

Lemma sliceFrom_drop {A} (s : list A) (n : nat) :
  sliceFrom s (Z.of_nat n) = drop n s.
Proof.
  unfold sliceFrom, slice, clampIndex.
  destruct (Z.ltb_spec (Z.of_nat n) 0); [lia|].
  destruct (Z.ltb_spec (Z.of_nat (length s)) 0); [lia|].
  rewrite Z.min_id.
  destruct (decide (n <= length s)%nat).
  - rewrite Z.min_l by lia. rewrite Nat2Z.id.
    apply take_ge. rewrite length_drop. lia.
  - rewrite Z.min_r by lia. rewrite Nat2Z.id, Z.sub_diag. simpl.
    rewrite !drop_ge by lia. done.
Qed.

(** *** Splitting and joining at slashes *)

Lemma splitSlash_nonempty s : splitSlash s <> [].
Proof.
  induction s as [|c s IH]; simpl; [done|].
  destruct (isPosixPathSeparator c); [done|]. by destruct (splitSlash s).
Qed.

Lemma notSeparator c : isPosixPathSeparator c = false -> c <> CHAR_FORWARD_SLASH.
Proof. unfold isPosixPathSeparator. by intros ?%N.eqb_neq. Qed.

Lemma splitSlash_slashFree s : Forall slashFree (splitSlash s).
Proof.
  induction s as [|c s IH]; simpl.
  - repeat constructor.
  - destruct (isPosixPathSeparator c) eqn:Hc.
    + constructor; [constructor|done].
    + apply notSeparator in Hc.
      destruct (splitSlash s) as [|seg segs]; [by repeat constructor|].
      inversion IH; subst. constructor; [|done]. by constructor.
Qed.

Lemma splitSlash_seg (seg : jsstring) :
  slashFree seg -> splitSlash seg = [seg].
Proof.
  induction 1 as [|c seg Hc _ IH]; simpl; [done|].
  unfold isPosixPathSeparator. destruct (N.eqb_spec c CHAR_FORWARD_SLASH); [done|].
  by rewrite IH.
Qed.

Lemma splitSlash_app (seg rest : jsstring) :
  slashFree seg ->
  splitSlash (seg ++ CHAR_FORWARD_SLASH :: rest) = seg :: splitSlash rest.
Proof.
  induction 1 as [|c seg Hc _ IH]; simpl; [done|].
  unfold isPosixPathSeparator. destruct (N.eqb_spec c CHAR_FORWARD_SLASH); [done|].
  by rewrite IH.
Qed.

Lemma splitSlash_app_any (a b : jsstring) :
  splitSlash (a ++ CHAR_FORWARD_SLASH :: b) = splitSlash a ++ splitSlash b.
Proof.
  induction a as [|c a IH]; simpl; [done|].
  destruct (isPosixPathSeparator c); [by rewrite IH|].
  rewrite IH. pose proof (splitSlash_nonempty a). by destruct (splitSlash a).
Qed.

Lemma joinSlash_cons seg segs :
  segs <> [] -> joinSlash (seg :: segs) = seg ++ CHAR_FORWARD_SLASH :: joinSlash segs.
Proof. by destruct segs. Qed.

Lemma joinSlash_splitSlash s : joinSlash (splitSlash s) = s.
Proof.
  induction s as [|c s IH]; simpl; [done|].
  pose proof (splitSlash_nonempty s) as Hne.
  destruct (isPosixPathSeparator c) eqn:Hc.
  - rewrite joinSlash_cons by done. rewrite IH. simpl.
    apply N.eqb_eq in Hc. by subst.
  - destruct (splitSlash s) as [|seg segs]; [done|].
    destruct segs; simpl in *; by rewrite <- IH.
Qed.

Lemma joinSlash_snoc segs seg :
  segs <> [] -> joinSlash (segs ++ [seg]) = joinSlash segs ++ CHAR_FORWARD_SLASH :: seg.
Proof.
  induction segs as [|a segs IH]; [done|]. intros _.
  destruct segs as [|b segs]; [done|].
  change ((a :: b :: segs) ++ [seg]) with (a :: ((b :: segs) ++ [seg])).
  rewrite joinSlash_cons by (simpl; congruence). rewrite IH by done.
  rewrite (joinSlash_cons a) by done. by rewrite <- app_assoc.
Qed.

Lemma joinSlash_app a b :
  a <> [] -> b <> [] ->
  joinSlash (a ++ b) = joinSlash a ++ CHAR_FORWARD_SLASH :: joinSlash b.
Proof.
  intros Ha Hb. induction a as [|x a IH]; [done|].
  destruct a as [|y a].
  - change ([x] ++ b) with (x :: b). by rewrite joinSlash_cons.
  - change ((x :: y :: a) ++ b) with (x :: ((y :: a) ++ b)).
    rewrite joinSlash_cons by (simpl; congruence). rewrite IH by done.
    rewrite (joinSlash_cons x) by done. by rewrite <- app_assoc.
Qed.

(** *** The loop of normalizeString, one segment at a time *)

Lemma len_app (a b : jsstring) : len (a ++ b) = len a + len b.
Proof. unfold len. rewrite length_app. lia. Qed.

Lemma len_cons c (a : jsstring) : len (c :: a) = 1 + len a.
Proof. unfold len. simpl. lia. Qed.

Lemma len_nonneg (a : jsstring) : 0 <= len a.
Proof. unfold len. lia. Qed.

Lemma body_ordinary path aar i c s :
  isPosixPathSeparator c = false ->
  normalizeString_body path aar i c s =
  mkNormState (res s) (lastSegmentLength s) (lastSlash s) (dotsAfter (dots s) [c]).
Proof.
  intros Hc. unfold normalizeString_body. rewrite Hc. simpl.
  by destruct (N.eqb c CHAR_DOT && negb (dots s =? -1)).
Qed.

Lemma dotsAfter_cons d c seg :
  dotsAfter d (c :: seg) = dotsAfter (dotsAfter d [c]) seg.
Proof. done. Qed.

Lemma loop_segment path aar (seg rest : jsstring) i code s :
  slashFree seg ->
  normalizeString_loop path aar (seg ++ rest) i code s =
  normalizeString_loop path aar rest (i + len seg)
    (match seg with [] => code | _ => last seg end)
    (mkNormState (res s) (lastSegmentLength s) (lastSlash s) (dotsAfter (dots s) seg)).
Proof.
  intros Hseg. revert i code s.
  induction Hseg as [|c seg Hc _ IH]; intros i code s.
  - destruct s. simpl. by rewrite Z.add_0_r.
  - simpl app. cbn [normalizeString_loop].
    rewrite body_ordinary by (unfold isPosixPathSeparator; by apply N.eqb_neq).
    rewrite IH. cbn [res lastSegmentLength lastSlash dots].
    rewrite <- dotsAfter_cons. rewrite len_cons, Z.add_assoc.
    by destruct seg.
Qed.

Lemma dotsAfter_minus_one seg : dotsAfter (-1) seg = -1.
Proof.
  induction seg as [|c seg IH]; [done|].
  rewrite dotsAfter_cons. simpl. by rewrite andb_false_r.
Qed.

Lemma dotsAfter_cases d seg :
  0 <= d ->
  dotsAfter d seg = -1 \/
  (dotsAfter d seg = d + len seg /\ seg = replicate (length seg) CHAR_DOT).
Proof.
  revert d. induction seg as [|c seg IH]; intros d Hd.
  - right. unfold len. simpl. split; [lia|done].
  - rewrite dotsAfter_cons. simpl dotsAfter at 2.
    destruct (N.eqb_spec c CHAR_DOT) as [->|Hc]; simpl.
    + destruct (Z.eqb_spec d (-1)); [lia|]. simpl.
      destruct (IH (d + 1)) as [H|[H1 H2]]; [lia|by left|right].
      rewrite H1, len_cons. split; [lia|]. simpl. by rewrite <- H2.
    + left. apply dotsAfter_minus_one.
Qed.

Lemma dotsAfter_one seg : dotsAfter 0 seg = 1 -> seg = js ".".
Proof.
  intros H. destruct (dotsAfter_cases 0 seg) as [H1|[H1 H2]]; [lia|lia|].
  rewrite H2. rewrite H in H1. unfold len in H1.
  by replace (length seg) with 1%nat by lia.
Qed.

Lemma dotsAfter_two seg : dotsAfter 0 seg = 2 -> seg = js "..".
Proof.
  intros H. destruct (dotsAfter_cases 0 seg) as [H1|[H1 H2]]; [lia|lia|].
  rewrite H2. rewrite H in H1. unfold len in H1.
  by replace (length seg) with 2%nat by lia.
Qed.

Lemma lastIndexOf_from_app c (x s : jsstring) i acc :
  lastIndexOf_from c (x ++ s) i acc =
  lastIndexOf_from c s (i + len x) (lastIndexOf_from c x i acc).
Proof.
  revert i acc. induction x as [|d x IH]; intros i acc; simpl.
  - by rewrite Z.add_0_r.
  - rewrite IH, len_cons. f_equal. lia.
Qed.

Lemma lastIndexOf_from_slashFree (a : jsstring) i acc :
  slashFree a -> lastIndexOf_from CHAR_FORWARD_SLASH a i acc = acc.
Proof.
  intros Ha. revert i acc. induction Ha as [|c a Hc _ IH]; intros i acc; simpl; [done|].
  rewrite IH. by destruct (N.eqb_spec c CHAR_FORWARD_SLASH).
Qed.

Lemma lastIndexOf_slashFree (a : jsstring) :
  slashFree a -> lastIndexOf a CHAR_FORWARD_SLASH = -1.
Proof. apply lastIndexOf_from_slashFree. Qed.

Lemma lastIndexOf_app_slash (x a : jsstring) :
  slashFree a -> lastIndexOf (x ++ CHAR_FORWARD_SLASH :: a) CHAR_FORWARD_SLASH = len x.
Proof.
  intros Ha. unfold lastIndexOf. rewrite lastIndexOf_from_app. simpl.
  by rewrite lastIndexOf_from_slashFree.
Qed.

(** The rendering of a stack of kept segments. *)
Lemma render_cons a (stack : list jsstring) :
  stack <> [] ->
  joinSlash (rev (a :: stack)) = joinSlash (rev stack) ++ CHAR_FORWARD_SLASH :: a.
Proof.
  intros Hne. simpl. apply joinSlash_snoc.
  intros H. apply Hne. by rewrite <- (rev_involutive stack), H.
Qed.

Lemma render_ends_with a (stack : list jsstring) :
  exists x, joinSlash (rev (a :: stack)) = x ++ a /\
            (stack = [] -> x = []) /\ (stack <> [] -> 0 < len x).
Proof.
  destruct stack as [|b stack].
  - exists []. done.
  - exists (joinSlash (rev (b :: stack)) ++ [CHAR_FORWARD_SLASH]).
    rewrite render_cons by done. rewrite <- app_assoc. split; [done|].
    split; [done|]. intros _. rewrite len_app.
    pose proof (len_nonneg (joinSlash (rev (b :: stack)))).
    change (len [CHAR_FORWARD_SLASH]) with 1. lia.
Qed.

Lemma render_length (stack : list jsstring) :
  Forall proper stack -> stack <> [] -> 0 < len (joinSlash (rev stack)).
Proof.
  intros Hall Hne. destruct stack as [|a stack]; [done|].
  destruct (render_ends_with a stack) as (x & -> & _ & _).
  inversion Hall as [|? ? [Ha _] _]; subst.
  rewrite len_app. pose proof (len_nonneg x). destruct a; [done|]. rewrite len_cons.
  pose proof (len_nonneg a). lia.
Qed.

Lemma slice_len_prefix (a b : jsstring) : slice (a ++ b) 0 (len a) = a.
Proof. apply slice_prefix. Qed.

Lemma slice_len_middle (a b c : jsstring) :
  slice (a ++ b ++ c) (len a) (len a + len b) = b.
Proof. apply slice_app_middle. Qed.

Lemma render_lastIndexOf b (stack : list jsstring) :
  slashFree b ->
  lastIndexOf (joinSlash (rev (b :: stack))) CHAR_FORWARD_SLASH =
  len (joinSlash (rev (b :: stack))) - 1 - len b.
Proof.
  intros Hb. destruct stack as [|c stack].
  - simpl. rewrite lastIndexOf_slashFree by done. lia.
  - rewrite render_cons by done. rewrite lastIndexOf_app_slash by done.
    rewrite len_app, len_cons. lia.
Qed.

Lemma charCodeAt_last (x : jsstring) c :
  charCodeAt (x ++ [c]) (len (x ++ [c]) - 1) = Some c.
Proof.
  unfold charCodeAt. rewrite len_app. change (len [c]) with 1.
  pose proof (len_nonneg x). destruct (Z.ltb_spec (len x + 1 - 1) 0); [lia|].
  replace (Z.to_nat (len x + 1 - 1)) with (length x) by (unfold len; lia).
  by rewrite list_lookup_middle.
Qed.

Lemma charCodeAt_before_last (x : jsstring) c d :
  charCodeAt (x ++ [c; d]) (len (x ++ [c; d]) - 2) = Some c.
Proof.
  unfold charCodeAt. rewrite len_app. change (len [c; d]) with 2.
  pose proof (len_nonneg x). destruct (Z.ltb_spec (len x + 2 - 2) 0); [lia|].
  replace (Z.to_nat (len x + 2 - 2)) with (length x) by (unfold len; lia).
  by rewrite list_lookup_middle.
Qed.

(** With a stack of kept segments the test that guards the pop succeeds:
    the rendering never ends in a [".."] segment. *)
Lemma pop_guard (stack : list jsstring) :
  Forall proper stack ->
  let r := joinSlash (rev stack) in
  (len r <? 2) || negb (len (hd [] stack) =? 2)
  || negb (bool_decide (charCodeAt r (len r - 1) = Some CHAR_DOT))
  || negb (bool_decide (charCodeAt r (len r - 2) = Some CHAR_DOT)) = true.
Proof.
  intros Hall r. destruct stack as [|a stack]; [done|].
  simpl hd. destruct (Z.eqb_spec (len a) 2) as [Ha|Ha]; [|by rewrite orb_true_r].
  destruct a as [|c [|d [|? ?]]]; try (unfold len in Ha; simpl in Ha; lia).
  destruct (render_ends_with [c; d] stack) as (x & Hx & _). subst r. rewrite Hx.
  rewrite charCodeAt_before_last.
  replace (x ++ [c; d]) with ((x ++ [c]) ++ [d]) by by rewrite <- app_assoc.
  rewrite charCodeAt_last.
  inversion Hall as [|? ? (_ & _ & _ & Hdd) _]; subst.
  destruct (decide (c = CHAR_DOT)) as [->|Hc];
    [|rewrite (bool_decide_eq_false_2 (Some c = _)) by congruence; by rewrite !orb_true_r].
  destruct (decide (d = CHAR_DOT)) as [->|Hd]; [done|].
  rewrite (bool_decide_eq_false_2 (Some d = _)) by congruence. by rewrite !orb_true_r.
Qed.

Lemma pushSegment_proper stack seg :
  proper seg -> pushSegment stack seg = seg :: stack.
Proof.
  intros (H1 & _ & H3 & H4). unfold pushSegment.
  by rewrite !bool_decide_eq_false_2 by done.
Qed.

Lemma body_segment_end path pre seg rest stack s :
  path = pre ++ seg ++ rest ->
  slashFree seg ->
  atSegmentStart (len pre) stack s ->
  atSegmentStart (len pre + len seg + 1) (pushSegment stack seg)
    (normalizeString_body path false (len pre + len seg) CHAR_FORWARD_SLASH
       (mkNormState (res s) (lastSegmentLength s) (lastSlash s) (dotsAfter 0 seg))).
Proof.
  intros Hpath Hseg (Hres & Hlsl & Hls & Hdots & Hall).
  unfold normalizeString_body. cbn [res lastSegmentLength lastSlash dots].
  change (isPosixPathSeparator CHAR_FORWARD_SLASH) with true. cbv iota.
  pose proof (len_nonneg seg) as Hlen.
  destruct (decide (seg = [])) as [->|Hne].
  { change (len []) with 0. rewrite Hls, Z.add_0_r, Z.eqb_refl. simpl.
    repeat split; simpl; try done; lia. }
  assert (0 < len seg) as Hpos.
  { destruct seg; [done|]. rewrite len_cons. pose proof (len_nonneg seg). lia. }
  rewrite Hls. destruct (Z.eqb_spec (len pre - 1) (len pre + len seg - 1)); [lia|].
  simpl orb.
  destruct (Z.eqb_spec (dotsAfter 0 seg) 1) as [H1|H1].
  { apply dotsAfter_one in H1. subst seg.
    repeat split; simpl; try done. change (len (js ".")) with 1. lia. }
  destruct (Z.eqb_spec (dotsAfter 0 seg) 2) as [H2|H2].
  { apply dotsAfter_two in H2. subst seg.
    change (pushSegment stack (js "..")) with (tail stack).
    change (len (js "..")) with 2.
    rewrite Hres, Hlsl. rewrite pop_guard by done.
    inversion Hall as [|a stack' Ha Hall']; subst.
    - simpl. repeat split; simpl; try done; lia.
    - destruct Ha as (Hane & Hafree & _).
      assert (0 < len a) as Hapos.
      { destruct a; [done|]. rewrite len_cons. pose proof (len_nonneg a). lia. }
      destruct stack' as [|b stack''].
      + change (joinSlash (rev [a])) with a.
        rewrite lastIndexOf_slashFree by done. simpl tail.
        destruct (Z.ltb_spec 2 (len a)).
        * simpl. repeat split; simpl; try done; lia.
        * destruct (Z.eqb_spec (len a) 2); simpl;
            [repeat split; simpl; try done; lia|].
          destruct (Z.eqb_spec (len a) 1); simpl; [|lia].
          repeat split; simpl; try done; lia.
      + rewrite render_cons by done.
        set (X := joinSlash (rev (b :: stack''))).
        assert (0 < len X) as HX by (apply render_length; done).
        rewrite lastIndexOf_app_slash by done.
        rewrite len_app, len_cons.
        destruct (Z.ltb_spec 2 (len X + (1 + len a))); [|lia].
        destruct (Z.eqb_spec (len X) (-1)); [lia|].
        rewrite !slice_len_prefix.
        simpl tail. inversion Hall' as [|? ? (_ & Hbfree & _) _]; subst.
        unfold X at 3. rewrite render_lastIndexOf by done. fold X.
        repeat split; simpl; try done; lia. }
  assert (proper seg) as Hproper.
  { repeat split; try done; intros ->; [apply H1|apply H2]; done. }
  rewrite pushSegment_proper by done.
  replace (len pre - 1 + 1) with (len pre) by lia.
  rewrite Hpath. rewrite slice_len_middle.
  repeat split; cbn [res lastSegmentLength lastSlash dots hd]; try lia; [|by constructor].
  rewrite Hres. destruct stack as [|a stack]; [done|].
  rewrite (render_cons seg) by done.
  destruct (Z.ltb_spec 0 (len (joinSlash (rev (a :: stack))))); [done|].
  pose proof (render_length (a :: stack) Hall). naive_solver lia.
Qed.

Lemma last_slashFree (seg : jsstring) c :
  slashFree seg -> last seg = Some c -> isPosixPathSeparator c = false.
Proof.
  intros Hseg Hlast. apply last_Some in Hlast as [l' ->].
  apply Forall_app in Hseg as [_ Hc]. inversion Hc; subst.
  unfold isPosixPathSeparator. by apply N.eqb_neq.
Qed.

Lemma loop_segments path (segs : list jsstring) :
  forall pre stack s code,
  segs <> [] -> Forall slashFree segs ->
  path = pre ++ joinSlash segs ->
  atSegmentStart (len pre) stack s ->
  code = None \/ code = Some CHAR_FORWARD_SLASH ->
  normalizeString_loop path false (joinSlash segs) (len pre) code s =
  joinSlash (rev (fold_left pushSegment segs stack)).
Proof.
  induction segs as [|seg segs IH]; intros pre stack s code Hne Hfree Hpath Hinv Hcode;
    [done|].
  apply Forall_cons in Hfree as [Hseg Hfree'].
  pose proof Hinv as (_ & _ & _ & Hdots & _).
  destruct segs as [|seg2 segs].
  - (* the last segment *)
    simpl joinSlash in *. simpl fold_left.
    rewrite <- (app_nil_r seg) at 1. rewrite loop_segment by done.
    rewrite Hdots. cbn [normalizeString_loop].
    assert (path = pre ++ seg ++ []) as Hpath' by by rewrite app_nil_r.
    pose proof (body_segment_end path pre seg [] stack s Hpath' Hseg Hinv) as (Hres & _).
    destruct seg as [|c seg'].
    + destruct Hcode as [->| ->]; [exact Hres|].
      change (isPosixPathSeparator CHAR_FORWARD_SLASH) with true. cbv iota.
      simpl. by destruct Hinv as (-> & _).
    + destruct (last (c :: seg')) as [x|] eqn:Hlast; [|exact Hres].
      by rewrite (last_slashFree _ _ Hseg Hlast).
  - rewrite joinSlash_cons in * by done.
    rewrite loop_segment by done. rewrite Hdots. cbn [normalizeString_loop].
    replace (len pre + len seg + 1) with (len (pre ++ seg ++ [CHAR_FORWARD_SLASH])).
    2:{ rewrite !len_app. change (len [CHAR_FORWARD_SLASH]) with 1. lia. }
    simpl fold_left. apply IH; try done.
    + rewrite Hpath. by rewrite <- !app_assoc.
    + rewrite !len_app. change (len [CHAR_FORWARD_SLASH]) with 1. 
      replace (len pre + (len seg + 1)) with (len pre + len seg + 1) by lia.
      by eapply body_segment_end.
    + by right.
Qed.

(** Below the root, [normalizeString] resolves the segments of the path
    on a stack and joins what is left. *)
Theorem normalizeString_below_root (path : jsstring) :
  normalizeString path false = joinSlash (directoriesOf path).
Proof.
  unfold normalizeString, directoriesOf, resolveSegments.
  pose proof (loop_segments path (splitSlash path) [] [] (mkNormState [] 0 (-1) 0) None) as H.
  rewrite joinSlash_splitSlash in H. apply H.
  - apply splitSlash_nonempty.
  - apply splitSlash_slashFree.
  - done.
  - repeat split; simpl; try done.
  - by left.
Qed.

(** *** normalize and join on absolute paths *)


Lemma normalize_absolute (path : jsstring) :
  isAbsolute path = true ->
  normalize path =
  CHAR_FORWARD_SLASH ::
    (let p := joinSlash (directoriesOf path) in
     if (0 <? length p)%nat && trailingSeparator path then p ++ js "/" else p).
Proof.
  intros Habs. unfold normalize. destruct path as [|c path]; [done|].
  rewrite Habs. simpl negb. rewrite andb_false_r.
  by rewrite normalizeString_below_root.
Qed.

Lemma fold_pushSegment_proper (segs stack : list jsstring) :
  Forall slashFree segs -> Forall proper stack ->
  Forall proper (fold_left pushSegment segs stack).
Proof.
  intros Hsegs. revert stack. induction Hsegs as [|seg segs Hseg _ IH]; intros stack Hst;
    [done|].
  simpl. apply IH. unfold pushSegment.
  destruct (bool_decide_reflect (seg = [])); simpl; [done|].
  destruct (bool_decide_reflect (seg = js ".")); simpl; [done|].
  destruct (bool_decide_reflect (seg = js "..")); simpl.
  - destruct Hst; [done|]. done.
  - by constructor.
Qed.

Lemma fold_pushSegment_kept (segs stack : list jsstring) :
  Forall proper segs -> fold_left pushSegment segs stack = rev segs ++ stack.
Proof.
  intros Hsegs. revert stack. induction Hsegs as [|seg segs Hseg _ IH]; intros stack;
    [done|].
  simpl. rewrite pushSegment_proper by done. rewrite IH. by rewrite <- app_assoc.
Qed.

Lemma splitSlash_joinSlash (segs : list jsstring) :
  segs <> [] -> Forall slashFree segs -> splitSlash (joinSlash segs) = segs.
Proof.
  intros Hne Hall. induction Hall as [|seg segs Hseg Hall IH]; [done|].
  destruct segs as [|seg2 segs].
  - by apply splitSlash_seg.
  - rewrite joinSlash_cons by done. rewrite splitSlash_app by done. by rewrite IH.
Qed.

Lemma proper_slashFree (segs : list jsstring) : Forall proper segs -> Forall slashFree segs.
Proof. intros H. eapply Forall_impl; [exact H|]. by intros ? (_ & ? & _). Qed.

Lemma directoriesOf_proper (path : jsstring) : Forall proper (directoriesOf path).
Proof.
  unfold directoriesOf, resolveSegments. apply Forall_rev.
  apply fold_pushSegment_proper; [apply splitSlash_slashFree|done].
Qed.

(** The directories of [base/rel]: those of [base], then [rel] resolved
    from there. *)
Lemma directoriesOf_join (base rel : jsstring) :
  directoriesOf (base ++ CHAR_FORWARD_SLASH :: rel) =
  rev (fold_left pushSegment (splitSlash rel) (rev (directoriesOf base))).
Proof.
  unfold directoriesOf, resolveSegments.
  by rewrite splitSlash_app_any, fold_left_app, rev_involutive.
Qed.

(** A rendered absolute path resolves to the directories it was rendered
    from. *)
Lemma directoriesOf_rendered (dirs : list jsstring) :
  Forall proper dirs ->
  directoriesOf (CHAR_FORWARD_SLASH :: joinSlash dirs) = dirs.
Proof.
  intros Hall. unfold directoriesOf, resolveSegments.
  change (CHAR_FORWARD_SLASH :: joinSlash dirs) with ([] ++ CHAR_FORWARD_SLASH :: joinSlash dirs).
  rewrite splitSlash_app_any, fold_left_app. simpl fold_left at 2.
  destruct dirs as [|d dirs]; [done|].
  rewrite splitSlash_joinSlash by (try apply proper_slashFree; done).
  rewrite fold_pushSegment_kept by done. by rewrite app_nil_r, rev_involutive.
Qed.

Lemma joinSlash_last (dirs : list jsstring) d :
  last dirs = Some d -> exists x, joinSlash dirs = x ++ d.
Proof.
  intros Hlast. apply last_Some in Hlast as [l' ->].
  destruct (render_ends_with d (rev l')) as (x & Hx & _).
  exists x. rewrite <- Hx. simpl. by rewrite rev_involutive.
Qed.

Lemma trailingSeparator_rendered (dirs : list jsstring) :
  Forall proper dirs -> dirs <> [] ->
  trailingSeparator (CHAR_FORWARD_SLASH :: joinSlash dirs) = false.
Proof.
  intros Hall Hne. unfold trailingSeparator.
  destruct (last dirs) as [d|] eqn:Hlast; [|by apply last_None in Hlast].
  destruct (joinSlash_last _ _ Hlast) as [x ->].
  assert (proper d) as (Hd & Hfree & _).
  { apply last_Some in Hlast as [l' ->]. apply Forall_app in Hall as [_ Hall].
    by inversion Hall. }
  destruct (last d) as [c|] eqn:Hc; [|by apply last_None in Hc].
  change (CHAR_FORWARD_SLASH :: x ++ d) with ((CHAR_FORWARD_SLASH :: x) ++ d).
  rewrite last_app, Hc. by eapply last_slashFree.
Qed.

(** Normalizing a rendered absolute path changes nothing. *)
Lemma normalize_rendered (dirs : list jsstring) :
  Forall proper dirs -> dirs <> [] ->
  normalize (CHAR_FORWARD_SLASH :: joinSlash dirs) = CHAR_FORWARD_SLASH :: joinSlash dirs.
Proof.
  intros Hall Hne. rewrite normalize_absolute by done.
  rewrite directoriesOf_rendered by done. simpl.
  by rewrite trailingSeparator_rendered, andb_false_r.
Qed.


Lemma countSlash_app a b : countSlash (a ++ b) = (countSlash a + countSlash b)%nat.
Proof. induction a as [|c a IH]; simpl; [done|]. rewrite IH. lia. Qed.

Lemma countSlash_slashFree a : slashFree a -> countSlash a = 0%nat.
Proof.
  induction 1 as [|c a Hc _ IH]; simpl; [done|]. rewrite IH.
  unfold isPosixPathSeparator. by destruct (N.eqb_spec c CHAR_FORWARD_SLASH).
Qed.

Lemma countSlash_joinSlash (dirs : list jsstring) :
  Forall slashFree dirs -> countSlash (joinSlash dirs) = (length dirs - 1)%nat.
Proof.
  induction 1 as [|d dirs Hd Hall IH]; [done|].
  destruct dirs as [|d2 dirs].
  - simpl. by apply countSlash_slashFree.
  - rewrite joinSlash_cons by done. rewrite countSlash_app.
    change (countSlash (CHAR_FORWARD_SLASH :: ?x)) with (S (countSlash x)).
    rewrite IH, countSlash_slashFree by done. simpl. lia.
Qed.

Lemma countSlash_prefix (s p : jsstring) :
  startsWith s p = true -> (countSlash p <= countSlash s)%nat.
Proof. intros [r ->]%startsWith_prefix. rewrite countSlash_app. lia. Qed.

Lemma joinSlash_nonempty (dirs : list jsstring) :
  Forall proper dirs -> dirs <> [] -> joinSlash dirs <> [].
Proof.
  intros Hall Hne Hnil. rewrite <- (rev_involutive dirs) in Hnil.
  assert (0 < len (joinSlash (rev (rev dirs)))) as H.
  { apply render_length; [by apply Forall_rev|].
    intros H. apply Hne. by rewrite <- (rev_involutive dirs), H. }
  rewrite Hnil in H. unfold len in H. simpl in H. lia.
Qed.


Lemma accepted_below (dirs extra : list jsstring) (trailing : bool) :
  Forall proper dirs -> Forall proper extra -> extra <> [] ->
  let full := CHAR_FORWARD_SLASH :: joinSlash (dirs ++ extra) in
  let nb := printedBase dirs trailing in
  startsWith full nb = true /\ drop (length nb) full <> [].
Proof.
  intros Hdirs Hextra Hne full nb. subst full nb. unfold printedBase.
  pose proof (joinSlash_nonempty extra Hextra Hne) as Hx.
  destruct dirs as [|d dirs].
  - simpl. split; [done|]. by rewrite drop_0.
  - rewrite joinSlash_app by done.
    set (p := joinSlash (d :: dirs)).
    assert (p <> []) as Hp by (by apply joinSlash_nonempty).
    cbv zeta. destruct (Nat.ltb_spec 0 (length p)); [|destruct p; simpl in *; [done|lia]].
    destruct trailing; simpl andb; cbv iota.
    + replace (CHAR_FORWARD_SLASH :: p ++ CHAR_FORWARD_SLASH :: joinSlash extra)
        with ((CHAR_FORWARD_SLASH :: p ++ js "/") ++ joinSlash extra)
        by (simpl; by rewrite <- app_assoc).
      split; [apply startsWith_app|]. by rewrite drop_app_length.
    + replace (CHAR_FORWARD_SLASH :: p ++ CHAR_FORWARD_SLASH :: joinSlash extra)
        with ((CHAR_FORWARD_SLASH :: p) ++ CHAR_FORWARD_SLASH :: joinSlash extra) by done.
      split; [apply startsWith_app|]. by rewrite drop_app_length.
Qed.

Lemma trailingSeparator_join (base rel : jsstring) :
  rel <> [] ->
  trailingSeparator (base ++ CHAR_FORWARD_SLASH :: rel) = trailingSeparator rel.
Proof.
  intros Hrel. unfold trailingSeparator.
  replace (base ++ CHAR_FORWARD_SLASH :: rel) with ((base ++ [CHAR_FORWARD_SLASH]) ++ rel)
    by by rewrite <- app_assoc.
  rewrite last_app. destruct (last rel) eqn:H; [done|]. by apply last_None in H.
Qed.

(** [normalize(join(baseDir, rel))] for an absolute base directory and a
    path without a trailing slash. *)
Lemma fullPath_absolute (base rel : jsstring) :
  isAbsolute base = true -> rel <> [] -> trailingSeparator rel = false ->
  normalize (join base rel) =
  CHAR_FORWARD_SLASH ::
    joinSlash (rev (fold_left pushSegment (splitSlash rel) (rev (directoriesOf base)))).
Proof.
  intros Habs Hrel Htrail. unfold join.
  destruct base as [|c base]; [done|]. destruct rel as [|r rel]; [done|].
  set (b := c :: base) in *. set (p := r :: rel) in *.
  assert (isAbsolute (b ++ CHAR_FORWARD_SLASH :: p) = true) as Habs' by done.
  rewrite (normalize_absolute (b ++ _)) by done.
  rewrite directoriesOf_join, trailingSeparator_join, Htrail by done.
  cbv zeta. rewrite andb_false_r.
  set (stack := fold_left pushSegment (splitSlash p) (rev (directoriesOf b))).
  assert (Forall proper stack) as Hstack.
  { apply fold_pushSegment_proper; [apply splitSlash_slashFree|].
    apply Forall_rev, directoriesOf_proper. }
  destruct (decide (stack = [])) as [->|Hne]; [done|].
  apply normalize_rendered; [by apply Forall_rev|].
  intros H. apply Hne. by rewrite <- (rev_involutive stack), H.
Qed.

Lemma normalize_base (base : jsstring) :
  isAbsolute base = true ->
  normalize base = printedBase (directoriesOf base) (trailingSeparator base).
Proof. apply normalize_absolute. Qed.

(** What is left of [isPathSafe] once the checks on the raw string pass. *)
Lemma isPathSafe_after_checks (filePath baseDir : jsstring) :
  bool_decide (filePath = []) || bool_decide (trim filePath = []) = false ->
  includesChar filePath CHAR_NUL = false ->
  bool_decide (filePath = js ".") || bool_decide (filePath = js "..") = false ->
  isAbsolute (replaceBackslashes filePath)
    || startsWith (replaceBackslashes filePath) (js "/") = false ->
  match replaceBackslashes filePath with
  | c :: d :: _ => isAsciiLetter c && N.eqb d CHAR_COLON
  | _ => false
  end = false ->
  isPathSafe filePath baseDir =
  let fullPath := normalize (join baseDir (replaceBackslashes filePath)) in
  let normalizedBase := normalize baseDir in
  startsWith fullPath normalizedBase
  && negb (bool_decide (drop (length normalizedBase) fullPath = [])
           && negb (bool_decide (replaceBackslashes filePath = []))).
Proof.
  intros H1 H2 H3 H4 H5. unfold isPathSafe. rewrite H1, H2, H3, H4, H5.
  cbv zeta. unfold len. rewrite sliceFrom_drop.
  destruct (startsWith (normalize _) _); simpl; [|done].
  by destruct (bool_decide _ && negb _).
Qed.

Lemma startsWith_slash (s : jsstring) : startsWith s (js "/") = isAbsolute s.
Proof.
  destruct s as [|c s]; [done|].
  change (startsWith (c :: s) (js "/")) with ((CHAR_FORWARD_SLASH =? c)%N && true).
  rewrite andb_true_r. apply N.eqb_sym.
Qed.


Lemma properb_proper (segs : list jsstring) :
  forallb properb segs = true -> Forall proper segs.
Proof.
  intros H. apply Forall_forall. intros seg Hin%list_elem_of_In.
  rewrite forallb_forall in H. specialize (H seg Hin). unfold properb in H.
  apply andb_prop in H as [H H4]. apply andb_prop in H as [H H3].
  apply andb_prop in H as [H1 H2].
  apply negb_true_iff, bool_decide_eq_false in H1, H3, H4.
  repeat split; try done.
  apply Forall_forall. intros c Hc%list_elem_of_In.
  rewrite forallb_forall in H2. specialize (H2 c Hc).
  by apply notSeparator, negb_true_iff.
Qed.

Ltac prove_proper := apply properb_proper; reflexivity.

(** A relative path made of kept segments only is accepted under every
    absolute base directory. *)
Lemma isPathSafe_accepts_clean (rel base : jsstring) (segs : list jsstring) :
  isAbsolute base = true ->
  splitSlash rel = segs -> Forall proper segs ->
  replaceBackslashes rel = rel ->
  bool_decide (trim rel = []) = false ->
  includesChar rel CHAR_NUL = false ->
  match rel with
  | c :: d :: _ => isAsciiLetter c && N.eqb d CHAR_COLON
  | _ => false
  end = false ->
  isPathSafe rel base = true.
Proof.
  intros Habs Hsplit Hsegs Hrb Htrim Hnul Hdrive.
  assert (segs <> []) as Hne by (rewrite <- Hsplit; apply splitSlash_nonempty).
  assert (rel = joinSlash segs) as Hrel by (by rewrite <- Hsplit, joinSlash_splitSlash).
  assert (rel <> []) as Hrel0 by (rewrite Hrel; by apply joinSlash_nonempty).
  assert (trailingSeparator rel = false) as Htrail.
  { pose proof (trailingSeparator_rendered segs Hsegs Hne) as H.
    rewrite <- Hrel in H. unfold trailingSeparator in *.
    change (CHAR_FORWARD_SLASH :: rel) with ([CHAR_FORWARD_SLASH] ++ rel) in H.
    rewrite last_app in H. destruct (last rel) eqn:E; [done|]. by apply last_None in E. }
  assert (isAbsolute rel = false) as Hrelabs.
  { destruct segs as [|seg segs']; [done|].
    inversion Hsegs as [|? ? (Hseg & Hfree & _) _]; subst.
    destruct seg as [|c seg]; [done|]. inversion Hfree; subst.
    assert (exists t, joinSlash ((c :: seg) :: segs') = c :: t) as [t Ht].
    { destruct segs'; simpl; eauto. }
    rewrite Ht. simpl. unfold isPosixPathSeparator. by apply N.eqb_neq. }
  rewrite isPathSafe_after_checks; rewrite ?Hrb; try done.
  - cbv zeta. rewrite fullPath_absolute, normalize_base by done.
    rewrite Hsplit, fold_pushSegment_kept by done.
    rewrite rev_app_distr, !rev_involutive.
    destruct (accepted_below (directoriesOf base) segs (trailingSeparator base))
      as [-> Hdrop]; try done; [apply directoriesOf_proper|].
    by rewrite (bool_decide_eq_false_2 _ Hdrop).
  - rewrite Htrim, orb_false_r. by apply bool_decide_eq_false_2.
  - apply orb_false_intro; apply bool_decide_eq_false_2; intros ->;
      rewrite <- Hsplit in Hsegs; simpl in Hsegs;
      inversion Hsegs as [|? ? (_ & _ & ? & ?) _]; done.
  - by rewrite startsWith_slash, Hrelabs.
Qed.

Lemma printedBase_slashes (dirs : list jsstring) (trailing : bool) :
  Forall proper dirs -> dirs <> [] ->
  (length dirs <= countSlash (printedBase dirs trailing))%nat.
Proof.
  intros Hall Hne. unfold printedBase.
  change (countSlash (CHAR_FORWARD_SLASH :: ?x)) with (S (countSlash x)).
  cbv zeta. destruct (_ && _); rewrite ?countSlash_app, countSlash_joinSlash
    by (by apply proper_slashFree); lia.
Qed.

Lemma startsWith_exhausts (s p : jsstring) :
  startsWith s p = true ->
  bool_decide (drop (length p) s = []) = bool_decide (p = s).
Proof.
  intros [r ->]%startsWith_prefix. rewrite drop_app_length.
  apply bool_decide_ext. split; [intros ->; by rewrite app_nil_r|].
  intros H. apply (app_inv_head p). by rewrite app_nil_r.
Qed.

Lemma Forall_tail_proper (stack : list jsstring) :
  Forall proper stack -> Forall proper (tail stack).
Proof. by destruct 1. Qed.

(** The traversal string of the tests, under an absolute base directory:
    it climbs at most to the root and comes down into [/etc/passwd]. *)
Lemma isPathSafe_traversal (base : jsstring) :
  isAbsolute base = true ->
  isPathSafe (js "../../../etc/passwd") base =
  startsWith (js "/etc/passwd") (normalize base)
  && negb (bool_decide (normalize base = js "/etc/passwd")).
Proof.
  intros Habs. rewrite isPathSafe_after_checks by done.
  change (replaceBackslashes (js "../../../etc/passwd")) with (js "../../../etc/passwd").
  cbv zeta. rewrite fullPath_absolute by done.
  change (splitSlash (js "../../../etc/passwd"))
    with [js ".."; js ".."; js ".."; js "etc"; js "passwd"].
  set (stack := rev (directoriesOf base)).
  change (fold_left pushSegment _ stack)
    with (js "passwd" :: js "etc" :: tail (tail (tail stack))).
  rewrite (bool_decide_eq_false_2 (js "../../../etc/passwd" = [])) by done.
  simpl negb at 2. rewrite andb_true_r.
  assert (Forall proper stack) as Hstack by apply Forall_rev, directoriesOf_proper.
  destruct (decide (tail (tail (tail stack)) = [])) as [->|Hdeep].
  - change (CHAR_FORWARD_SLASH :: joinSlash (rev [js "passwd"; js "etc"]))
      with (js "/etc/passwd").
    destruct (startsWith (js "/etc/passwd") (normalize base)) eqn:Hsw; [|done].
    by rewrite startsWith_exhausts.
  - rewrite normalize_base by done.
    assert (directoriesOf base = rev stack) as -> by (unfold stack; by rewrite rev_involutive).
    assert (4 <= length stack)%nat as Hlen
      by (destruct stack as [|? [|? [|? [|? ?]]]]; simpl in *; try done; lia).
    assert (length (tail (tail (tail stack))) = length stack - 3)%nat as Htail
      by (destruct stack as [|? [|? [|? ?]]]; simpl in *; lia).
    pose proof (printedBase_slashes (rev stack) (trailingSeparator base)) as Hcount.
    rewrite length_rev in Hcount.
    assert (rev stack <> []) as Hne by (intros H%(f_equal length); rewrite length_rev in H; simpl in H; lia).
    specialize (Hcount (Forall_rev Hstack) Hne).
    destruct (startsWith (js "/etc/passwd") _) eqn:H1.
    { apply countSlash_prefix in H1.
      change (countSlash (js "/etc/passwd")) with 2%nat in H1. lia. }
    destruct (startsWith (CHAR_FORWARD_SLASH :: _) _) eqn:H2; [|done].
    apply countSlash_prefix in H2.
    change (countSlash (CHAR_FORWARD_SLASH :: ?x)) with (S (countSlash x)) in H2.
    rewrite countSlash_joinSlash in H2.
    + rewrite length_rev in H2. cbn [length] in H2. lia.
    + apply proper_slashFree, Forall_rev.
      apply (Forall_app_2 _ [js "passwd"; js "etc"]); [prove_proper|].
      by do 3 apply Forall_tail_proper.
Qed.


(** *** sanitizePath *)


Lemma trimStart_noLeadingSpace s : noLeadingSpace (trimStart s).
Proof.
  induction s as [|c s IH]; simpl; [by intros ?|].
  destruct (isWhiteSpace c) eqn:Hc; [done|]. intros d [= <-]. done.
Qed.

Lemma trimStart_fixed s : noLeadingSpace s -> trimStart s = s.
Proof. destruct s as [|c s]; [done|]. intros H. simpl. by rewrite (H c). Qed.

Lemma trimStart_snoc s c :
  isWhiteSpace c = false -> trimStart (s ++ [c]) = trimStart s ++ [c].
Proof.
  intros Hc. induction s as [|d s IH]; simpl; [by rewrite Hc|].
  by destruct (isWhiteSpace d).
Qed.

Lemma head_rev (s : jsstring) : head (rev s) = last s.
Proof.
  induction s as [|c s IH] using rev_ind; [done|].
  by rewrite rev_app_distr, last_snoc.
Qed.

Lemma trimEnd_fixed s : noTrailingSpace s -> trimEnd s = s.
Proof.
  intros H. unfold trimEnd. rewrite trimStart_fixed; [apply rev_involutive|].
  intros c Hc. apply H. by rewrite <- head_rev.
Qed.

Lemma trimEnd_noTrailingSpace s : noTrailingSpace (trimEnd s).
Proof.
  intros c Hc. unfold trimEnd in Hc. rewrite <- head_rev, rev_involutive in Hc.
  by apply (trimStart_noLeadingSpace (rev s)).
Qed.

Lemma trimEnd_noLeadingSpace s : noLeadingSpace s -> noLeadingSpace (trimEnd s).
Proof.
  destruct s as [|c s]; [done|]. intros H d Hd.
  assert (isWhiteSpace c = false) as Hc by by apply H.
  unfold trimEnd in Hd. simpl rev in Hd. rewrite trimStart_snoc in Hd by done.
  rewrite rev_app_distr in Hd. by injection Hd as <-.
Qed.

Lemma trim_clean s : noLeadingSpace (trim s) /\ noTrailingSpace (trim s).
Proof.
  split; [apply trimEnd_noLeadingSpace, trimStart_noLeadingSpace
         |apply trimEnd_noTrailingSpace].
Qed.

Lemma trim_fixed s : noLeadingSpace s -> noTrailingSpace s -> trim s = s.
Proof. intros H1 H2. unfold trim. by rewrite trimStart_fixed, trimEnd_fixed. Qed.

Lemma head_collapseSlashes s : head (collapseSlashes s) = head s.
Proof.
  induction s as [|c s IH]; [done|]. simpl.
  destruct (N.eqb_spec c CHAR_FORWARD_SLASH) as [->|Hc]; [|done].
  destruct s as [|d s]; [done|].
  destruct (N.eqb_spec d CHAR_FORWARD_SLASH) as [->|Hd]; [|done].
  by rewrite IH.
Qed.

Lemma collapseSlashes_nil s : collapseSlashes s = [] -> s = [].
Proof.
  intros H. pose proof (head_collapseSlashes s) as Hh. rewrite H in Hh.
  by destruct s.
Qed.

Lemma last_collapseSlashes s : last (collapseSlashes s) = last s.
Proof.
  induction s as [|c s IH]; [done|]. simpl collapseSlashes.
  assert (last (c :: collapseSlashes s) = last (c :: s)) as Hcons.
  { rewrite !(last_cons c). by rewrite IH. }
  destruct (N.eqb_spec c CHAR_FORWARD_SLASH) as [->|Hc]; [|done].
  destruct s as [|d s]; [done|].
  destruct (N.eqb_spec d CHAR_FORWARD_SLASH) as [->|Hd]; [|done].
  rewrite IH, !last_cons. by destruct (last s).
Qed.

Lemma collapseSlashes_Forall (P : N -> Prop) s :
  Forall P s -> Forall P (collapseSlashes s).
Proof.
  induction 1 as [|c s Hc Hs IH]; [done|]. simpl.
  destruct (N.eqb c CHAR_FORWARD_SLASH); [|by constructor].
  destruct s as [|d s]; [by constructor|].
  destruct (N.eqb d CHAR_FORWARD_SLASH); [done|by constructor].
Qed.

Lemma collapseSlashes_idempotent s :
  collapseSlashes (collapseSlashes s) = collapseSlashes s.
Proof.
  induction s as [|c s IH]; [done|]. simpl collapseSlashes at 2 3.
  destruct (N.eqb_spec c CHAR_FORWARD_SLASH) as [->|Hc].
  - destruct s as [|d s]; [done|].
    destruct (N.eqb_spec d CHAR_FORWARD_SLASH) as [->|Hd]; [done|].
    pose proof (head_collapseSlashes (d :: s)) as Hh.
    destruct (collapseSlashes (d :: s)) as [|e r] eqn:E; [done|].
    injection Hh as ->.
    change (collapseSlashes (CHAR_FORWARD_SLASH :: d :: r))
      with (if N.eqb d CHAR_FORWARD_SLASH then collapseSlashes (d :: r)
            else CHAR_FORWARD_SLASH :: collapseSlashes (d :: r)).
    destruct (N.eqb_spec d CHAR_FORWARD_SLASH); [done|].
    by rewrite IH.
  - simpl. destruct (N.eqb_spec c CHAR_FORWARD_SLASH); [done|]. by rewrite IH.
Qed.

Lemma replaceBackslashes_noBackslash s :
  Forall (fun c => c <> CHAR_BACKSLASH) (replaceBackslashes s).
Proof.
  induction s as [|c s IH]; simpl; [done|]. constructor; [|done].
  by destruct (N.eqb_spec c CHAR_BACKSLASH).
Qed.

Lemma replaceBackslashes_fixed s :
  Forall (fun c => c <> CHAR_BACKSLASH) s -> replaceBackslashes s = s.
Proof.
  unfold replaceBackslashes. induction 1 as [|c s Hc _ IH]; [done|].
  rewrite map_cons, IH. by destruct (N.eqb_spec c CHAR_BACKSLASH).
Qed.

Lemma last_map (f : N -> N) (s : jsstring) : last (map f s) = option_map f (last s).
Proof.
  induction s as [|c s IH]; [done|]. rewrite map_cons, !last_cons, IH.
  by destruct (last s).
Qed.

Lemma replaceBackslashes_clean s :
  noLeadingSpace s -> noTrailingSpace s ->
  noLeadingSpace (replaceBackslashes s) /\ noTrailingSpace (replaceBackslashes s).
Proof.
  assert (forall c, isWhiteSpace c = false ->
            isWhiteSpace (if N.eqb c CHAR_BACKSLASH then CHAR_FORWARD_SLASH else c) = false)
    as Hf by (intros c Hc; by destruct (N.eqb c CHAR_BACKSLASH)).
  intros H1 H2. unfold replaceBackslashes. split; intros c Hc.
  - destruct s as [|d s]; [done|]. injection Hc as <-. by apply Hf, H1.
  - rewrite last_map in Hc. destruct (last s) as [d|] eqn:E; [|done].
    injection Hc as <-. by apply Hf, H2.
Qed.

(** C9.  [sanitizePath] is idempotent on every string: after trimming,
    turning backslashes into slashes and collapsing runs of slashes, a
    second pass finds nothing to change. *)
Theorem sanitizePath_idempotent (p : jsstring) :
  sanitizePath (sanitizePath p) = sanitizePath p.
Proof.
  unfold sanitizePath.
  destruct (trim_clean p) as [H1 H2].
  destruct (replaceBackslashes_clean _ H1 H2) as [H3 H4].
  set (u := collapseSlashes (replaceBackslashes (trim p))).
  rewrite (trim_fixed u).
  - rewrite (replaceBackslashes_fixed u);
      [apply collapseSlashes_idempotent
      |apply collapseSlashes_Forall, replaceBackslashes_noBackslash].
  - intros c Hc. unfold u in Hc. rewrite head_collapseSlashes in Hc. by apply H3.
  - intros c Hc. unfold u in Hc. rewrite last_collapseSlashes in Hc. by apply H4.
Qed.


(** *** Slices with constant bounds *)

Lemma slice_take_drop {A} (s : list A) (a b : Z) :
  0 <= a <= b ->
  slice s a b = take (Z.to_nat (b - a)) (drop (Z.to_nat a) s).
Proof.
  intros Hab. unfold slice, clampIndex.
  destruct (Z.ltb_spec a 0); [lia|]. destruct (Z.ltb_spec b 0); [lia|].
  destruct (Z.le_gt_cases a (Z.of_nat (length s))) as [Ha|Ha].
  - rewrite (Z.min_l a) by lia.
    destruct (Z.le_gt_cases b (Z.of_nat (length s))) as [Hb|Hb].
    + by rewrite Z.min_l by lia.
    + rewrite Z.min_r by lia.
      rewrite (take_ge _ (Z.to_nat (Z.of_nat (length s) - a))).
      2:{ rewrite length_drop. lia. }
      rewrite (take_ge _ (Z.to_nat (b - a))); [done|]. rewrite length_drop. lia.
  - rewrite !Z.min_r by lia. rewrite Z.sub_diag.
    rewrite (drop_ge s (Z.to_nat a)) by lia. by rewrite take_nil.
Qed.


(** *** The key of the legacy cache determines passphrase and salt *)

Lemma byteToHex_roundtrip (b : byte) : hexStringToUint8Array (byteToHex b) = [b].
Proof. destruct b; reflexivity. Qed.

Lemma byteToHex_noColon (b : byte) : Forall (fun c => c <> CHAR_COLON) (byteToHex b).
Proof. destruct b; repeat constructor; done. Qed.

Lemma byteToHex_two (b : byte) : exists h l, byteToHex b = [h; l].
Proof. unfold byteToHex. eauto. Qed.

Section CryptoLemmas.
Context {webcrypto : WebCrypto}.

Lemma hexString_cons2 (h l : N) (r : jsstring) :
  hexStringToUint8Array (h :: l :: r) =
  hexStringToUint8Array [h; l] ++ hexStringToUint8Array r.
Proof. done. Qed.

Lemma hexString_byteToHex_app (b : byte) (r : jsstring) :
  hexStringToUint8Array (byteToHex b ++ r) = b :: hexStringToUint8Array r.
Proof.
  pose proof (byteToHex_roundtrip b) as Hb.
  destruct (byteToHex_two b) as (h & l & E). rewrite E in *.
  cbn [app]. by rewrite hexString_cons2, Hb.
Qed.

Lemma saltToHex_roundtrip (salt : bytes) : hexStringToUint8Array (saltToHex salt) = salt.
Proof.
  unfold saltToHex. induction salt as [|b salt IH]; [done|].
  change (concat (map byteToHex (b :: salt)))
    with (byteToHex b ++ concat (map byteToHex salt)).
  by rewrite hexString_byteToHex_app, IH.
Qed.

Lemma saltToHex_noColon (salt : bytes) : Forall (fun c => c <> CHAR_COLON) (saltToHex salt).
Proof.
  unfold saltToHex. induction salt as [|b salt IH]; [done|].
  change (concat (map byteToHex (b :: salt)))
    with (byteToHex b ++ concat (map byteToHex salt)).
  apply Forall_app. split; [apply byteToHex_noColon|done].
Qed.

Lemma cacheKey_split (p1 p2 h1 h2 : jsstring) :
  Forall (fun c => c <> CHAR_COLON) h1 -> Forall (fun c => c <> CHAR_COLON) h2 ->
  p1 ++ js ":" ++ h1 = p2 ++ js ":" ++ h2 -> p1 = p2 /\ h1 = h2.
Proof.
  intros H1 H2. revert p2. induction p1 as [|c p1 IH]; intros [|d p2] Heq; simpl in Heq.
  - by injection Heq as ->.
  - injection Heq as <- ->. apply Forall_app in H1 as [_ H1].
    inversion H1; subst. done.
  - injection Heq as -> <-. apply Forall_app in H2 as [_ H2].
    inversion H2; subst. done.
  - injection Heq as -> Heq. by destruct (IH _ Heq) as [-> ->].
Qed.

Lemma cacheKey_injective (p1 p2 : jsstring) (s1 s2 : bytes) :
  p1 ++ js ":" ++ saltToHex s1 = p2 ++ js ":" ++ saltToHex s2 -> p1 = p2 /\ s1 = s2.
Proof.
  intros [-> Hs]%cacheKey_split; try apply saltToHex_noColon.
  split; [done|]. by rewrite <- (saltToHex_roundtrip s1), Hs, saltToHex_roundtrip.
Qed.

(** *** The caches only ever repeat what a derivation gives *)

Lemma getHKDFMasterKey_coherent (passphrase : jsstring) (st : CryptoState) :
  coherent st ->
  coherent (getHKDFMasterKey passphrase st).2 /\
  globalPBKDF2Salt (getHKDFMasterKey passphrase st).2 = globalPBKDF2Salt st /\
  (getHKDFMasterKey passphrase st).1 =
    match globalPBKDF2Salt st with
    | Some salt => Ok (masterKey passphrase salt)
    | None => Err SaltNotSet
    end.
Proof.
  intros Hcoh. pose proof Hcoh as [Hm Hl]. unfold getHKDFMasterKey.
  assert (forall salt, globalPBKDF2Salt st = Some salt ->
            coherent (mkCryptoState (Some salt) (Some (masterKey passphrase salt))
                        (Some passphrase) (v2LegacyKeyCache st)
                        ((console st ++ [DerivingMasterKey]) ++ [MasterKeyDerived])))
    as Hnew.
  { intros salt Hsalt. split; simpl; [|done]. intros ? ? [= <-] [= <-]. eauto. }
  destruct (cachedHKDFKey st) as [key|] eqn:Hkey in |- *;
    [destruct (bool_decide_reflect (cachedPassphrase st = Some passphrase)) as [Hp|Hp]|].
  - destruct (Hm key passphrase Hkey Hp) as (salt & Hsalt & ->).
    simpl. by rewrite Hsalt.
  - destruct (globalPBKDF2Salt st) as [salt|] eqn:Hsalt in |- *; simpl;
      [|by rewrite Hsalt].
    rewrite Hsalt. split; [by apply Hnew|done].
  - destruct (globalPBKDF2Salt st) as [salt|] eqn:Hsalt in |- *; simpl;
      [|by rewrite Hsalt].
    rewrite Hsalt. split; [by apply Hnew|done].
Qed.

Lemma deriveV2LegacyKey_coherent (passphrase : jsstring) (salt : bytes) (st : CryptoState) :
  coherent st ->
  coherent (deriveV2LegacyKey passphrase salt st).2 /\
  globalPBKDF2Salt (deriveV2LegacyKey passphrase salt st).2 = globalPBKDF2Salt st /\
  (deriveV2LegacyKey passphrase salt st).1 = Ok (legacyKey passphrase salt).
Proof.
  intros Hcoh. pose proof Hcoh as [Hm Hl]. unfold deriveV2LegacyKey.
  destruct (v2LegacyKeyCache st !! _) as [key|] eqn:Hkey in |- *; simpl.
  - repeat split; try done. by rewrite (Hl _ _ _ Hkey).
  - repeat split; simpl; try done.
    intros p s key. rewrite lookup_insert. case_decide as Heq.
    + apply cacheKey_injective in Heq as [-> ->]. by intros [= <-].
    + apply Hl.
Qed.



Lemma yields_ret {A} (a : A) st : coherent st -> yields (ret a) st (Ok a).
Proof. by split. Qed.

Lemma yields_throw {A} e st : coherent st -> yields (@throw A e) st (Err e).
Proof. by split. Qed.

Lemma yields_bind {A B} (m : M A) (k : A -> M B) st (r : Result A) (v : Result B) :
  yields m st r ->
  (forall a st', r = Ok a -> coherent st' ->
     globalPBKDF2Salt st' = globalPBKDF2Salt st -> yields (k a) st' v) ->
  (forall e, r = Err e -> v = Err e) ->
  yields (bind m k) st v.
Proof.
  intros (Hc & Hs & Hr) Hk He. unfold yields, bind.
  destruct (m st) as [[a|e] st']; simpl in *; subst r.
  - destruct (Hk a st' eq_refl Hc Hs) as (? & ? & ?).
    split; [done|]. split; [congruence|done].
  - rewrite (He e eq_refl). by split.
Qed.

Lemma yields_deriveChunkKeyHKDF passphrase hkdfSalt st :
  coherent st ->
  yields (deriveChunkKeyHKDF passphrase hkdfSalt) st
    match globalPBKDF2Salt st with
    | Some salt => Ok (chunkKey passphrase salt hkdfSalt)
    | None => Err SaltNotSet
    end.
Proof.
  intros Hcoh. unfold deriveChunkKeyHKDF.
  eapply yields_bind; [by apply getHKDFMasterKey_coherent|..].
  - intros key st' Hkey Hc Hs. destruct (globalPBKDF2Salt st); [|done].
    injection Hkey as <-. by apply yields_ret.
  - intros e He. by destruct (globalPBKDF2Salt st).
Qed.

Lemma yields_decryptAesGcm key iv ct st :
  coherent st -> yields (decryptAesGcm key iv ct) st (authenticatedDecrypt key iv ct).
Proof.
  intros Hcoh. unfold decryptAesGcm, authenticatedDecrypt.
  destruct (aes_gcm_decrypt _ _ _); [by apply yields_ret|by apply yields_throw].
Qed.

Lemma yields_decryptHKDF encryptedData passphrase st :
  coherent st ->
  yields (decryptHKDF encryptedData passphrase) st
    (hkdfPlaintext (globalPBKDF2Salt st) passphrase (drop 2 encryptedData)).
Proof.
  intros Hcoh. unfold decryptHKDF, hkdfPlaintext.
  change (len HKDF_PREFIX) with (Z.of_nat 2). rewrite sliceFrom_drop.
  destruct (atob _) as [binaryData|]; [|by apply yields_throw].
  destruct (length binaryData <? 60)%nat; [by apply yields_throw|].
  rewrite !slice_take_drop by lia. change (sliceFrom binaryData 44) with (sliceFrom binaryData (Z.of_nat 44)).
  rewrite sliceFrom_drop. simpl Z.to_nat. rewrite drop_0.
  eapply yields_bind; [by apply yields_deriveChunkKeyHKDF|..].
  - intros key st' Hkey Hc Hs. destruct (globalPBKDF2Salt st); [|done].
    injection Hkey as <-. by apply yields_decryptAesGcm.
  - intros e He. destruct (globalPBKDF2Salt st); [done|]. by injection He as <-.
Qed.

Lemma yields_decryptV2Legacy encryptedData passphrase st :
  coherent st ->
  yields (decryptV2Legacy encryptedData passphrase) st
    (legacyPlaintext passphrase (drop 1 encryptedData)).
Proof.
  intros Hcoh. unfold decryptV2Legacy, legacyPlaintext.
  change (len INLINE_PREFIX) with (Z.of_nat 1). rewrite sliceFrom_drop.
  set (data := drop 1 encryptedData).
  destruct (length data <? 65)%nat; [by apply yields_throw|].
  rewrite !slice_take_drop by lia. change (sliceFrom data 64) with (sliceFrom data (Z.of_nat 64)).
  rewrite sliceFrom_drop. simpl Z.to_nat. rewrite drop_0.
  destruct (atob _) as [ciphertextWithTag|]; [|by apply yields_throw].
  eapply yields_bind; [by apply deriveV2LegacyKey_coherent|..].
  - intros key st' [= <-] Hc Hs. by apply yields_decryptAesGcm.
  - done.
Qed.

(** The test of the source and the classification of the specification
    agree on what follows the short prefix. *)
Lemma isHex32_first32 (body : jsstring) :
  isHex32 (slice body 0 32) = (32 <=? length body)%nat && forallb isHexDigit (take 32 body).
Proof.
  unfold isHex32. rewrite slice_take_drop by lia. simpl Z.to_nat. rewrite drop_0.
  rewrite length_take. f_equal.
  destruct (Nat.leb_spec 32 (length body)); [rewrite Nat.min_l by lia; done|].
  rewrite Nat.min_r by lia. apply Nat.eqb_neq. lia.
Qed.

(** In a coherent state [decryptChunk] computes the plaintext of the
    specification; the state stays coherent under the same salt. *)
Theorem yields_decryptChunk (data passphrase : jsstring) (st : CryptoState) :
  coherent st ->
  yields (decryptChunk data passphrase) st
    (plaintextOf (globalPBKDF2Salt st) passphrase data).
Proof.
  intros Hcoh. unfold decryptChunk, isV2Encrypted, decryptV2, plaintextOf, classify, bodyOf.
  destruct data as [|c data]; [by apply yields_ret|].
  change (startsWith (c :: data) INLINE_PREFIX) with ((CHAR_PERCENT =? c)%N && true).
  change (startsWith (c :: data) HKDF_PREFIX)
    with ((CHAR_PERCENT =? c)%N && startsWith data (js "=")).
  rewrite andb_true_r, (N.eqb_sym c).
  destruct (N.eqb_spec CHAR_PERCENT c) as [<-|Hc]; [|by apply yields_ret].
  rewrite orb_true_r. simpl negb. cbv iota. rewrite !andb_true_l.
  change (len INLINE_PREFIX) with (Z.of_nat 1). rewrite sliceFrom_drop.
  change (drop 1 (CHAR_PERCENT :: data)) with data.
  rewrite isHex32_first32.
  destruct data as [|d data].
  - simpl. apply (yields_decryptHKDF (js "%=")); done.
  - change (startsWith (d :: data) (js "=")) with ((CHAR_EQUALS =? d)%N && true).
    rewrite andb_true_r, (N.eqb_sym d).
    destruct (N.eqb_spec CHAR_EQUALS d) as [<-|Hd]; [by apply yields_decryptHKDF|].
    destruct (_ && _).
    + by apply (yields_decryptV2Legacy (CHAR_PERCENT :: d :: data)).
    + by apply (yields_decryptHKDF (HKDF_PREFIX ++ d :: data)).
Qed.
End CryptoLemmas.

(** *** Reassembly *)

Section ExtractorLemmas.
Context {webcrypto : WebCrypto} {filesystem : FileSystem}.
Variable client : CouchDBClient.
Variable passphrase : jsstring.

Lemma yields_reassembleChunks cache entry (chunkIds plain : list jsstring) st :
  coherent st ->
  yields (reassembleChunks client passphrase cache entry chunkIds plain) st
    (reassemblePlain client passphrase (globalPBKDF2Salt st) cache entry chunkIds plain).
Proof.
  revert plain st. induction chunkIds as [|chunkId rest IH]; intros plain st Hcoh.
  - by apply yields_ret.
  - simpl. destruct (getChunkData client cache chunkId entry) as [[|c d]|];
      try by apply yields_throw.
    eapply yields_bind; [by apply yields_decryptChunk|..].
    + intros p st' Hp Hc Hs. rewrite Hp, <- Hs. by apply IH.
    + intros e ->. done.
Qed.

Lemma yields_reassembleFile cache entry st :
  coherent st ->
  yields (reassembleFile client passphrase cache entry) st
    (reassemblePlain client passphrase (globalPBKDF2Salt st) cache entry (children entry) []).
Proof. apply yields_reassembleChunks. Qed.

Lemma reassemblePlain_all salt cache entry (chunkIds plains plain : list jsstring) :
  Forall2 (decryptsTo client passphrase salt cache entry) chunkIds plains ->
  reassemblePlain client passphrase salt cache entry chunkIds plain =
  Ok (concat (plain ++ plains)).
Proof.
  intros H. revert plain. induction H as [|chunkId p chunkIds plains Hp _ IH]; intros plain.
  - by rewrite app_nil_r.
  - destruct Hp as (d & Hd & Hne & Hplain). simpl. rewrite Hd.
    destruct d as [|c d]; [done|]. rewrite Hplain, IH. by rewrite <- app_assoc.
Qed.

Lemma reassemblePlain_missing salt cache entry (before after : list jsstring)
    (chunkId : jsstring) (plains plain : list jsstring) :
  Forall2 (decryptsTo client passphrase salt cache entry) before plains ->
  falsy (getChunkData client cache chunkId entry) = true ->
  reassemblePlain client passphrase salt cache entry (before ++ chunkId :: after) plain =
  Err (MissingChunk chunkId).
Proof.
  intros H Hmiss. revert plain. induction H as [|b p before plains Hp _ IH]; intros plain.
  - simpl. by destruct (getChunkData client cache chunkId entry) as [[|? ?]|].
  - destruct Hp as (d & Hd & Hne & Hplain). simpl. rewrite Hd.
    destruct d as [|c d]; [done|]. by rewrite Hplain, IH.
Qed.

Lemma reassemblePlain_never_skips salt cache entry (chunkIds plain : list jsstring)
    (chunkId : jsstring) :
  chunkId ∈ chunkIds ->
  falsy (getChunkData client cache chunkId entry) = true ->
  exists e, reassemblePlain client passphrase salt cache entry chunkIds plain = Err e.
Proof.
  intros Hin Hmiss. revert plain. induction chunkIds as [|x rest IH]; intros plain.
  - by apply elem_of_nil in Hin.
  - simpl. destruct (decide (x = chunkId)) as [->|Hne].
    + destruct (getChunkData client cache chunkId entry) as [[|? ?]|]; try done; eauto.
    + apply elem_of_cons in Hin as [->|Hin]; [done|].
      destruct (getChunkData client cache x entry) as [[|c d]|]; eauto.
      destruct (plaintextOf salt passphrase (c :: d)); eauto.
Qed.

(** *** The loop of extractAll *)

Lemma extractEntries_app outputDir cache (pre post : list FileEntry) s :
  extractEntries client passphrase outputDir cache (pre ++ post) s =
  extractEntries client passphrase outputDir cache post
    (extractEntries client passphrase outputDir cache pre s).
Proof. apply fold_left_app. Qed.

Lemma extractEntry_coherent outputDir cache s entry :
  coherent (cryptoState s) ->
  coherent (cryptoState (extractEntry client passphrase outputDir cache s entry)) /\
  globalPBKDF2Salt (cryptoState (extractEntry client passphrase outputDir cache s entry)) =
  globalPBKDF2Salt (cryptoState s).
Proof.
  intros Hcoh. unfold extractEntry.
  destruct (startsWith _ _); [done|].
  destruct (yields_reassembleFile cache entry _ Hcoh) as (Hc & Hs & _).
  destruct (reassembleFile _ _ _ _ _) as [[content|e] cs]; simpl in *; [|done].
  by destruct (writeFileSafely _ _ _ _) as [[?|?] ?].
Qed.

Lemma extractEntries_coherent outputDir cache entries s :
  coherent (cryptoState s) ->
  coherent (cryptoState (extractEntries client passphrase outputDir cache entries s)) /\
  globalPBKDF2Salt (cryptoState (extractEntries client passphrase outputDir cache entries s)) =
  globalPBKDF2Salt (cryptoState s).
Proof.
  revert s. induction entries as [|e entries IH]; intros s Hcoh; [done|].
  destruct (extractEntry_coherent outputDir cache s e Hcoh) as [Hc Hs].
  destruct (IH _ Hc) as [Hc' Hs']. unfold extractEntries in *. simpl.
  split; [done|congruence].
Qed.

Lemma extractEntry_tally outputDir cache s entry :
  let s' := extractEntry client passphrase outputDir cache s entry in
  tally (result s') = S (tally (result s)) /\
  totalFiles (result s') = totalFiles (result s).
Proof.
  unfold extractEntry, tally. destruct (startsWith _ _); simpl.
  { rewrite length_app. simpl. lia. }
  destruct (reassembleFile _ _ _ _ _) as [[content|e] cs]; simpl.
  - destruct (writeFileSafely _ _ _ _) as [[?|?] ?]; simpl; rewrite ?length_app; simpl; lia.
  - rewrite length_app. simpl. lia.
Qed.

Lemma extractEntries_tally outputDir cache entries s :
  let s' := extractEntries client passphrase outputDir cache entries s in
  tally (result s') = (tally (result s) + length entries)%nat /\
  totalFiles (result s') = totalFiles (result s).
Proof.
  revert s. induction entries as [|e entries IH]; intros s; simpl; [split; [lia|done]|].
  destruct (extractEntry_tally outputDir cache s e) as [H1 H2].
  destruct (IH (extractEntry client passphrase outputDir cache s e)) as [H3 H4].
  unfold extractEntries in *. simpl in *. split; [lia|congruence].
Qed.

End ExtractorLemmas.

(* ================================================================== *)
(** * The claims *)

(** C1 (the code does not keep this promise).  [isPathSafe] compares the
    normalized paths as strings, not directory by directory: it accepts a
    path that climbs out of [/backup] into the sibling [/backup2], and a
    path that resolves to the base directory itself written with a trailing
    slash.  [writeFileSafely] then writes outside the base directory. *)
Theorem isPathSafe_accepts_escape :
  isPathSafe (js "../backup2/x") (js "/backup") = true /\
  normalize (Path.join (js "/backup") (replaceBackslashes (js "../backup2/x"))) = js "/backup2/x" /\
  strictlyInside (js "/backup2/x") (js "/backup") = false /\
  writeFileSafely (filesystem := Sample.logFS) (js "/backup") (js "../backup2/x") (js "data") []
    = (Ok tt, [(js "/backup2/x", js "data")]) /\
  isPathSafe (js "x/../") (js "/backup") = true /\
  normalize (Path.join (js "/backup") (replaceBackslashes (js "x/../"))) = js "/backup/" /\
  strictlyInside (js "/backup/") (js "/backup") = false.
Proof. vm_compute. repeat split. Qed.

(** C2, counterexample: under the base directory [/etc] the traversal
    string of the claim resolves to [/etc/passwd], inside the base, and is
    accepted. *)
Lemma isPathSafe_traversal_under_etc :
  isPathSafe (js "../../../etc/passwd") (js "/etc") = true.
Proof. vm_compute. reflexivity. Qed.

(** Under the root and under [/etc] the traversal string resolves to
    [/etc/passwd], which lies inside the base directory. *)
Lemma traversal_below (base : jsstring) :
  isAbsolute base = true ->
  directoriesOf base = [] \/ directoriesOf base = [js "etc"] ->
  isPathSafe (js "../../../etc/passwd") base = true /\
  normalize (Path.join base (js "../../../etc/passwd")) = js "/etc/passwd" /\
  strictlyInside (js "/etc/passwd") base = true.
Proof.
  intros Habs Hdirs.
  assert (normalize (Path.join base (js "../../../etc/passwd")) = js "/etc/passwd") as Hfull.
  { rewrite fullPath_absolute by done. by destruct Hdirs as [-> | ->]. }
  assert (strictlyInside (js "/etc/passwd") base = true) as Hin.
  { unfold strictlyInside.
    change (directoriesOf (js "/etc/passwd")) with [js "etc"; js "passwd"].
    by destruct Hdirs as [-> | ->]. }
  split; [|done].
  rewrite isPathSafe_traversal, normalize_base by done.
  by destruct Hdirs as [-> | ->]; destruct (trailingSeparator base).
Qed.

(** C2, as amended.  [isPathSafe] is false for the empty string, [.], [..],
    [/etc/passwd], [C:\Windows\System32] and every string with a null byte,
    whatever the base directory.  It is false for [../../../etc/passwd]
    under every absolute base directory whose normalized form is not a
    string prefix of [/etc/passwd], so under [/backup]; under an absolute
    base directory that is the root or [/etc], the string resolves to
    [/etc/passwd], inside the base directory, and is accepted.  Under every
    absolute base directory [isPathSafe] is true for [notes/my-note.md] and
    [a/b/c/d/deep.md]. *)
Theorem isPathSafe_examples :
  (forall baseDir,
     isPathSafe (js "") baseDir = false /\
     isPathSafe (js ".") baseDir = false /\
     isPathSafe (js "..") baseDir = false /\
     isPathSafe (js "/etc/passwd") baseDir = false /\
     isPathSafe (js "C:\Windows\System32") baseDir = false /\
     isPathSafe (js "C:\\Windows\\System32") baseDir = false) /\
  (forall p baseDir, CHAR_NUL ∈ p -> isPathSafe p baseDir = false) /\
  (forall baseDir, isAbsolute baseDir = true ->
     startsWith (js "/etc/passwd") (normalize baseDir) = false ->
     isPathSafe (js "../../../etc/passwd") baseDir = false) /\
  (forall baseDir, isAbsolute baseDir = true ->
     directoriesOf baseDir = [] \/ directoriesOf baseDir = [js "etc"] ->
     isPathSafe (js "../../../etc/passwd") baseDir = true /\
     normalize (Path.join baseDir (js "../../../etc/passwd")) = js "/etc/passwd" /\
     strictlyInside (js "/etc/passwd") baseDir = true) /\
  isPathSafe (js "../../../etc/passwd") (js "/backup") = false /\
  (forall baseDir, isAbsolute baseDir = true ->
     isPathSafe (js "notes/my-note.md") baseDir = true /\
     isPathSafe (js "a/b/c/d/deep.md") baseDir = true).
Proof.
  split; [|split; [|split; [|split; [|split]]]].
  - intros baseDir. repeat split; reflexivity.
  - intros p baseDir Hnul. unfold isPathSafe.
    destruct (_ || _); [done|].
    assert (includesChar p CHAR_NUL = true) as ->; [|done].
    apply existsb_exists. exists CHAR_NUL. split; [by apply list_elem_of_In|done].
  - intros baseDir Habs Hprefix. by rewrite isPathSafe_traversal, Hprefix.
  - apply traversal_below.
  - reflexivity.
  - intros baseDir Habs. split.
    + apply (isPathSafe_accepts_clean _ _ [js "notes"; js "my-note.md"]); try done.
      prove_proper.
    + apply (isPathSafe_accepts_clean _ _ [js "a"; js "b"; js "c"; js "d"; js "deep.md"]);
        try done.
      prove_proper.
Qed.

(** C2, witness: the base directory of the tests, and [/etc/]. *)
Lemma isPathSafe_examples_backup :
  isPathSafe (js "notes/my-note.md") (js "/backup") = true /\
  isPathSafe (js "a/b/c/d/deep.md") (js "/backup") = true /\
  isPathSafe (js "../../../etc/passwd") (js "/backup") = false /\
  isPathSafe (js "../../../etc/passwd") (js "/etc/") = true /\
  isPathSafe (js "file" ++ [CHAR_NUL] ++ js ".md") (js "/backup") = false.
Proof.
  destruct isPathSafe_examples as (_ & Hnul & Hout & Hin & _ & Hgood).
  destruct (Hgood (js "/backup") eq_refl) as [H1 H2].
  split; [exact H1|]. split; [exact H2|].
  split; [exact (Hout (js "/backup") eq_refl eq_refl)|].
  split; [exact (proj1 (Hin (js "/etc/") eq_refl (or_intror eq_refl)))|].
  apply Hnul. apply elem_of_app. right. by left.
Defined.

Section CryptoClaims.
Context {webcrypto : WebCrypto}.

(** [decryptV2] dispatches exactly as the format detector of the
    specification classifies. *)
Lemma decryptV2_classify (payload passphrase : jsstring) :
  decryptV2 payload passphrase =
  match classify payload with
  | HkdfExpand => decryptHKDF (HKDF_PREFIX ++ bodyOf payload) passphrase
  | LegacyPbkdf2 => decryptV2Legacy payload passphrase
  | Plaintext => throw NotEncryptedData
  end.
Proof.
  unfold decryptV2, classify, bodyOf.
  destruct payload as [|c data]; [done|].
  change (startsWith (c :: data) INLINE_PREFIX) with ((CHAR_PERCENT =? c)%N && true).
  change (startsWith (c :: data) HKDF_PREFIX)
    with ((CHAR_PERCENT =? c)%N && startsWith data (js "=")).
  rewrite andb_true_r, (N.eqb_sym c).
  destruct (N.eqb_spec CHAR_PERCENT c) as [<-|Hc]; [|done].
  rewrite !andb_true_l.
  change (len INLINE_PREFIX) with (Z.of_nat 1). rewrite sliceFrom_drop.
  change (drop 1 (CHAR_PERCENT :: data)) with data.
  rewrite isHex32_first32.
  destruct data as [|d data]; [done|].
  change (startsWith (d :: data) (js "=")) with ((CHAR_EQUALS =? d)%N && true).
  rewrite andb_true_r, (N.eqb_sym d).
  destruct (N.eqb_spec CHAR_EQUALS d) as [<-|Hd]; [done|].
  by destruct (_ && _).
Qed.

Lemma classify_short_prefix (payload : jsstring) :
  startsWith payload INLINE_PREFIX = true ->
  startsWith payload HKDF_PREFIX = false ->
  payload = CHAR_PERCENT :: drop 1 payload /\
  bodyOf payload = drop 1 payload /\
  classify payload =
    if (32 <=? length (drop 1 payload))%nat && forallb isHexDigit (take 32 (drop 1 payload))
    then LegacyPbkdf2 else HkdfExpand.
Proof.
  destruct payload as [|c data]; [done|].
  change (startsWith (c :: data) INLINE_PREFIX) with ((CHAR_PERCENT =? c)%N && true).
  change (startsWith (c :: data) HKDF_PREFIX)
    with ((CHAR_PERCENT =? c)%N && startsWith data (js "=")).
  rewrite andb_true_r. intros <-%N.eqb_eq. rewrite andb_true_l. intros Heq.
  unfold classify, bodyOf. rewrite N.eqb_refl. simpl drop.
  destruct data as [|d data]; [done|].
  change (startsWith (d :: data) (js "=")) with ((CHAR_EQUALS =? d)%N && true) in Heq.
  rewrite andb_true_r, N.eqb_sym in Heq. by rewrite Heq.
Qed.

(** C3.  A payload that starts with [%] but not with [%=] is decoded by
    the legacy decoder exactly when the 32 characters after the prefix exist
    and are all hexadecimal digits, and otherwise by the HKDF decoder on the
    same body behind [%=].  In a coherent state the legacy decoder computes
    [legacyPlaintext] (hex IV, hex salt, PBKDF2 with 100,000 iterations from
    the SHA-256 of the passphrase) and the HKDF decoder [hkdfPlaintext]
    (base64 body, 12-byte IV, 32-byte chunk salt, master key and HKDF
    expand). *)
Theorem decryptV2_short_prefix (payload passphrase : jsstring) (st : CryptoState) :
  startsWith payload INLINE_PREFIX = true ->
  startsWith payload HKDF_PREFIX = false ->
  let body := drop 1 payload in
  let allHex := (32 <=? length body)%nat && forallb isHexDigit (take 32 body) in
  decryptV2 payload passphrase st =
    (if allHex then decryptV2Legacy payload passphrase st
     else decryptHKDF (HKDF_PREFIX ++ body) passphrase st) /\
  (coherent st ->
   (decryptV2 payload passphrase st).1 =
     if allHex then legacyPlaintext passphrase body
     else hkdfPlaintext (globalPBKDF2Salt st) passphrase body).
Proof.
  intros Hshort Hlong body allHex.
  destruct (classify_short_prefix payload Hshort Hlong) as (Hpayload & Hbody & Hclass).
  fold body allHex in Hpayload, Hbody, Hclass.
  assert (decryptV2 payload passphrase st =
          if allHex then decryptV2Legacy payload passphrase st
          else decryptHKDF (HKDF_PREFIX ++ body) passphrase st) as Hdispatch.
  { rewrite decryptV2_classify, Hclass, Hbody. by destruct allHex. }
  split; [done|]. intros Hcoh. rewrite Hdispatch. destruct allHex.
  - by destruct (yields_decryptV2Legacy payload passphrase st Hcoh) as (_ & _ & ->).
  - by destruct (yields_decryptHKDF (HKDF_PREFIX ++ body) passphrase st Hcoh) as (_ & _ & ->).
Qed.


(** C6.  A string without either prefix is plaintext for the format
    detector, and [decryptChunk] returns it as it is, for every passphrase,
    leaving the key caches and the console untouched. *)
Theorem decryptChunk_passes_plaintext (data passphrase : jsstring) (st : CryptoState) :
  startsWith data HKDF_PREFIX = false ->
  startsWith data INLINE_PREFIX = false ->
  classify data = Plaintext /\
  decryptChunk data passphrase st = (Ok data, st).
Proof.
  intros Hlong Hshort. unfold decryptChunk, isV2Encrypted. rewrite Hlong, Hshort.
  split; [|done]. destruct data as [|c data]; [done|].
  change (startsWith (c :: data) INLINE_PREFIX) with ((CHAR_PERCENT =? c)%N && true) in Hshort.
  rewrite andb_true_r, N.eqb_sym in Hshort. unfold classify. by rewrite Hshort.
Qed.

(** C7.  An HKDF-expand payload whose body decodes to fewer than 60 bytes,
    and a legacy payload with fewer than 65 characters after the prefix, are
    rejected with the "too short" error of their format; nothing is derived,
    decrypted or logged on the way. *)
Theorem short_payloads_are_malformed (payload passphrase : jsstring) (st : CryptoState) :
  (forall decoded,
     classify payload = HkdfExpand ->
     atob (repad (bodyOf payload)) = Some decoded ->
     (length decoded < 60)%nat ->
     decryptV2 payload passphrase st = (Err (EncryptedDataTooShort (length decoded)), st) /\
     decryptChunk payload passphrase st = (Err (EncryptedDataTooShort (length decoded)), st)) /\
  (classify payload = LegacyPbkdf2 ->
   (length (bodyOf payload) < 65)%nat ->
   decryptV2 payload passphrase st
     = (Err (V2LegacyDataTooShort (length (bodyOf payload))), st) /\
   decryptChunk payload passphrase st
     = (Err (V2LegacyDataTooShort (length (bodyOf payload))), st)).
Proof.
  assert (classify payload <> Plaintext -> decryptChunk payload passphrase = decryptV2 payload passphrase)
    as Hchunk.
  { intros Hclass. unfold decryptChunk, isV2Encrypted.
    destruct payload as [|c data]; [done|].
    change (startsWith (c :: data) INLINE_PREFIX) with ((CHAR_PERCENT =? c)%N && true).
    rewrite andb_true_r. unfold classify in Hclass. rewrite N.eqb_sym in Hclass.
    destruct (CHAR_PERCENT =? c)%N; [|done]. by rewrite orb_true_r. }
  split.
  - intros decoded Hclass Hatob Hlen. rewrite Hchunk by congruence.
    rewrite decryptV2_classify, Hclass. unfold decryptHKDF.
    change (len HKDF_PREFIX) with (Z.of_nat 2). rewrite sliceFrom_drop.
    change (drop 2 (HKDF_PREFIX ++ bodyOf payload)) with (bodyOf payload).
    rewrite Hatob. by destruct (Nat.ltb_spec (length decoded) 60); [|lia].
  - intros Hclass Hlen. rewrite Hchunk by congruence.
    rewrite decryptV2_classify, Hclass. unfold decryptV2Legacy.
    change (len INLINE_PREFIX) with (Z.of_nat 1). rewrite sliceFrom_drop.
    assert (drop 1 payload = bodyOf payload) as ->.
    { unfold classify, bodyOf in *. destruct payload as [|c [|d data]]; try done.
      - by destruct (N.eqb c CHAR_PERCENT).
      - destruct (N.eqb c CHAR_PERCENT); [|done]. by destruct (N.eqb d CHAR_EQUALS). }
    by destruct (Nat.ltb_spec (length (bodyOf payload)) 65); [|lia].
Qed.

End CryptoClaims.

Section ExtractorClaims.
Context {webcrypto : WebCrypto} {filesystem : FileSystem}.
Variable client : CouchDBClient.
Variable passphrase : jsstring.

Lemma coherent_no_cache (st : CryptoState) :
  cachedHKDFKey st = None -> v2LegacyKeyCache st = ∅ -> coherent st.
Proof. intros H1 H2. split; [by rewrite H1|]. rewrite H2. by intros ? ? ?. Qed.

Lemma resolvesTo_decryptsTo cache entry st chunkId p :
  coherent st ->
  resolvesTo client passphrase cache entry st chunkId p ->
  decryptsTo client passphrase (globalPBKDF2Salt st) cache entry chunkId p.
Proof.
  intros Hcoh (d & Hd & Hne & Hp). exists d. split; [done|]. split; [done|].
  by destruct (yields_decryptChunk d passphrase st Hcoh) as (_ & _ & <-).
Qed.

(** C4.  In a coherent state: if every chunk reference of the entry
    resolves to non-empty data that decrypts, [reassembleFile] returns the
    plaintexts concatenated in the order of [children]; if the references
    before some reference resolve and decrypt and that one resolves to no
    data, it throws the error that names that reference; and whenever some
    reference resolves to no data it throws, so no shorter text is ever
    returned. *)
Theorem reassembleFile_in_order cache (entry : FileEntry) (st : CryptoState) :
  coherent st ->
  (forall plains,
     Forall2 (resolvesTo client passphrase cache entry st) (children entry) plains ->
     (reassembleFile client passphrase cache entry st).1 = Ok (concat plains)) /\
  (forall before chunkId after plains,
     children entry = before ++ chunkId :: after ->
     Forall2 (resolvesTo client passphrase cache entry st) before plains ->
     falsy (getChunkData client cache chunkId entry) = true ->
     (reassembleFile client passphrase cache entry st).1 = Err (MissingChunk chunkId)) /\
  (forall chunkId,
     chunkId ∈ children entry ->
     falsy (getChunkData client cache chunkId entry) = true ->
     exists e, (reassembleFile client passphrase cache entry st).1 = Err e).
Proof.
  intros Hcoh.
  destruct (yields_reassembleFile client passphrase cache entry st Hcoh) as (_ & _ & ->).
  assert (forall ids plains,
            Forall2 (resolvesTo client passphrase cache entry st) ids plains ->
            Forall2 (decryptsTo client passphrase (globalPBKDF2Salt st) cache entry) ids plains)
    as Hto.
  { intros ids plains H. eapply Forall2_impl; [exact H|].
    intros ? ?. by apply resolvesTo_decryptsTo. }
  split; [|split].
  - intros plains H.
    by rewrite (reassemblePlain_all client passphrase _ _ _ _ plains []) by (by apply Hto).
  - intros before chunkId after plains -> H Hmiss.
    apply (reassemblePlain_missing client passphrase _ _ _ _ _ _ plains);
      [by apply Hto|done].
  - intros chunkId Hin Hmiss. by eapply reassemblePlain_never_skips.
Qed.

(** What the body of the loop does with one document, by the outcome of
    its reassembly and of its write. *)
Lemma extractEntry_cases outputDir cache (s : LoopState) (e : FileEntry) :
  let after := extractEntry client passphrase outputDir cache s e in
  (startsWith (_id e) (js ".obsidian/") = true ->
   after = mkLoop (cryptoState s) (fileSystem s) (pushSkipped (_id e) (result s))) /\
  (startsWith (_id e) (js ".obsidian/") = false ->
   forall content,
     (reassembleFile client passphrase cache e (cryptoState s)).1 = Ok content ->
     let written := writeFileSafely outputDir (_id e) content (fileSystem s) in
     fileSystem after = written.2 /\
     result after = match written.1 with
                    | Ok _ => countExtracted (result s)
                    | Err _ => pushFailed (_id e) (result s)
                    end).
Proof.
  intros after. subst after. unfold extractEntry. split.
  - by intros ->.
  - intros -> content Hok.
    destruct (reassembleFile client passphrase cache e (cryptoState s)) as [[c|err] cs];
      [|done].
    simpl in Hok. injection Hok as ->.
    by destruct (writeFileSafely outputDir (_id e) content (fileSystem s)) as [[?|?] fs].
Qed.

(** The loop only ever adds to its tallies. *)
Lemma extractEntries_keeps outputDir cache (entries : list FileEntry) (s : LoopState) :
  let final := extractEntries client passphrase outputDir cache entries s in
  failedFiles (result s) `prefix_of` failedFiles (result final) /\
  skippedFiles (result s) `prefix_of` skippedFiles (result final) /\
  (extractedFiles (result s) <= extractedFiles (result final))%nat.
Proof.
  revert s. induction entries as [|e entries IH]; intros s; [done|].
  cbv zeta in IH |- *.
  change (extractEntries client passphrase outputDir cache (e :: entries) s)
    with (extractEntries client passphrase outputDir cache entries
            (extractEntry client passphrase outputDir cache s e)).
  destruct (IH (extractEntry client passphrase outputDir cache s e)) as (Hf & Hs & He).
  assert (failedFiles (result s)
            `prefix_of` failedFiles (result (extractEntry client passphrase outputDir cache s e))
          /\ skippedFiles (result s)
            `prefix_of` skippedFiles (result (extractEntry client passphrase outputDir cache s e))
          /\ (extractedFiles (result s)
              <= extractedFiles (result (extractEntry client passphrase outputDir cache s e)))%nat)
    as (Hf' & Hs' & He').
  { unfold extractEntry. destruct (startsWith _ _); simpl.
    - split; [done|]. split; [by apply prefix_app_r|done].
    - destruct (reassembleFile _ _ _ _ _) as [[content|err] cs]; simpl.
      + destruct (writeFileSafely _ _ _ _) as [[?|?] fs]; simpl.
        * split; [done|]. split; [done|lia].
        * split; [by apply prefix_app_r|done].
      + split; [by apply prefix_app_r|done]. }
  split; [by etrans|]. split; [by etrans|lia].
Qed.

(** Wherever a document [e] stands in the list: the loop goes on with the
    documents after it; every document ends in exactly one tally; [e] is
    reassembled as it would be at the start of the run; and if a chunk of
    [e] cannot be resolved or decrypted, [e] adds its identifier to
    [failedFiles] and changes neither the other tallies nor the file
    system. *)
Lemma extractEntries_isolates_failures outputDir cache (pre post : list FileEntry)
    (e : FileEntry) (s : LoopState) :
  coherent (cryptoState s) ->
  let run := extractEntries client passphrase outputDir cache in
  let before := run pre s in
  let after := extractEntry client passphrase outputDir cache before e in
  run (pre ++ e :: post) s = run post after /\
  totalFiles (result (run (pre ++ e :: post) s)) = totalFiles (result s) /\
  tally (result (run (pre ++ e :: post) s))
    = (tally (result s) + length (pre ++ e :: post))%nat /\
  (reassembleFile client passphrase cache e (cryptoState before)).1
    = (reassembleFile client passphrase cache e (cryptoState s)).1 /\
  (startsWith (_id e) (js ".obsidian/") = false ->
   forall err,
     (reassembleFile client passphrase cache e (cryptoState s)).1 = Err err ->
     result after = pushFailed (_id e) (result before) /\
     fileSystem after = fileSystem before).
Proof.
  intros Hcoh run before after.
  destruct (extractEntries_coherent client passphrase outputDir cache pre s Hcoh)
    as [Hcoh' Hsalt].
  fold run before in Hcoh', Hsalt.
  assert ((reassembleFile client passphrase cache e (cryptoState before)).1
          = (reassembleFile client passphrase cache e (cryptoState s)).1) as Hsame.
  { destruct (yields_reassembleFile client passphrase cache e _ Hcoh) as (_ & _ & ->).
    destruct (yields_reassembleFile client passphrase cache e _ Hcoh') as (_ & _ & ->).
    by rewrite Hsalt. }
  split; [|split; [|split; [|split]]].
  - unfold run. by rewrite extractEntries_app.
  - apply extractEntries_tally.
  - apply extractEntries_tally.
  - exact Hsame.
  - intros Hid err Herr. rewrite <- Hsame in Herr. subst after.
    unfold extractEntry. rewrite Hid.
    by destruct (reassembleFile _ _ _ _ _) as [[?|?] ?]; simpl in *.
Qed.

(** An entry whose identifier starts with [.obsidian/] only adds that
    identifier to [skippedFiles].  So the loop ends with the file system,
    the crypto state, the extracted count and the failed list of the same
    loop without these entries, and [skippedFiles] lists them in order. *)
Lemma extractEntries_without_config outputDir cache (entries : list FileEntry)
    (s : LoopState) :
  let isConfig := fun e : FileEntry => startsWith (_id e) (js ".obsidian/") in
  let run := extractEntries client passphrase outputDir cache in
  let others := List.filter (fun e => negb (isConfig e)) entries in
  (forall e s0, isConfig e = true ->
     extractEntry client passphrase outputDir cache s0 e
       = mkLoop (cryptoState s0) (fileSystem s0) (pushSkipped (_id e) (result s0))) /\
  fileSystem (run entries s) = fileSystem (run others s) /\
  cryptoState (run entries s) = cryptoState (run others s) /\
  extractedFiles (result (run entries s)) = extractedFiles (result (run others s)) /\
  failedFiles (result (run entries s)) = failedFiles (result (run others s)) /\
  skippedFiles (result (run others s)) = skippedFiles (result s) /\
  skippedFiles (result (run entries s))
    = skippedFiles (result s) ++ map _id (List.filter isConfig entries).
Proof.
  intros isConfig run others.
  assert (forall e s0, isConfig e = true ->
            extractEntry client passphrase outputDir cache s0 e
              = mkLoop (cryptoState s0) (fileSystem s0) (pushSkipped (_id e) (result s0)))
    as Hskip.
  { intros e s0 He. unfold extractEntry. unfold isConfig in He. by rewrite He. }
  split; [exact Hskip|].
  (* the two runs stay in step: same state, same tallies but for skippedFiles *)
  assert (forall es s1 s2,
            fileSystem s1 = fileSystem s2 -> cryptoState s1 = cryptoState s2 ->
            extractedFiles (result s1) = extractedFiles (result s2) ->
            failedFiles (result s1) = failedFiles (result s2) ->
            let r1 := run es s1 in
            let r2 := run (List.filter (fun e => negb (isConfig e)) es) s2 in
            fileSystem r1 = fileSystem r2 /\ cryptoState r1 = cryptoState r2 /\
            extractedFiles (result r1) = extractedFiles (result r2) /\
            failedFiles (result r1) = failedFiles (result r2) /\
            skippedFiles (result r2) = skippedFiles (result s2) /\
            skippedFiles (result r1)
              = skippedFiles (result s1) ++ map _id (List.filter isConfig es)) as Hstep.
  { induction es as [|e es IH]; intros s1 s2 Hfs Hcs Hex Hfail.
    - simpl. by rewrite app_nil_r.
    - simpl. destruct (isConfig e) eqn:He; simpl.
      + unfold run, extractEntries. simpl. rewrite (Hskip e s1 He).
        destruct (IH (mkLoop (cryptoState s1) (fileSystem s1)
                        (pushSkipped (_id e) (result s1))) s2)
          as (? & ? & ? & ? & ? & Hsk); try done.
        repeat split; try done. unfold run, extractEntries in Hsk. rewrite Hsk. simpl.
        by rewrite <- app_assoc.
      + unfold run, extractEntries. simpl.
        assert (exists cs fs ex fl,
                  extractEntry client passphrase outputDir cache s1 e
                    = mkLoop cs fs (mkResult (totalFiles (result s1)) ex fl
                                      (skippedFiles (result s1))) /\
                  extractEntry client passphrase outputDir cache s2 e
                    = mkLoop cs fs (mkResult (totalFiles (result s2)) ex fl
                                      (skippedFiles (result s2)))) as Hsame.
        { unfold extractEntry. unfold isConfig in He. rewrite He, <- Hcs, <- Hfs.
          destruct (reassembleFile _ _ _ _ _) as [[content|err] cs].
          - destruct (writeFileSafely _ _ _ _) as [[?|?] fs];
              eexists _, _, _, _; unfold countExtracted, pushFailed; simpl;
              rewrite ?Hex, ?Hfail; done.
          - eexists _, _, _, _; unfold pushFailed; simpl; rewrite ?Hex, ?Hfail; done. }
        destruct Hsame as (cs & fs & ex & fl & -> & ->).
        destruct (IH (mkLoop cs fs (mkResult (totalFiles (result s1)) ex fl
                                      (skippedFiles (result s1))))
                     (mkLoop cs fs (mkResult (totalFiles (result s2)) ex fl
                                      (skippedFiles (result s2)))))
          as (? & ? & ? & ? & ? & ?); done. }
  by apply Hstep.
Qed.

End ExtractorClaims.

(** ** The theorems on the sample documents *)

Import Sample.

(** C3, witness: the short payload of the tests goes to the HKDF decoder,
    the sample legacy payload to the legacy decoder. *)
Lemma decryptV2_short_prefix_samples :
  (decryptV2 (webcrypto := toyCrypto) shortPayload passphrase saltedState).1
    = Err (EncryptedDataTooShort 8) /\
  (decryptV2 (webcrypto := toyCrypto) legacyPayload passphrase saltedState).1
    = Ok (js "ld!").
Proof.
  split.
  - rewrite (proj2 (decryptV2_short_prefix (webcrypto := toyCrypto)
                      shortPayload passphrase saltedState eq_refl eq_refl)
               (coherent_no_cache saltedState eq_refl eq_refl)).
    vm_compute. reflexivity.
  - rewrite (proj2 (decryptV2_short_prefix (webcrypto := toyCrypto)
                      legacyPayload passphrase saltedState eq_refl eq_refl)
               (coherent_no_cache saltedState eq_refl eq_refl)).
    vm_compute. reflexivity.
Defined.


(** C6, witness: the plaintext of the tests. *)
Lemma decryptChunk_passes_plaintext_sample :
  classify (js "This is not encrypted") = Plaintext /\
  decryptChunk (webcrypto := toyCrypto) (js "This is not encrypted") (js "any-passphrase")
    emptyState = (Ok (js "This is not encrypted"), emptyState).
Proof.
  exact (decryptChunk_passes_plaintext (webcrypto := toyCrypto)
           (js "This is not encrypted") (js "any-passphrase") emptyState eq_refl eq_refl).
Defined.

(** C7, witness: the short payload of the tests, and 32 hex digits with
    nothing behind them. *)
Lemma short_payloads_are_malformed_samples :
  decryptChunk (webcrypto := toyCrypto) shortPayload passphrase emptyState
    = (Err (EncryptedDataTooShort 8), emptyState) /\
  decryptChunk (webcrypto := toyCrypto) (js "%0123456789abcdefABCDEF0123456789") passphrase
    emptyState = (Err (V2LegacyDataTooShort 32), emptyState).
Proof.
  split.
  - refine (proj2 (proj1 (short_payloads_are_malformed (webcrypto := toyCrypto)
                            shortPayload passphrase emptyState)
                     (map (fun c => toUint8 (Z.of_N c)) (js "tooshort")) eq_refl eq_refl _)).
    vm_compute. lia.
  - refine (proj2 (proj2 (short_payloads_are_malformed (webcrypto := toyCrypto)
                            (js "%0123456789abcdefABCDEF0123456789") passphrase emptyState)
                     eq_refl _)).
    vm_compute. lia.
Defined.

(** C4, witness: three chunks in three formats come out in order; a
    reference that resolves to nothing is named by the error. *)
Lemma reassembleFile_in_order_samples :
  (reassembleFile (webcrypto := toyCrypto) sampleClient passphrase ∅ sampleEntry
     saltedState).1 = Ok (js "Hello, world!") /\
  (reassembleFile (webcrypto := toyCrypto) sampleClient passphrase ∅ brokenEntry
     saltedState).1 = Err (MissingChunk (js "h:gone")).
Proof.
  pose proof (coherent_no_cache (webcrypto := toyCrypto) saltedState eq_refl eq_refl) as Hcoh.
  split.
  - apply (proj1 (reassembleFile_in_order (webcrypto := toyCrypto) sampleClient passphrase
                    ∅ sampleEntry saltedState Hcoh)
             [js "Hello, "; js "wor"; js "ld!"]).
    repeat constructor.
    + exists (js "Hello, "). by vm_compute.
    + exists hkdfPayload. by vm_compute.
    + exists legacyPayload. by vm_compute.
  - apply (proj1 (proj2 (reassembleFile_in_order (webcrypto := toyCrypto) sampleClient
                           passphrase ∅ brokenEntry saltedState Hcoh))
             [js "h:one"] (js "h:gone") [js "h:two"] [js "Hello, "]).
    + reflexivity.
    + repeat constructor. exists (js "Hello, "). by vm_compute.
    + reflexivity.
Defined.

(** ** extractAll *)

Section RunClaims.
Context {webcrypto : WebCrypto} {filesystem : FileSystem}.
Variable client : CouchDBClient.
Variable passphrase : jsstring.

(** Once the listing and the prefetch have succeeded, [extractAll]
    resolves with the result of its loop. *)
Lemma extractAll_runs_loop outputDir (st : RunState) entries cache :
  getAllFileEntries client = Some entries ->
  prefetchChunks client entries (chunkCache st) = (true, cache) ->
  let s := extractEntries client passphrase outputDir cache entries
             (mkLoop (run_crypto st) (run_fs st) (mkResult (length entries) 0 [] [])) in
  extractAll client passphrase outputDir st
    = (Some (result s), mkRun cache (cryptoState s) (fileSystem s)).
Proof. intros Hlist Hfetch. unfold extractAll. by rewrite Hlist, Hfetch. Qed.

(** C8.  Let [extractAll] list the documents [pre ++ e :: post] and
    prefetch their chunks, the key caches being coherent.  Then the promise
    resolves with the result of the loop, which went on over [post] after
    [e]; every listed document is counted in exactly one of extracted,
    failed and skipped; [e] is reassembled as it would be at the start of
    the run, whatever happened to the documents before it.  If a chunk of
    [e] cannot be resolved or decrypted, [e] adds its identifier to
    [failedFiles] and changes neither the other tallies nor the file
    system.  If [e] is a configuration file it is skipped.  If the chunks
    of [e] resolve and decrypt, [writeFileSafely] is run for [e] with the
    whole text, on the file system that the documents before it left, and
    [e] is counted as extracted when the write succeeds and as failed
    otherwise.  What [e] adds to the tallies is still there at the end of
    the run. *)
Theorem failures_are_per_document outputDir (st : RunState) cache
    (pre post : list FileEntry) (e : FileEntry) :
  getAllFileEntries client = Some (pre ++ e :: post) ->
  prefetchChunks client (pre ++ e :: post) (chunkCache st) = (true, cache) ->
  coherent (run_crypto st) ->
  let run := extractEntries client passphrase outputDir cache in
  let start :=
    mkLoop (run_crypto st) (run_fs st) (mkResult (length (pre ++ e :: post)) 0 [] []) in
  let before := run pre start in
  let after := extractEntry client passphrase outputDir cache before e in
  let final := run post after in
  extractAll client passphrase outputDir st
    = (Some (result final), mkRun cache (cryptoState final) (fileSystem final)) /\
  totalFiles (result final) = length (pre ++ e :: post) /\
  tally (result final) = length (pre ++ e :: post) /\
  (reassembleFile client passphrase cache e (cryptoState before)).1
    = (reassembleFile client passphrase cache e (run_crypto st)).1 /\
  (startsWith (_id e) (js ".obsidian/") = false ->
   forall err,
     (reassembleFile client passphrase cache e (run_crypto st)).1 = Err err ->
     result after = pushFailed (_id e) (result before) /\
     fileSystem after = fileSystem before) /\
  (startsWith (_id e) (js ".obsidian/") = true ->
   after = mkLoop (cryptoState before) (fileSystem before)
             (pushSkipped (_id e) (result before))) /\
  (startsWith (_id e) (js ".obsidian/") = false ->
   forall content,
     (reassembleFile client passphrase cache e (run_crypto st)).1 = Ok content ->
     let written := writeFileSafely outputDir (_id e) content (fileSystem before) in
     fileSystem after = written.2 /\
     result after = match written.1 with
                    | Ok _ => countExtracted (result before)
                    | Err _ => pushFailed (_id e) (result before)
                    end) /\
  failedFiles (result after) `prefix_of` failedFiles (result final) /\
  skippedFiles (result after) `prefix_of` skippedFiles (result final) /\
  (extractedFiles (result after) <= extractedFiles (result final))%nat.
Proof.
  intros Hlist Hfetch Hcoh run start before after final.
  destruct (extractEntries_isolates_failures client passphrase outputDir cache pre post e
              start Hcoh) as (Hrun & Htotal & Htally & Hsame & Hfail).
  fold run before after final in Hrun, Htotal, Htally, Hsame, Hfail.
  destruct (extractEntry_cases client passphrase outputDir cache before e) as [Hskip Hwrite].
  fold after in Hskip, Hwrite.
  pose proof (extractEntries_keeps client passphrase outputDir cache post after) as Hkeep.
  fold run final in Hkeep.
  rewrite (extractAll_runs_loop outputDir st _ cache Hlist Hfetch).
  fold run start. rewrite Hrun in *. fold final in Htotal, Htally.
  repeat (split; [done|]).
  split; [|done]. intros Hid content Hok. apply Hwrite; [done|]. by rewrite Hsame.
Qed.

End RunClaims.


(** C8, witness: the broken document between a configuration file and two
    good documents; the document after it is written and counted. *)
Lemma failures_are_per_document_sample :
  (extractAll (webcrypto := toyCrypto) (filesystem := logFS) sampleStore passphrase
     (js "/out") startOfRun).1
    = Some (mkResult 4 2 [js "notes/broken.md"] [js ".obsidian/app.json"]) /\
  run_fs (extractAll (webcrypto := toyCrypto) (filesystem := logFS) sampleStore passphrase
            (js "/out") startOfRun).2
    = [(js "/out/notes/hello.md", js "Hello, world!"); (js "/out/last.md", js "Hello, ")] /\
  (let run := extractEntries (webcrypto := toyCrypto) (filesystem := logFS)
                sampleStore passphrase (js "/out") sampleCache in
   let before := run [configEntry; sampleEntry]
                   (mkLoop (filesystem := logFS) saltedState [] (mkResult 4 0 [] [])) in
   let after := extractEntry (webcrypto := toyCrypto) (filesystem := logFS)
                  sampleStore passphrase (js "/out") sampleCache before brokenEntry in
   result after = pushFailed (js "notes/broken.md") (result before) /\
   fileSystem after = fileSystem before) /\
  (let run := extractEntries (webcrypto := toyCrypto) (filesystem := logFS)
                sampleStore passphrase (js "/out") sampleCache in
   let before := run [configEntry; sampleEntry; brokenEntry]
                   (mkLoop (filesystem := logFS) saltedState [] (mkResult 4 0 [] [])) in
   let after := extractEntry (webcrypto := toyCrypto) (filesystem := logFS)
                  sampleStore passphrase (js "/out") sampleCache before lastEntry in
   fileSystem after = fileSystem before ++ [(js "/out/last.md", js "Hello, ")] /\
   result after = countExtracted (result before)).
Proof.
  assert (prefetchChunks sampleStore [configEntry; sampleEntry; brokenEntry; lastEntry] ∅
          = (true, sampleCache)) as Hfetch by by vm_compute.
  assert (coherent (webcrypto := toyCrypto) saltedState) as Hcoh
    by exact (coherent_no_cache (webcrypto := toyCrypto) saltedState eq_refl eq_refl).
  split; [by vm_compute|]. split; [by vm_compute|]. split.
  - destruct (failures_are_per_document (webcrypto := toyCrypto) (filesystem := logFS)
                sampleStore passphrase (js "/out") startOfRun sampleCache
                [configEntry; sampleEntry] [lastEntry] brokenEntry eq_refl Hfetch Hcoh)
      as (_ & _ & _ & _ & Hfail & _).
    apply (Hfail eq_refl (MissingChunk (js "h:gone"))). by vm_compute.
  - destruct (failures_are_per_document (webcrypto := toyCrypto) (filesystem := logFS)
                sampleStore passphrase (js "/out") startOfRun sampleCache
                [configEntry; sampleEntry; brokenEntry] [] lastEntry eq_refl Hfetch Hcoh)
      as (_ & _ & _ & _ & _ & _ & Hwrite & _).
    apply (Hwrite eq_refl (js "Hello, ")). by vm_compute.
Defined.

(* ================================================================== *)
(** * Further properties of the code *)

(** ** path_safety.ts and writeFileSafely *)

Lemma trimStart_nil s : trimStart s = [] <-> forallb isWhiteSpace s = true.
Proof.
  induction s as [|c s IH]; simpl; [done|].
  destruct (isWhiteSpace c); simpl; [done|]. split; done.
Qed.

Lemma forallb_rev {A} (f : A -> bool) (l : list A) : forallb f (rev l) = forallb f l.
Proof.
  induction l as [|a l IH]; [done|]. simpl. rewrite forallb_app, IH. simpl.
  rewrite andb_true_r. apply andb_comm.
Qed.

Lemma trim_nil s : trim s = [] <-> forallb isWhiteSpace s = true.
Proof.
  unfold trim, trimEnd. split.
  - intros H. apply (f_equal (@rev _)) in H. rewrite rev_involutive in H. simpl in H.
    apply trimStart_nil in H. rewrite forallb_rev in H.
    destruct (trimStart s) as [|c t] eqn:E; [by apply trimStart_nil|].
    pose proof (trimStart_noLeadingSpace s c) as Hc. rewrite E in Hc.
    simpl in H. rewrite Hc in H; done.
  - intros H. apply trimStart_nil in H. by rewrite H.
Qed.

Lemma bool_decide_trim_nil s : bool_decide (trim s = []) = forallb isWhiteSpace s.
Proof.
  destruct (forallb isWhiteSpace s) eqn:E.
  - apply bool_decide_eq_true_2. by apply trim_nil.
  - apply bool_decide_eq_false_2. intros H%trim_nil. congruence.
Qed.

Lemma hasDriveLetter_replace p : hasDriveLetter (replaceBackslashes p) = hasDriveLetter p.
Proof.
  destruct p as [|c [|d p]]; [done|done|]. simpl.
  destruct (N.eqb_spec c CHAR_BACKSLASH) as [->|Hc]; [by destruct (N.eqb d CHAR_BACKSLASH)|].
  destruct (N.eqb_spec d CHAR_BACKSLASH) as [->|Hd]; [|done].
  by rewrite !andb_false_r.
Qed.

(** [isPathSafe] is its shape checks followed by the prefix test on the
    normalized paths. *)
Lemma isPathSafe_shape (filePath baseDir : jsstring) :
  isPathSafe filePath baseDir =
  shapeChecks filePath &&
  (let fullPath := normalize (Path.join baseDir (replaceBackslashes filePath)) in
   let normalizedBase := normalize baseDir in
   startsWith fullPath normalizedBase
   && negb (bool_decide (drop (length normalizedBase) fullPath = []))).
Proof.
  unfold shapeChecks. rewrite <- bool_decide_trim_nil.
  destruct (bool_decide (trim filePath = [])) eqn:Htrim.
  { unfold isPathSafe. by rewrite Htrim, orb_true_r. }
  assert (filePath <> []) as Hne.
  { intros ->. by rewrite bool_decide_eq_true_2 in Htrim. }
  assert (replaceBackslashes filePath <> []) as Hne' by (by destruct filePath).
  destruct (includesChar filePath CHAR_NUL) eqn:Hnul.
  { unfold isPathSafe. rewrite Htrim, Hnul. by destruct (bool_decide _ || _). }
  destruct (bool_decide (filePath = js ".")) eqn:Hdot.
  { unfold isPathSafe. rewrite Htrim, Hnul, Hdot. by destruct (bool_decide _ || _). }
  destruct (bool_decide (filePath = js "..")) eqn:Hdots.
  { unfold isPathSafe. rewrite Htrim, Hnul, Hdot, Hdots. by destruct (bool_decide _ || _). }
  destruct (isAbsolute (replaceBackslashes filePath)) eqn:Habs.
  { unfold isPathSafe. rewrite Htrim, Hnul, Hdot, Hdots, Habs.
    by destruct (bool_decide _ || _). }
  rewrite <- hasDriveLetter_replace.
  destruct (hasDriveLetter (replaceBackslashes filePath)) eqn:Hdrive.
  { unfold isPathSafe. rewrite Htrim, Hnul, Hdot, Hdots, Habs, startsWith_slash, Habs.
    unfold hasDriveLetter in Hdrive. rewrite Hdrive.
    by destruct (bool_decide _ || _). }
  rewrite isPathSafe_after_checks; try done.
  - cbv zeta. simpl. rewrite (bool_decide_eq_false_2 (replaceBackslashes filePath = [])) by done.
    simpl. by rewrite andb_true_r.
  - rewrite Htrim. by rewrite bool_decide_eq_false_2.
  - by rewrite Hdot, Hdots.
  - by rewrite startsWith_slash, Habs.
Qed.

Lemma pushSegment_nil stack : pushSegment stack [] = stack.
Proof. done. Qed.

Lemma directoriesOf_trailing (path : jsstring) :
  directoriesOf (path ++ js "/") = directoriesOf path.
Proof.
  unfold directoriesOf, resolveSegments.
  change (path ++ js "/") with (path ++ CHAR_FORWARD_SLASH :: []).
  rewrite splitSlash_app_any. simpl splitSlash. by rewrite fold_left_app.
Qed.

Lemma directoriesOf_root : directoriesOf (js "/") = [].
Proof. done. Qed.

Lemma printedBase_nil t : printedBase [] t = js "/".
Proof. done. Qed.

Lemma printedBase_cons (dirs : list jsstring) t :
  Forall proper dirs -> dirs <> [] ->
  printedBase dirs t =
  CHAR_FORWARD_SLASH :: joinSlash dirs ++ (if t then js "/" else []).
Proof.
  intros Hd Hne. unfold printedBase.
  pose proof (joinSlash_nonempty dirs Hd Hne) as Hj.
  destruct (joinSlash dirs) as [|c r] eqn:E; [done|].
  destruct t; simpl; [done|]. by rewrite app_nil_r.
Qed.

Lemma directoriesOf_printedBase (dirs : list jsstring) t :
  Forall proper dirs -> directoriesOf (printedBase dirs t) = dirs.
Proof.
  intros Hd. destruct (decide (dirs = [])) as [->|Hne]; [done|].
  rewrite printedBase_cons by done. destruct t.
  - change (CHAR_FORWARD_SLASH :: joinSlash dirs ++ js "/")
      with ((CHAR_FORWARD_SLASH :: joinSlash dirs) ++ js "/").
    rewrite directoriesOf_trailing. by apply directoriesOf_rendered.
  - rewrite app_nil_r. by apply directoriesOf_rendered.
Qed.

Lemma trailingSeparator_snoc (s : jsstring) c :
  trailingSeparator (s ++ [c]) = isPosixPathSeparator c.
Proof. unfold trailingSeparator. by rewrite last_snoc. Qed.

Lemma normalize_printedBase (dirs : list jsstring) t :
  Forall proper dirs -> normalize (printedBase dirs t) = printedBase dirs t.
Proof.
  intros Hd. destruct (decide (dirs = [])) as [->|Hne]; [done|].
  rewrite normalize_base by (by rewrite printedBase_cons).
  rewrite directoriesOf_printedBase by done. f_equal.
  rewrite printedBase_cons by done. destruct t.
  - change (CHAR_FORWARD_SLASH :: joinSlash dirs ++ js "/")
      with ((CHAR_FORWARD_SLASH :: joinSlash dirs) ++ [CHAR_FORWARD_SLASH]).
    by rewrite trailingSeparator_snoc.
  - rewrite app_nil_r. by apply trailingSeparator_rendered.
Qed.

(** The path that [isPathSafe] compares with the base, in normal form. *)
Lemma resolved_absolute (base rel : jsstring) :
  isAbsolute base = true -> rel <> [] ->
  Path.join base rel
    = printedBase (directoriesOf (base ++ CHAR_FORWARD_SLASH :: rel)) (trailingSeparator rel) /\
  normalize (Path.join base rel) = Path.join base rel.
Proof.
  intros Habs Hrel.
  assert (Path.join base rel
          = printedBase (directoriesOf (base ++ CHAR_FORWARD_SLASH :: rel))
              (trailingSeparator rel)) as ->.
  { unfold Path.join. destruct base as [|c base]; [done|]. destruct rel as [|r rel]; [done|].
    rewrite normalize_base by done. by rewrite trailingSeparator_join. }
  split; [done|]. apply normalize_printedBase, directoriesOf_proper.
Qed.

(** Collapsing runs of slashes only removes empty segments. *)
Lemma splitSlash_collapseSlashes (s : jsstring) :
  exists seg rest rest',
    splitSlash s = seg :: rest /\ splitSlash (collapseSlashes s) = seg :: rest' /\
    forall stack, fold_left pushSegment rest' stack = fold_left pushSegment rest stack.
Proof.
  induction s as [|c s IH]; [by exists [], [], []|].
  destruct IH as (seg & rest & rest' & Hs & Hc & Hfold).
  simpl collapseSlashes. simpl splitSlash. unfold isPosixPathSeparator.
  destruct (N.eqb_spec c CHAR_FORWARD_SLASH) as [->|Hne].
  - destruct s as [|d s].
    + simpl. by exists [], [[]], [[]].
    + destruct (N.eqb_spec d CHAR_FORWARD_SLASH) as [->|Hd].
      * (* the run goes on: this slash is dropped *)
        change (splitSlash (CHAR_FORWARD_SLASH :: s)) with ([] :: splitSlash s) in Hs.
        injection Hs as <- <-.
        exists [], ([] :: splitSlash s), rest'. split; [done|]. split; [done|].
        intros stack. rewrite Hfold. done.
      * exists [], (seg :: rest), (seg :: rest'). split; [by rewrite <- Hs|]. split.
        { change (splitSlash (CHAR_FORWARD_SLASH :: collapseSlashes (d :: s)))
            with ([] :: splitSlash (collapseSlashes (d :: s))). by rewrite Hc. }
        intros stack. simpl. apply Hfold.
  - rewrite Hs. exists (c :: seg), rest, rest'. split; [done|]. split; [|done].
    change (splitSlash (c :: collapseSlashes s))
      with (if isPosixPathSeparator c then [] :: splitSlash (collapseSlashes s)
            else match splitSlash (collapseSlashes s) with
                 | seg :: segs => (c :: seg) :: segs
                 | [] => [[c]]
                 end).
    unfold isPosixPathSeparator. destruct (N.eqb_spec c CHAR_FORWARD_SLASH); [done|].
    by rewrite Hc.
Qed.

Lemma directoriesOf_collapseSlashes (base rel : jsstring) :
  directoriesOf (base ++ CHAR_FORWARD_SLASH :: collapseSlashes rel)
  = directoriesOf (base ++ CHAR_FORWARD_SLASH :: rel).
Proof.
  rewrite !directoriesOf_join. f_equal.
  destruct (splitSlash_collapseSlashes rel) as (seg & rest & rest' & -> & -> & Hfold).
  simpl. apply Hfold.
Qed.

Lemma trailingSeparator_collapseSlashes s :
  trailingSeparator (collapseSlashes s) = trailingSeparator s.
Proof. unfold trailingSeparator. by rewrite last_collapseSlashes. Qed.

Lemma join_collapseSlashes (base rel : jsstring) :
  isAbsolute base = true -> rel <> [] ->
  Path.join base (collapseSlashes rel) = normalize (Path.join base rel).
Proof.
  intros Habs Hrel.
  assert (collapseSlashes rel <> []) as Hc by (by intros H%collapseSlashes_nil).
  destruct (resolved_absolute base rel Habs Hrel) as [H1 ->].
  destruct (resolved_absolute base _ Habs Hc) as [-> _]. rewrite H1.
  by rewrite directoriesOf_collapseSlashes, trailingSeparator_collapseSlashes.
Qed.

Lemma splitSlash_snoc_slash (s : jsstring) :
  splitSlash (s ++ js "/") = splitSlash s ++ [[]].
Proof.
  change (s ++ js "/") with (s ++ CHAR_FORWARD_SLASH :: []).
  by rewrite splitSlash_app_any.
Qed.

(** A normalized path that begins with a normalized base ending in a
    slash, and goes on, lists the directories of the base and then more. *)
Lemma prefix_dirs (dJ dB : list jsstring) (t : bool) (r : jsstring) :
  Forall proper dJ -> Forall proper dB ->
  printedBase dJ t = printedBase dB true ++ r -> r <> [] ->
  exists extra, extra <> [] /\ dJ = dB ++ extra.
Proof.
  intros HJ HB Heq Hr.
  destruct (decide (dJ = [])) as [->|HJne].
  { rewrite printedBase_nil in Heq. destruct (decide (dB = [])) as [->|HBne].
    - rewrite printedBase_nil in Heq. by destruct r.
    - rewrite printedBase_cons in Heq by done.
      pose proof (joinSlash_nonempty dB HB HBne).
      destruct (joinSlash dB); [done|]. by destruct l. }
  destruct (decide (dB = [])) as [->|HBne]; [by exists dJ|].
  rewrite !printedBase_cons in Heq by done. injection Heq as Heq.
  apply (f_equal splitSlash) in Heq.
  rewrite <- app_assoc in Heq. change (js "/" ++ r) with (CHAR_FORWARD_SLASH :: r) in Heq.
  rewrite splitSlash_app_any in Heq.
  rewrite (splitSlash_joinSlash dB) in Heq by (done || by apply proper_slashFree).
  destruct t.
  - rewrite splitSlash_snoc_slash in Heq.
    rewrite (splitSlash_joinSlash dJ) in Heq by (done || by apply proper_slashFree).
    destruct (splitSlash r) as [|x xs] eqn:Er using rev_ind; [by destruct (splitSlash_nonempty r)|].
    clear IHxs. rewrite app_assoc in Heq. apply app_inj_tail in Heq as [Heq <-].
    exists xs. split; [|done]. intros ->.
    apply (f_equal joinSlash) in Er. rewrite joinSlash_splitSlash in Er. by subst r.
  - rewrite app_nil_r in Heq.
    rewrite (splitSlash_joinSlash dJ) in Heq by (done || by apply proper_slashFree).
    exists (splitSlash r). split; [apply splitSlash_nonempty|done].
Qed.

Lemma strictlyInside_app (dirs extra : list jsstring) :
  extra <> [] ->
  bool_decide (take (length dirs) (dirs ++ extra) = dirs)
  && (length dirs <? length (dirs ++ extra))%nat = true.
Proof.
  intros Hne. rewrite take_app_length, bool_decide_eq_true_2 by done.
  rewrite length_app. destruct extra; [done|]. simpl. apply Nat.ltb_lt. lia.
Qed.

Lemma strictlyInside_inv (f b : list jsstring) :
  bool_decide (take (length b) f = b) && (length b <? length f)%nat = true ->
  exists extra, extra <> [] /\ f = b ++ extra.
Proof.
  intros [H1%bool_decide_eq_true H2%Nat.ltb_lt]%andb_prop.
  exists (drop (length b) f). split.
  - intros H. apply (f_equal length) in H. rewrite length_drop in H. simpl in H. lia.
  - by rewrite <- H1 at 1; rewrite take_drop.
Qed.

Lemma strictlyInside_resolved (base rel : jsstring) :
  isAbsolute base = true -> rel <> [] ->
  strictlyInside (normalize (Path.join base rel)) base =
  let f := directoriesOf (base ++ CHAR_FORWARD_SLASH :: rel) in
  let b := directoriesOf base in
  bool_decide (take (length b) f = b) && (length b <? length f)%nat.
Proof.
  intros Habs Hrel. destruct (resolved_absolute base rel Habs Hrel) as [H1 ->].
  unfold strictlyInside. rewrite H1.
  by rewrite directoriesOf_printedBase by apply directoriesOf_proper.
Qed.

Lemma shaped_inside_accepted (filePath baseDir : jsstring) :
  isAbsolute baseDir = true ->
  shapeChecks filePath = true ->
  strictlyInside (normalize (Path.join baseDir (replaceBackslashes filePath))) baseDir = true ->
  isPathSafe filePath baseDir = true.
Proof.
  intros Habs Hshape Hin. rewrite isPathSafe_shape, Hshape. simpl.
  assert (replaceBackslashes filePath <> []) as Hrel.
  { destruct filePath; [|done]. done. }
  rewrite strictlyInside_resolved in Hin by done.
  apply strictlyInside_inv in Hin as (extra & Hne & Hdirs).
  destruct (resolved_absolute baseDir _ Habs Hrel) as [H1 ->]. rewrite H1, Hdirs.
  rewrite normalize_base by done.
  set (dirs := directoriesOf baseDir) in *.
  assert (Forall proper dirs) as Hd by apply directoriesOf_proper.
  assert (Forall proper extra) as He.
  { pose proof (directoriesOf_proper (baseDir ++ CHAR_FORWARD_SLASH :: replaceBackslashes filePath))
      as H. rewrite Hdirs in H. by apply Forall_app in H as [_ H]. }
  destruct (accepted_below dirs extra (trailingSeparator baseDir) Hd He Hne) as [Hs Hdrop].
  cbv zeta in Hs, Hdrop.
  assert (dirs ++ extra <> []) as Hne' by (by destruct dirs, extra).
  assert (Forall proper (dirs ++ extra)) as Hall by (by apply Forall_app).
  rewrite (printedBase_cons (dirs ++ extra)) by done.
  apply startsWith_prefix in Hs as [r Hr].
  change (CHAR_FORWARD_SLASH :: joinSlash (dirs ++ extra) ++ ?x)
    with ((CHAR_FORWARD_SLASH :: joinSlash (dirs ++ extra)) ++ x).
  rewrite Hr in Hdrop |- *. rewrite drop_app_length in Hdrop.
  rewrite <- app_assoc, startsWith_app, drop_app_length. simpl.
  apply negb_true_iff, bool_decide_eq_false_2. by destruct r.
Qed.

(** X1.  No false rejection: under an absolute base directory,
    [isPathSafe] accepts every path that passes the checks on its shape and
    resolves, after join and normalization, strictly inside the base
    directory. *)
Theorem isPathSafe_accepts_inside (filePath baseDir : jsstring) :
  isAbsolute baseDir = true ->
  shapeChecks filePath = true ->
  strictlyInside (normalize (Path.join baseDir (replaceBackslashes filePath))) baseDir = true ->
  isPathSafe filePath baseDir = true.
Proof. apply shaped_inside_accepted. Qed.

(** With a base directory that ends in a slash, an accepted path resolves
    strictly inside it. *)
Lemma accepted_is_inside (filePath baseDir : jsstring) :
  isAbsolute baseDir = true -> trailingSeparator baseDir = true ->
  isPathSafe filePath baseDir = true ->
  strictlyInside (normalize (Path.join baseDir (replaceBackslashes filePath))) baseDir = true.
Proof.
  intros Habs Htrail Hsafe. rewrite isPathSafe_shape in Hsafe.
  apply andb_prop in Hsafe as [Hshape Hsafe]. cbv zeta in Hsafe.
  assert (replaceBackslashes filePath <> []) as Hrel by (by destruct filePath).
  rewrite strictlyInside_resolved by done.
  destruct (resolved_absolute baseDir _ Habs Hrel) as [H1 H2]. rewrite H2, H1 in Hsafe.
  rewrite normalize_base, Htrail in Hsafe by done.
  apply andb_prop in Hsafe as [[r Hr]%startsWith_prefix Hmore].
  rewrite Hr, drop_app_length in Hmore.
  apply negb_true_iff, bool_decide_eq_false in Hmore.
  destruct (prefix_dirs _ _ _ _ (directoriesOf_proper _) (directoriesOf_proper _) Hr Hmore)
    as (extra & Hextra & Hdirs).
  cbv zeta. rewrite Hdirs. by apply strictlyInside_app.
Qed.

(** X2.  When the absolute base directory is written with a trailing
    slash, the prefix test of [isPathSafe] is a test on directories: a path
    is accepted exactly when it passes the checks on its shape and resolves
    strictly inside the base directory. *)
Theorem isPathSafe_slash_base (filePath baseDir : jsstring) :
  isAbsolute baseDir = true -> trailingSeparator baseDir = true ->
  isPathSafe filePath baseDir =
  shapeChecks filePath
  && strictlyInside (normalize (Path.join baseDir (replaceBackslashes filePath))) baseDir.
Proof.
  intros Habs Htrail.
  destruct (shapeChecks filePath) eqn:Hshape; [|by rewrite isPathSafe_shape, Hshape].
  rewrite andb_true_l.
  destruct (strictlyInside _ _) eqn:Hin; [by apply shaped_inside_accepted|].
  destruct (isPathSafe filePath baseDir) eqn:Hsafe; [|done].
  by rewrite (accepted_is_inside filePath baseDir Habs Htrail Hsafe) in Hin.
Qed.

Lemma forallb_isWhiteSpace_replace p :
  forallb isWhiteSpace (replaceBackslashes p) = forallb isWhiteSpace p.
Proof.
  induction p as [|c p IH]; [done|]. simpl. rewrite IH.
  by destruct (N.eqb_spec c CHAR_BACKSLASH) as [->|].
Qed.

Lemma includesChar_replace p c :
  c <> CHAR_BACKSLASH -> c <> CHAR_FORWARD_SLASH ->
  includesChar (replaceBackslashes p) c = includesChar p c.
Proof.
  intros H1 H2. unfold includesChar. induction p as [|d p IH]; [done|]. simpl. rewrite IH.
  destruct (N.eqb_spec d CHAR_BACKSLASH) as [->|]; [|done].
  by destruct (N.eqb_spec c CHAR_FORWARD_SLASH), (N.eqb_spec c CHAR_BACKSLASH).
Qed.

Lemma replaceBackslashes_idempotent p :
  replaceBackslashes (replaceBackslashes p) = replaceBackslashes p.
Proof. apply replaceBackslashes_fixed, replaceBackslashes_noBackslash. Qed.

Lemma replaceBackslashes_dots p (n : nat) :
  replaceBackslashes p = replicate n CHAR_DOT <-> p = replicate n CHAR_DOT.
Proof.
  revert n. induction p as [|c p IH]; intros [|n]; simpl; try done.
  split; intros [= H1 H2].
  - apply IH in H2 as ->. by destruct (N.eqb_spec c CHAR_BACKSLASH); subst.
  - subst c. f_equal. by apply IH.
Qed.

Lemma shapeChecks_replace p : shapeChecks (replaceBackslashes p) = shapeChecks p.
Proof.
  unfold shapeChecks.
  rewrite forallb_isWhiteSpace_replace, includesChar_replace, replaceBackslashes_idempotent,
    hasDriveLetter_replace by done.
  rewrite (bool_decide_ext _ (p = js ".")) by apply (replaceBackslashes_dots p 1).
  by rewrite (bool_decide_ext (_ = js "..") (p = js "..")) by apply (replaceBackslashes_dots p 2).
Qed.

Lemma hasDoubleSlash_collapseSlashes s : hasDoubleSlash (collapseSlashes s) = false.
Proof.
  induction s as [|c s IH]; [done|]. simpl collapseSlashes.
  pose proof (head_collapseSlashes s) as Hh.
  destruct (N.eqb_spec c CHAR_FORWARD_SLASH) as [->|Hc].
  - destruct s as [|d s]; [done|].
    destruct (N.eqb_spec d CHAR_FORWARD_SLASH) as [->|Hd]; [done|].
    destruct (collapseSlashes (d :: s)) as [|e r]; [done|]. injection Hh as ->.
    change (hasDoubleSlash (CHAR_FORWARD_SLASH :: d :: r))
      with (isPosixPathSeparator CHAR_FORWARD_SLASH && isPosixPathSeparator d
            || hasDoubleSlash (d :: r)).
    rewrite IH. unfold isPosixPathSeparator at 2.
    by destruct (N.eqb_spec d CHAR_FORWARD_SLASH).
  - destruct (collapseSlashes s) as [|e r]; [done|].
    change (hasDoubleSlash (c :: e :: r))
      with (isPosixPathSeparator c && isPosixPathSeparator e || hasDoubleSlash (e :: r)).
    rewrite IH. unfold isPosixPathSeparator at 1.
    by destruct (N.eqb_spec c CHAR_FORWARD_SLASH).
Qed.

Lemma includesChar_Forall s c : Forall (fun d => d <> c) s -> includesChar s c = false.
Proof.
  unfold includesChar. induction 1 as [|d s Hd _ IH]; [done|]. simpl. rewrite IH.
  by destruct (N.eqb_spec c d).
Qed.

Lemma sanitizePath_clean p :
  let s := sanitizePath p in
  trim s = s /\ includesChar s CHAR_BACKSLASH = false /\ hasDoubleSlash s = false.
Proof.
  unfold sanitizePath. destruct (trim_clean p) as [H1 H2].
  destruct (replaceBackslashes_clean _ H1 H2) as [H3 H4].
  split; [|split].
  - apply trim_fixed; intros c Hc.
    + rewrite head_collapseSlashes in Hc. by apply H3.
    + rewrite last_collapseSlashes in Hc. by apply H4.
  - apply includesChar_Forall, collapseSlashes_Forall, replaceBackslashes_noBackslash.
  - apply hasDoubleSlash_collapseSlashes.
Qed.

Lemma sanitizePath_nil p : sanitizePath p = [] <-> forallb isWhiteSpace p = true.
Proof.
  unfold sanitizePath. rewrite <- trim_nil. split.
  - intros H%collapseSlashes_nil. by destruct (trim p).
  - by intros ->.
Qed.

(** X3.  Whatever the base directory, [isPathSafe] rejects a path made of
    white space only, a path that begins with a slash or a backslash, and a
    path that begins with a letter and a colon. *)
Theorem isPathSafe_rejects_by_shape (filePath baseDir : jsstring) :
  forallb isWhiteSpace filePath = true \/
  head filePath = Some CHAR_FORWARD_SLASH \/
  head filePath = Some CHAR_BACKSLASH \/
  hasDriveLetter filePath = true ->
  isPathSafe filePath baseDir = false.
Proof.
  intros H. rewrite isPathSafe_shape. unfold shapeChecks.
  destruct H as [-> | [H | [H | H]]]; [done| | |unfold hasDriveLetter in *; by rewrite H, !andb_false_r].
  - destruct filePath as [|c p]; [done|]. injection H as ->. by rewrite !andb_false_r.
  - destruct filePath as [|c p]; [done|]. injection H as ->. by rewrite !andb_false_r.
Qed.

(** X3, witness. *)
Lemma isPathSafe_rejects_by_shape_samples :
  isPathSafe (js "   ") (js "/backup") = false /\
  isPathSafe (js "/etc/passwd") (js "/") = false /\
  isPathSafe (js "\\server\share") (js "/backup") = false /\
  isPathSafe (js "c:notes.md") (js "/backup") = false.
Proof.
  split; [|split; [|split]]; apply isPathSafe_rejects_by_shape.
  - by left.
  - right. by left.
  - right. right. by left.
  - by do 3 right.
Defined.

(** X4.  [isPathSafe] does not tell a backslash from a slash: a path and
    the same path with every backslash turned into a slash get the same
    answer, for every base directory. *)
Theorem isPathSafe_backslash_blind (filePath baseDir : jsstring) :
  isPathSafe (replaceBackslashes filePath) baseDir = isPathSafe filePath baseDir.
Proof.
  by rewrite !isPathSafe_shape, shapeChecks_replace, replaceBackslashes_idempotent.
Qed.

(** X5.  [requireSafePath] throws, with the path in the error, exactly when
    [isPathSafe] rejects the path; otherwise it returns [sanitizePath] of
    it, which is not empty, has no white space at either end, no backslash
    and no two slashes in a row. *)
Theorem requireSafePath_clean (filePath baseDir : jsstring) :
  match requireSafePath filePath baseDir with
  | Ok s =>
      isPathSafe filePath baseDir = true /\ s = sanitizePath filePath /\
      s <> [] /\ trim s = s /\ includesChar s CHAR_BACKSLASH = false /\
      hasDoubleSlash s = false
  | Err e => isPathSafe filePath baseDir = false /\ e = UnsafePathRejected filePath
  end.
Proof.
  unfold requireSafePath. destruct (isPathSafe filePath baseDir) eqn:Hsafe; simpl; [|done].
  destruct (sanitizePath_clean filePath) as (H1 & H2 & H3).
  repeat split; try done.
  intros H%sanitizePath_nil.
  rewrite isPathSafe_shape in Hsafe. unfold shapeChecks in Hsafe. by rewrite H in Hsafe.
Qed.

(** Sanitizing an accepted path without white space at its ends does not
    move it. *)
Lemma sanitized_target (baseDir relativePath : jsstring) :
  isAbsolute baseDir = true -> trim relativePath = relativePath ->
  isPathSafe relativePath baseDir = true ->
  Path.join baseDir (sanitizePath relativePath)
    = normalize (Path.join baseDir (replaceBackslashes relativePath)).
Proof.
  intros Habs Htrim Hsafe. unfold sanitizePath. rewrite Htrim.
  apply join_collapseSlashes; [done|].
  rewrite isPathSafe_shape in Hsafe. by destruct relativePath.
Qed.

Section WriteFileSafely.
Context {filesystem : FileSystem}.

(** X6.  For an absolute base directory and an accepted path without white
    space at its ends, [writeFileSafely] creates the directory of, and
    writes, the very path that [isPathSafe] compared with the base
    directory: sanitizing the path does not move it. *)
Theorem writeFileSafely_writes_checked_path (baseDir relativePath content : jsstring)
    (fs : FS) :
  isAbsolute baseDir = true ->
  trim relativePath = relativePath ->
  isPathSafe relativePath baseDir = true ->
  let fullPath := normalize (Path.join baseDir (replaceBackslashes relativePath)) in
  Path.join baseDir (sanitizePath relativePath) = fullPath /\
  writeFileSafely baseDir relativePath content fs =
    match ensureDir (dirname fullPath) fs with
    | (false, fs1) => (Err WriteFailed, fs1)
    | (true, fs1) =>
        match writeTextFile fullPath content fs1 with
        | (false, fs2) => (Err WriteFailed, fs2)
        | (true, fs2) => (Ok tt, fs2)
        end
    end.
Proof.
  intros Habs Htrim Hsafe fullPath.
  pose proof (sanitized_target baseDir relativePath Habs Htrim Hsafe) as Hfull.
  split; [done|]. unfold writeFileSafely. by rewrite Hsafe, Hfull.
Qed.

End WriteFileSafely.

(** X6, witness: backslashes and a doubled slash. *)
Lemma writeFileSafely_writes_checked_path_sample :
  Path.join (js "/out/") (sanitizePath (js "notes\\a//b.md")) = js "/out/notes/a/b.md" /\
  writeFileSafely (filesystem := Sample.logFS) (js "/out/") (js "notes\\a//b.md") (js "text") []
    = (Ok tt, [(js "/out/notes/a/b.md", js "text")]).
Proof.
  exact (writeFileSafely_writes_checked_path (filesystem := Sample.logFS)
           (js "/out/") (js "notes\\a//b.md") (js "text") [] eq_refl eq_refl eq_refl).
Defined.

(** X1, witness: a nested path with a backslash. *)
Lemma isPathSafe_accepts_inside_sample :
  isPathSafe (js "notes\sub/a.md") (js "/backup") = true.
Proof.
  exact (isPathSafe_accepts_inside (js "notes\sub/a.md") (js "/backup")
           eq_refl eq_refl eq_refl).
Defined.

(** X2, witness: under [/backup/] the sibling directory and the base
    directory itself are rejected. *)
Lemma isPathSafe_slash_base_samples :
  isPathSafe (js "../backup2/x") (js "/backup/") = false /\
  isPathSafe (js "x/../") (js "/backup/") = false /\
  isPathSafe (js "x/y") (js "/backup/") = true.
Proof.
  split; [|split].
  - exact (eq_trans (isPathSafe_slash_base (js "../backup2/x") (js "/backup/") eq_refl eq_refl)
             eq_refl).
  - exact (eq_trans (isPathSafe_slash_base (js "x/../") (js "/backup/") eq_refl eq_refl)
             eq_refl).
  - exact (eq_trans (isPathSafe_slash_base (js "x/y") (js "/backup/") eq_refl eq_refl)
             eq_refl).
Defined.

Lemma collapseSlashes_cons_other (c : N) (s : jsstring) :
  c <> CHAR_FORWARD_SLASH -> collapseSlashes (c :: s) = c :: collapseSlashes s.
Proof. intros Hc. simpl. by destruct (N.eqb_spec c CHAR_FORWARD_SLASH). Qed.

Lemma collapseSlashes_slash (s : jsstring) :
  exists r, collapseSlashes (CHAR_FORWARD_SLASH :: s) = CHAR_FORWARD_SLASH :: r.
Proof.
  pose proof (head_collapseSlashes (CHAR_FORWARD_SLASH :: s)) as H.
  destruct (collapseSlashes (CHAR_FORWARD_SLASH :: s)) as [|c r]; [done|].
  injection H as ->. by exists r.
Qed.

Lemma forallb_isWhiteSpace_collapse (s : jsstring) :
  forallb isWhiteSpace (collapseSlashes s) = forallb isWhiteSpace s.
Proof.
  induction s as [|c s IH]; [done|].
  destruct (decide (c = CHAR_FORWARD_SLASH)) as [->|Hc].
  - by destruct (collapseSlashes_slash s) as [r ->].
  - rewrite collapseSlashes_cons_other by done. simpl. by rewrite IH.
Qed.

Lemma includesChar_collapse (s : jsstring) (x : N) :
  x <> CHAR_FORWARD_SLASH -> includesChar (collapseSlashes s) x = includesChar s x.
Proof.
  intros Hx. unfold includesChar. induction s as [|c s IH]; [done|].
  destruct (decide (c = CHAR_FORWARD_SLASH)) as [->|Hc].
  - simpl collapseSlashes.
    assert ((x =? CHAR_FORWARD_SLASH)%N = false) as Hne by (by apply N.eqb_neq).
    destruct s as [|d s]; [done|].
    destruct (N.eqb_spec d CHAR_FORWARD_SLASH) as [->|Hd].
    + rewrite IH. simpl. by rewrite Hne.
    + cbn [existsb]. by rewrite IH.
  - rewrite collapseSlashes_cons_other by done. simpl. by rewrite IH.
Qed.

Lemma collapseSlashes_dots (s : jsstring) (n : nat) :
  collapseSlashes s = replicate n CHAR_DOT <-> s = replicate n CHAR_DOT.
Proof.
  revert n. induction s as [|c s IH]; intros n; [done|].
  destruct (decide (c = CHAR_FORWARD_SLASH)) as [->|Hc].
  - destruct (collapseSlashes_slash s) as [r ->]. by destruct n.
  - rewrite collapseSlashes_cons_other by done. destruct n as [|n]; [done|]. simpl.
    split; intros [= -> H]; f_equal; by apply IH.
Qed.

Lemma hasDriveLetter_collapse (s : jsstring) :
  hasDriveLetter (collapseSlashes s) = hasDriveLetter s.
Proof.
  destruct s as [|c s]; [done|].
  destruct (decide (c = CHAR_FORWARD_SLASH)) as [->|Hc].
  - destruct (collapseSlashes_slash s) as [r ->]. by destruct r, s.
  - rewrite collapseSlashes_cons_other by done.
    pose proof (head_collapseSlashes s) as H.
    destruct s as [|d s]; [done|]. destruct (collapseSlashes (d :: s)) as [|e r]; [done|].
    by injection H as ->.
Qed.

Lemma shapeChecks_sanitized (p : jsstring) :
  trim p = p -> shapeChecks (sanitizePath p) = shapeChecks p.
Proof.
  intros Htrim. unfold sanitizePath. rewrite Htrim.
  rewrite <- (shapeChecks_replace p). set (q := replaceBackslashes p).
  assert (replaceBackslashes (collapseSlashes q) = collapseSlashes q) as Hfix.
  { apply replaceBackslashes_fixed, collapseSlashes_Forall, replaceBackslashes_noBackslash. }
  unfold shapeChecks.
  rewrite forallb_isWhiteSpace_collapse, includesChar_collapse, hasDriveLetter_collapse by done.
  assert (replaceBackslashes q = q) as Hq by apply replaceBackslashes_idempotent.
  rewrite Hfix, Hq.
  rewrite (bool_decide_ext _ (q = js ".")) by apply (collapseSlashes_dots q 1).
  rewrite (bool_decide_ext (_ = js "..") (q = js "..")) by apply (collapseSlashes_dots q 2).
  do 2 f_equal. unfold isAbsolute. pose proof (head_collapseSlashes q) as H.
  destruct (collapseSlashes q), q; try done. by injection H as ->.
Qed.

Lemma sanitizePath_again (p : jsstring) : sanitizePath (sanitizePath p) = sanitizePath p.
Proof.
  destruct (sanitizePath_clean p) as (Htrim & Hback & _). cbv zeta in Htrim, Hback.
  unfold sanitizePath at 1. rewrite Htrim.
  rewrite replaceBackslashes_fixed
    by apply collapseSlashes_Forall, replaceBackslashes_noBackslash.
  apply collapseSlashes_idempotent.
Qed.

(** X7.  Under an absolute base directory, sanitizing a path without
    white space at its ends does not change the answer of [isPathSafe]; so
    what [requireSafePath] returns for such a path is a path that it
    accepts and returns unchanged. *)
Theorem sanitizePath_keeps_the_verdict (filePath baseDir : jsstring) :
  isAbsolute baseDir = true -> trim filePath = filePath ->
  isPathSafe (sanitizePath filePath) baseDir = isPathSafe filePath baseDir /\
  (forall s, requireSafePath filePath baseDir = Ok s -> requireSafePath s baseDir = Ok s).
Proof.
  intros Habs Htrim.
  assert (isPathSafe (sanitizePath filePath) baseDir = isPathSafe filePath baseDir) as Hsame.
  { rewrite !isPathSafe_shape, shapeChecks_sanitized by done.
    destruct (shapeChecks filePath) eqn:Hshape; [|done]. simpl.
    assert (replaceBackslashes filePath <> []) as Hne by (by destruct filePath).
    assert (normalize (Path.join baseDir (replaceBackslashes (sanitizePath filePath)))
            = normalize (Path.join baseDir (replaceBackslashes filePath))) as ->; [|done].
    unfold sanitizePath. rewrite Htrim.
    rewrite (replaceBackslashes_fixed (collapseSlashes _))
      by apply collapseSlashes_Forall, replaceBackslashes_noBackslash.
    rewrite join_collapseSlashes by done.
    destruct (resolved_absolute baseDir _ Habs Hne) as [_ H]. by rewrite !H. }
  split; [done|]. unfold requireSafePath. intros s.
  destruct (isPathSafe filePath baseDir) eqn:Hsafe; [|done]. simpl. intros [= <-].
  by rewrite Hsame, sanitizePath_again.
Qed.

(** X7, witness: a doubled slash and a backslash. *)
Lemma sanitizePath_keeps_the_verdict_sample :
  isPathSafe (sanitizePath (js "notes//a\b.md")) (js "/backup")
    = isPathSafe (js "notes//a\b.md") (js "/backup") /\
  (forall s, requireSafePath (js "notes//a\b.md") (js "/backup") = Ok s ->
             requireSafePath s (js "/backup") = Ok s).
Proof.
  exact (sanitizePath_keeps_the_verdict (js "notes//a\b.md") (js "/backup") eq_refl eq_refl).
Defined.

(** *** White space before a path *)

Lemma collapseSlashes_slashFree (s : jsstring) : slashFree s -> collapseSlashes s = s.
Proof.
  induction 1 as [|c s Hc _ IH]; [done|]. simpl.
  destruct (N.eqb_spec c CHAR_FORWARD_SLASH); [done|]. by rewrite IH.
Qed.

Lemma rev_tail_rev {A} (l : list A) : rev (tail (rev l)) = removelast l.
Proof.
  induction l as [|a l IH] using rev_ind; [done|].
  rewrite rev_app_distr. simpl. rewrite rev_involutive. by rewrite removelast_last.
Qed.

Lemma length_removelast {A} (l : list A) : l <> [] -> S (length (removelast l)) = length l.
Proof.
  induction l as [|a l IH] using rev_ind; [done|]. intros _.
  rewrite removelast_last, length_app. simpl. lia.
Qed.

(** [ ..], with a space before the dots, is a directory name like any
    other; [..] leaves the innermost directory. *)
Lemma dirs_of_spaced (baseDir name : jsstring) :
  proper name ->
  directoriesOf (baseDir ++ CHAR_FORWARD_SLASH :: js " ../" ++ name)
    = directoriesOf baseDir ++ [js " .."; name] /\
  directoriesOf (baseDir ++ CHAR_FORWARD_SLASH :: js "../" ++ name)
    = removelast (directoriesOf baseDir) ++ [name].
Proof.
  intros Hname. pose proof Hname as (_ & Hfree & _).
  rewrite !directoriesOf_join.
  change (js " ../" ++ name) with (js " .." ++ CHAR_FORWARD_SLASH :: name).
  change (js "../" ++ name) with (js ".." ++ CHAR_FORWARD_SLASH :: name).
  rewrite !splitSlash_app by (by repeat constructor).
  rewrite splitSlash_seg by done. cbn [fold_left].
  set (stack := rev (directoriesOf baseDir)).
  assert (pushSegment stack (js " ..") = js " .." :: stack) as -> by done.
  assert (pushSegment stack (js "..") = tail stack) as -> by done.
  rewrite !pushSegment_proper by done. cbn [rev].
  unfold stack. rewrite rev_involutive, rev_tail_rev. by rewrite <- app_assoc.
Qed.

Section LeadingSpace.
Context {filesystem : FileSystem}.

(** X25.  The check looks at the path as given, the write uses the path
    after [sanitizePath] has trimmed it.  Under an absolute base directory
    other than the root, for every file name [name] (a proper segment
    without null byte or backslash, not ending in white space), the path
    made of a space, [../] and [name] is accepted by [isPathSafe], since
    space-dot-dot is an ordinary directory name; [requireSafePath] returns
    [../name] for it; and [writeFileSafely] creates the directory of, and
    writes, the join of the base directory with [../name], which does not
    lie inside the base directory. *)
Theorem white_space_is_trimmed_after_the_check (baseDir name content : jsstring) (fs : FS) :
  isAbsolute baseDir = true -> directoriesOf baseDir <> [] ->
  proper name -> noTrailingSpace name ->
  Forall (fun c => c <> CHAR_NUL /\ c <> CHAR_BACKSLASH) name ->
  let relativePath := js " ../" ++ name in
  let target := Path.join baseDir (js "../" ++ name) in
  isPathSafe relativePath baseDir = true /\
  requireSafePath relativePath baseDir = Ok (js "../" ++ name) /\
  strictlyInside target baseDir = false /\
  writeFileSafely baseDir relativePath content fs =
    match ensureDir (dirname target) fs with
    | (false, fs1) => (Err WriteFailed, fs1)
    | (true, fs1) =>
        match writeTextFile target content fs1 with
        | (false, fs2) => (Err WriteFailed, fs2)
        | (true, fs2) => (Ok tt, fs2)
        end
    end.
Proof.
  intros Habs Hdirs Hname Hlast Hchars relativePath target.
  pose proof Hname as (Hne & Hfree & _).
  destruct (dirs_of_spaced baseDir name Hname) as [Hin Hout].
  assert (Forall (fun c => c <> CHAR_BACKSLASH) name) as Hback
    by (eapply Forall_impl; [exact Hchars|by intros c [_ ?]]).
  assert (includesChar name CHAR_NUL = false) as Hnul.
  { apply includesChar_Forall. eapply Forall_impl; [exact Hchars|by intros c [? _]]. }
  assert (replaceBackslashes name = name) as Hrep by (by apply replaceBackslashes_fixed).
  assert (replaceBackslashes relativePath = relativePath) as Hrel.
  { unfold relativePath, replaceBackslashes. rewrite map_app. f_equal. exact Hrep. }
  assert (isPathSafe relativePath baseDir = true) as Hsafe.
  { apply shaped_inside_accepted; [done| |].
    - unfold shapeChecks. rewrite Hrel. unfold relativePath, includesChar.
      rewrite existsb_app. fold (includesChar name CHAR_NUL). by rewrite Hnul.
    - rewrite Hrel, strictlyInside_resolved by done. cbv zeta.
      unfold relativePath. rewrite Hin. by apply strictlyInside_app. }
  assert (sanitizePath relativePath = js "../" ++ name) as Hsan.
  { unfold sanitizePath.
    assert (trim relativePath = js "../" ++ name) as ->.
    { unfold trim. change (trimStart relativePath) with (js "../" ++ name).
      apply trimEnd_fixed. intros c Hc. apply Hlast.
      rewrite last_app in Hc. destruct (last name) as [d|] eqn:E; [done|].
      destruct name using rev_ind; [done|]. by rewrite last_snoc in E. }
    assert (replaceBackslashes (js "../" ++ name) = js "../" ++ name) as ->.
    { unfold replaceBackslashes. rewrite map_app. f_equal. exact Hrep. }
    destruct name as [|c name']; [done|].
    assert (c <> CHAR_FORWARD_SLASH) as Hc by (by apply Forall_cons in Hfree as [? _]).
    simpl. destruct (N.eqb_spec c CHAR_FORWARD_SLASH); [done|].
    do 4 f_equal. apply Forall_cons in Hfree as [_ Hfree]. by apply collapseSlashes_slashFree. }
  assert (strictlyInside target baseDir = false) as Houtside.
  { unfold target. destruct (resolved_absolute baseDir (js "../" ++ name) Habs) as [Hjoin _];
      [by destruct name|].
    rewrite Hjoin, Hout. unfold strictlyInside.
    rewrite directoriesOf_printedBase.
    - apply andb_false_intro2. apply Nat.ltb_ge. rewrite length_app. simpl.
      pose proof (length_removelast (directoriesOf baseDir) Hdirs). lia.
    - rewrite <- Hout. apply directoriesOf_proper. }
  split; [done|]. split; [by unfold requireSafePath; rewrite Hsafe, Hsan|]. split; [done|].
  unfold writeFileSafely. rewrite Hsafe, Hsan. done.
Qed.

End LeadingSpace.

(** X25, witness: under [/out/notes], the path [ ../x.md] is written to
    [/out/x.md]. *)
Lemma white_space_is_trimmed_after_the_check_sample :
  isPathSafe (js " ../x.md") (js "/out/notes") = true /\
  requireSafePath (js " ../x.md") (js "/out/notes") = Ok (js "../x.md") /\
  strictlyInside (js "/out/x.md") (js "/out/notes") = false /\
  writeFileSafely (filesystem := Sample.logFS) (js "/out/notes") (js " ../x.md") (js "text") []
    = (Ok tt, [(js "/out/x.md", js "text")]).
Proof.
  apply (white_space_is_trimmed_after_the_check (filesystem := Sample.logFS)
           (js "/out/notes") (js "x.md") (js "text") []).
  - reflexivity.
  - discriminate.
  - split; [discriminate|]. split; [by repeat constructor|]. split; discriminate.
  - intros c Hc. injection Hc as <-. reflexivity.
  - repeat constructor; discriminate.
Defined.

(** ** extractAll and the configuration directory *)

(** A [./] before a relative path does not change where [join] puts
    it. *)
Lemma join_dot_slash (base rel : jsstring) :
  isAbsolute base = true -> rel <> [] ->
  Path.join base (js "./" ++ rel) = Path.join base rel.
Proof.
  intros Habs Hrel.
  destruct (resolved_absolute base (js "./" ++ rel) Habs) as [-> _]; [done|].
  destruct (resolved_absolute base rel Habs Hrel) as [-> _].
  f_equal.
  - (* the segment [.] leaves the stack as it is *)
    by rewrite !directoriesOf_join.
  - unfold trailingSeparator. rewrite last_app.
    destruct (last rel) eqn:E; [done|]. by apply last_None in E.
Qed.

(** Nor does it change the answer of [isPathSafe] for a safe path, or the
    path that [writeFileSafely] writes. *)
Lemma dot_slash_prefix (baseDir p : jsstring) :
  isAbsolute baseDir = true -> trim p = p -> isPathSafe p baseDir = true ->
  isPathSafe (js "./" ++ p) baseDir = true /\
  Path.join baseDir (sanitizePath (js "./" ++ p)) = Path.join baseDir (sanitizePath p).
Proof.
  intros Habs Htrim Hsafe. rewrite isPathSafe_shape in Hsafe.
  apply andb_prop in Hsafe as [Hshape Hinside].
  pose proof Hshape as Hshape'. unfold shapeChecks in Hshape'.
  apply andb_prop in Hshape' as [Hshape' _].
  apply andb_prop in Hshape' as [Hshape' Hrelative%negb_true_iff].
  apply andb_prop in Hshape' as [Hshape' _].
  apply andb_prop in Hshape' as [Hshape' _].
  apply andb_prop in Hshape' as [_ Hnul%negb_true_iff].
  set (q := replaceBackslashes p) in *.
  assert (p <> []) as Hp by (intros ->; done).
  assert (q <> []) as Hq by (unfold q; by destruct p).
  split.
  - rewrite isPathSafe_shape. apply andb_true_intro. split.
    + unfold shapeChecks. change (includesChar (js "./" ++ p) CHAR_NUL)
        with (includesChar p CHAR_NUL). by rewrite Hnul.
    + change (replaceBackslashes (js "./" ++ p)) with (js "./" ++ q).
      by rewrite join_dot_slash.
  - unfold sanitizePath. rewrite Htrim.
    assert (trim (js "./" ++ p) = js "./" ++ p) as ->.
    { apply trim_fixed; [by intros c [= <-]|]. intros c Hc.
      rewrite last_app in Hc. destruct (last p) as [d|] eqn:E; [|by apply last_None in E].
      destruct (trim_clean p) as [_ Hend]. rewrite Htrim in Hend. apply Hend.
      by rewrite E. }
    change (replaceBackslashes (js "./" ++ p)) with (js "./" ++ q). fold q.
    destruct q as [|c q']; [done|].
    assert (c <> CHAR_FORWARD_SLASH) as Hc.
    { intros ->. done. }
    assert (collapseSlashes (js "./" ++ c :: q') = js "./" ++ collapseSlashes (c :: q')) as ->.
    { simpl. by destruct (N.eqb_spec c CHAR_FORWARD_SLASH). }
    apply join_dot_slash; [done|]. by intros H%collapseSlashes_nil.
Qed.

Section ConfigurationDirectory.
Context {webcrypto : WebCrypto} {filesystem : FileSystem}.
Variable client : CouchDBClient.
Variable passphrase : jsstring.

(** C10, as amended.  Let [extractAll] list [entries] and prefetch their
    chunks.  An entry whose identifier starts with [.obsidian/] only adds
    that identifier to [skippedFiles]: the crypto module and the file system
    stay as they are.  So the promise resolves with [skippedFiles] listing
    exactly these entries, in order, and with the file system, the crypto
    state, the extracted count and the failed list that the loop leaves
    without them.  Every other entry whose chunks resolve and decrypt is
    handed to [writeFileSafely].  The test is on the identifier as it is
    stored: with [./] before a safe path without white space at its ends,
    the identifier does not start with [.obsidian/], is still safe, and is
    written to the very path of the identifier without the [./].  So the
    files of the configuration directory are left out only when their
    identifiers are spelled with [.obsidian/] at the start. *)
Theorem obsidian_entries_are_skipped outputDir (st : RunState) cache
    (entries : list FileEntry) :
  getAllFileEntries client = Some entries ->
  prefetchChunks client entries (chunkCache st) = (true, cache) ->
  let isConfig := fun e : FileEntry => startsWith (_id e) (js ".obsidian/") in
  let run := extractEntries client passphrase outputDir cache in
  let start := mkLoop (run_crypto st) (run_fs st) (mkResult (length entries) 0 [] []) in
  let others := List.filter (fun e => negb (isConfig e)) entries in
  (forall e s, isConfig e = true ->
     extractEntry client passphrase outputDir cache s e
       = mkLoop (cryptoState s) (fileSystem s) (pushSkipped (_id e) (result s))) /\
  (exists r st',
    extractAll client passphrase outputDir st = (Some r, st') /\
    skippedFiles r = map _id (List.filter isConfig entries) /\
    run_fs st' = fileSystem (run others start) /\
    run_crypto st' = cryptoState (run others start) /\
    extractedFiles r = extractedFiles (result (run others start)) /\
    failedFiles r = failedFiles (result (run others start)) /\
    skippedFiles (result (run others start)) = []) /\
  (forall e s content, isConfig e = false ->
     (reassembleFile client passphrase cache e (cryptoState s)).1 = Ok content ->
     let written := writeFileSafely outputDir (_id e) content (fileSystem s) in
     let after := extractEntry client passphrase outputDir cache s e in
     fileSystem after = written.2 /\
     result after = match written.1 with
                    | Ok _ => countExtracted (result s)
                    | Err _ => pushFailed (_id e) (result s)
                    end) /\
  (forall p, isAbsolute outputDir = true -> trim p = p -> isPathSafe p outputDir = true ->
     startsWith (js "./" ++ p) (js ".obsidian/") = false /\
     isPathSafe (js "./" ++ p) outputDir = true /\
     Path.join outputDir (sanitizePath (js "./" ++ p)) = Path.join outputDir (sanitizePath p)).
Proof.
  intros Hlist Hfetch isConfig run start others.
  destruct (extractEntries_without_config client passphrase outputDir cache entries start)
    as (Hskip & Hfs & Hcs & Hex & Hfail & Hnone & Hskipped).
  fold isConfig run others in Hskip, Hfs, Hcs, Hex, Hfail, Hnone, Hskipped.
  split; [exact Hskip|]. split; [|split].
  - eexists _, _. split; [by apply extractAll_runs_loop|]. fold run start. simpl.
    split; [exact Hskipped|]. done.
  - intros e s content Hconfig Hok.
    by apply (extractEntry_cases client passphrase outputDir cache s e).
  - intros p Habs Htrim Hsafe. split; [done|]. by apply dot_slash_prefix.
Qed.

End ConfigurationDirectory.

(** C10, witness: the configuration file of the sample store. *)
Lemma obsidian_entries_are_skipped_sample :
  exists r st',
    extractAll (webcrypto := toyCrypto) (filesystem := logFS) sampleStore passphrase
      (js "/out") startOfRun = (Some r, st') /\
    skippedFiles r = [js ".obsidian/app.json"] /\
    run_fs st'
      = [(js "/out/notes/hello.md", js "Hello, world!"); (js "/out/last.md", js "Hello, ")].
Proof.
  assert (prefetchChunks sampleStore [configEntry; sampleEntry; brokenEntry; lastEntry] ∅
          = (true, sampleCache)) as Hfetch by by vm_compute.
  destruct (obsidian_entries_are_skipped (webcrypto := toyCrypto)
              (filesystem := logFS) sampleStore passphrase (js "/out") startOfRun
              sampleCache [configEntry; sampleEntry; brokenEntry; lastEntry]
              eq_refl Hfetch)
    as (_ & (r & st' & Hrun & Hskipped & Hfs & _) & _).
  exists r, st'. split; [exact Hrun|]. split; [exact Hskipped|].
  rewrite Hfs. by vm_compute.
Defined.

(** C10, counterexample: of three documents of the configuration
    directory, only the one whose identifier starts with [.obsidian/] is
    skipped; the identifiers [./.obsidian/app.json] and
    [ .obsidian/workspace.json] are decrypted and written under
    [/out/.obsidian/]. *)
Lemma obsidian_subtree_is_written :
  map _id [configEntry; dottedEntry; spacedEntry]
    = [js ".obsidian/app.json"; js "./.obsidian/app.json"; js " .obsidian/workspace.json"] /\
  (extractAll (webcrypto := toyCrypto) (filesystem := logFS) spelledStore passphrase
     (js "/out") startOfRun).1
    = Some (mkResult 3 2 [] [js ".obsidian/app.json"]) /\
  run_fs (extractAll (webcrypto := toyCrypto) (filesystem := logFS) spelledStore passphrase
            (js "/out") startOfRun).2
    = [(js "/out/.obsidian/app.json", js "Hello, ");
       (js "/out/.obsidian/workspace.json", js "Hello, ")].
Proof. by vm_compute. Qed.

(** ** crypto.ts *)

Section CryptoExtras.
Context {webcrypto : WebCrypto}.

Lemma isV2Encrypted_head (data : jsstring) :
  isV2Encrypted data = match data with c :: _ => N.eqb c CHAR_PERCENT | [] => false end.
Proof.
  unfold isV2Encrypted. destruct data as [|c data]; [done|].
  change (startsWith (c :: data) INLINE_PREFIX) with ((CHAR_PERCENT =? c)%N && true).
  change (startsWith (c :: data) HKDF_PREFIX)
    with ((CHAR_PERCENT =? c)%N && startsWith data (js "=")).
  rewrite andb_true_r, (N.eqb_sym c).
  by destruct (CHAR_PERCENT =? c)%N, (startsWith data (js "=")).
Qed.

Lemma decryptChunk_classify (data passphrase : jsstring) :
  decryptChunk data passphrase =
  match classify data with
  | Plaintext => ret data
  | HkdfExpand => decryptHKDF (HKDF_PREFIX ++ bodyOf data) passphrase
  | LegacyPbkdf2 => decryptV2Legacy data passphrase
  end.
Proof.
  unfold decryptChunk. rewrite decryptV2_classify, isV2Encrypted_head. unfold classify.
  destruct data as [|c data]; [done|]. destruct (N.eqb c CHAR_PERCENT); [|done].
  simpl negb. cbv iota.
  destruct (match data with [] => false | d :: _ => (d =? CHAR_EQUALS)%N end); [done|].
  by destruct (_ && _).
Qed.

Lemma sliceFrom_prefix (prefix body : jsstring) :
  sliceFrom (prefix ++ body) (len prefix) = body.
Proof. unfold len. by rewrite sliceFrom_drop, drop_app_length. Qed.

Lemma getHKDFMasterKey_unsalted (passphrase : jsstring) (st : CryptoState) :
  globalPBKDF2Salt st = None -> cachedHKDFKey st = None ->
  getHKDFMasterKey passphrase st = (Err SaltNotSet, st).
Proof. intros H1 H2. unfold getHKDFMasterKey. by rewrite H1, H2. Qed.

Lemma decryptHKDF_unsalted (encryptedData passphrase : jsstring) (st : CryptoState) :
  globalPBKDF2Salt st = None -> cachedHKDFKey st = None ->
  decryptHKDF encryptedData passphrase st =
  (match atob (repad (sliceFrom encryptedData (len HKDF_PREFIX))) with
   | None => Err InvalidCharacterError
   | Some binaryData =>
       if (length binaryData <? 60)%nat then Err (EncryptedDataTooShort (length binaryData))
       else Err SaltNotSet
   end, st).
Proof.
  intros H1 H2. unfold decryptHKDF. destruct (atob _) as [binaryData|]; [|done].
  destruct (length binaryData <? 60)%nat; [done|].
  unfold bind, deriveChunkKeyHKDF, bind. by rewrite getHKDFMasterKey_unsalted.
Qed.

Lemma decryptV2Legacy_keeps_master (encryptedData passphrase : jsstring) (st : CryptoState) :
  let st' := (decryptV2Legacy encryptedData passphrase st).2 in
  globalPBKDF2Salt st' = globalPBKDF2Salt st /\ cachedHKDFKey st' = cachedHKDFKey st /\
  cachedPassphrase st' = cachedPassphrase st /\ console st' = console st.
Proof.
  unfold decryptV2Legacy. destruct (length _ <? 65)%nat; [done|].
  destruct (atob _) as [ct|]; [|done]. unfold bind, deriveV2LegacyKey.
  destruct (v2LegacyKeyCache st !! _) as [key|]; unfold decryptAesGcm;
    by destruct (aes_gcm_decrypt _ _ _).
Qed.

(** X8.  While no salt is set and no master key is cached, [decryptChunk]
    rejects every HKDF-format payload that is well formed (a body that
    decodes to at least 60 bytes) with "PBKDF2 salt not set", leaving the
    module as it was; and no call of [decryptChunk] sets the salt or caches
    a master key. *)
Theorem hkdf_payloads_need_the_salt (payload passphrase : jsstring) (st : CryptoState) :
  globalPBKDF2Salt st = None -> cachedHKDFKey st = None ->
  (forall decoded,
     classify payload = HkdfExpand ->
     atob (repad (bodyOf payload)) = Some decoded ->
     (60 <= length decoded)%nat ->
     decryptChunk payload passphrase st = (Err SaltNotSet, st)) /\
  globalPBKDF2Salt (decryptChunk payload passphrase st).2 = None /\
  cachedHKDFKey (decryptChunk payload passphrase st).2 = None.
Proof.
  intros Hsalt Hkey. rewrite decryptChunk_classify. split.
  - intros decoded -> Hatob Hlen. rewrite decryptHKDF_unsalted by done.
    rewrite sliceFrom_prefix, Hatob.
    by destruct (Nat.ltb_spec (length decoded) 60); [lia|].
  - destruct (classify payload).
    + by rewrite decryptHKDF_unsalted.
    + destruct (decryptV2Legacy_keeps_master payload passphrase st) as (-> & -> & _). done.
    + done.
Qed.

(** X9.  The master-key cache holds one passphrase at a time.  With the
    salt set, a request for [p2] after a request for another passphrase
    [p1] is not served from the cache: the key of [p2] is derived (two more
    lines on the console) and takes the place of the key of [p1], so that
    the next request for [p1] derives again. *)
Theorem master_key_cache_holds_one_passphrase (p1 p2 : jsstring) (salt : bytes)
    (st : CryptoState) :
  globalPBKDF2Salt st = Some salt -> p1 <> p2 ->
  let st1 := (getHKDFMasterKey p1 st).2 in
  let st2 := (getHKDFMasterKey p2 st1).2 in
  cachedPassphrase st1 = Some p1 /\
  getHKDFMasterKey p2 st1 = (Ok (masterKey p2 salt), st2) /\
  console st2 = console st1 ++ [DerivingMasterKey; MasterKeyDerived] /\
  cachedHKDFKey st2 = Some (masterKey p2 salt) /\
  cachedPassphrase st2 = Some p2 /\
  console (getHKDFMasterKey p1 st2).2 = console st2 ++ [DerivingMasterKey; MasterKeyDerived].
Proof.
  intros Hsalt Hne st1 st2.
  assert (forall p st0, globalPBKDF2Salt st0 = Some salt ->
            cachedPassphrase st0 <> Some p ->
            getHKDFMasterKey p st0 =
            (Ok (masterKey p salt),
             mkCryptoState (Some salt) (Some (masterKey p salt)) (Some p)
               (v2LegacyKeyCache st0)
               (console st0 ++ [DerivingMasterKey; MasterKeyDerived]))) as Hmiss.
  { intros p st0 Hs Hp. unfold getHKDFMasterKey. rewrite Hs.
    rewrite (bool_decide_eq_false_2 _ Hp).
    destruct (cachedHKDFKey st0); unfold bind; simpl; by rewrite Hs, <- app_assoc. }
  assert (globalPBKDF2Salt st1 = Some salt /\ cachedPassphrase st1 = Some p1) as [Hs1 Hp1].
  { subst st1. destruct (decide (cachedPassphrase st = Some p1)) as [Hp|Hp].
    - unfold getHKDFMasterKey. rewrite Hsalt, (bool_decide_eq_true_2 _ Hp).
      destruct (cachedHKDFKey st); [done|]. unfold bind. simpl. done.
    - by rewrite Hmiss. }
  assert (cachedPassphrase st1 <> Some p2) as Hp2 by (rewrite Hp1; congruence).
  pose proof (Hmiss p2 st1 Hs1 Hp2) as H2. subst st2. rewrite H2. simpl.
  repeat split; try done.
  rewrite Hmiss; [done|done|]. simpl. congruence.
Qed.

Lemma deriveV2LegacyKey_hit (passphrase : jsstring) (salt : bytes) (st : CryptoState) :
  exists key,
    (deriveV2LegacyKey passphrase salt st).1 = Ok key /\
    deriveV2LegacyKey passphrase salt (deriveV2LegacyKey passphrase salt st).2
      = (Ok key, (deriveV2LegacyKey passphrase salt st).2).
Proof.
  destruct (v2LegacyKeyCache st !! (passphrase ++ js ":" ++ saltToHex salt)) as [key|] eqn:E.
  - assert (deriveV2LegacyKey passphrase salt st = (Ok key, st)) as ->.
    { unfold deriveV2LegacyKey. cbv beta zeta. by rewrite E. }
    exists key. split; [done|]. cbn [snd]. unfold deriveV2LegacyKey. cbv beta zeta.
    by rewrite E.
  - unfold deriveV2LegacyKey. cbv beta zeta. rewrite E. simpl. rewrite lookup_insert_eq. by eexists.
Qed.

(** X10.  [deriveV2LegacyKey] always returns a key; asking again with the
    same passphrase and salt returns the same key and changes nothing; the
    cache entries of every other pair of passphrase and salt are left
    alone; in a coherent state the key is the one a fresh derivation gives;
    and [setPBKDF2Salt] does not touch this cache. *)
Theorem legacy_key_cache (passphrase : jsstring) (salt : bytes) (st : CryptoState) :
  let st1 := (deriveV2LegacyKey passphrase salt st).2 in
  (exists key,
     (deriveV2LegacyKey passphrase salt st).1 = Ok key /\
     deriveV2LegacyKey passphrase salt st1 = (Ok key, st1)) /\
  (forall passphrase' salt',
     (passphrase', salt') <> (passphrase, salt) ->
     v2LegacyKeyCache st1 !! (passphrase' ++ js ":" ++ saltToHex salt')
       = v2LegacyKeyCache st !! (passphrase' ++ js ":" ++ saltToHex salt')) /\
  (coherent st ->
   (deriveV2LegacyKey passphrase salt st).1 = Ok (legacyKey passphrase salt) /\ coherent st1) /\
  (forall newSalt,
     v2LegacyKeyCache (setPBKDF2Salt newSalt st1).2 = v2LegacyKeyCache st1).
Proof.
  intros st1. split; [apply deriveV2LegacyKey_hit|]. split; [|split; [|done]].
  - intros p' s' Hne. subst st1. unfold deriveV2LegacyKey. cbv beta zeta.
    destruct (v2LegacyKeyCache st !! (passphrase ++ _)); [done|]. simpl.
    apply lookup_insert_ne. intros [-> ->]%cacheKey_injective. done.
  - intros Hcoh. by destruct (deriveV2LegacyKey_coherent passphrase salt st Hcoh) as (? & _ & ?).
Qed.

End CryptoExtras.

(** *** Hexadecimal text *)

Lemma hexStringToUint8Array_length (hexString : jsstring) :
  length (hexStringToUint8Array hexString) = (length hexString / 2)%nat.
Proof.
  assert (forall n (s : jsstring), (length s <= n)%nat ->
            length (hexStringToUint8Array s) = (length s / 2)%nat) as H.
  { induction n as [|n IH]; intros s Hs.
    - destruct s; [done|simpl in Hs; lia].
    - destruct s as [|a [|b r]]; [done|done|].
      change (hexStringToUint8Array (a :: b :: r))
        with (toUint8 (default 0 (parseInt16 [a; b])) :: hexStringToUint8Array r).
      cbn [length] in *. rewrite IH by lia.
      change (S (S (length r))) with (1 * 2 + length r)%nat.
      rewrite Nat.div_add_l by done. lia. }
  by apply (H (length hexString)).
Qed.

Lemma saltToHex_length (salt : bytes) : length (saltToHex salt) = (2 * length salt)%nat.
Proof.
  unfold saltToHex. induction salt as [|b salt IH]; [done|].
  rewrite map_cons, concat_cons, length_app, IH.
  destruct (byteToHex_two b) as (h & l & ->). cbn [length]. lia.
Qed.

(** X11.  The hexadecimal text that [deriveV2LegacyKey] makes of a salt
    has two digits per byte and [hexStringToUint8Array] reads it back to
    the same bytes; on any string [hexStringToUint8Array] returns half as
    many bytes as there are characters, rounded down. *)
Theorem hex_text_round_trip (salt : bytes) (hexString : jsstring) :
  hexStringToUint8Array (saltToHex salt) = salt /\
  length (saltToHex salt) = (2 * length salt)%nat /\
  forallb isHexDigit (saltToHex salt) = true /\
  length (hexStringToUint8Array hexString) = (length hexString / 2)%nat.
Proof.
  split; [apply saltToHex_roundtrip|]. split; [apply saltToHex_length|].
  split; [|apply hexStringToUint8Array_length].
  unfold saltToHex. induction salt as [|b salt IH]; [done|].
  rewrite map_cons, concat_cons, forallb_app, IH, andb_true_r.
  by destruct b.
Qed.

Section MoreCrypto.
Context {webcrypto : WebCrypto}.

(** *** decryptContent *)

Lemma getHKDFMasterKey_error (passphrase : jsstring) (st : CryptoState) e :
  (getHKDFMasterKey passphrase st).1 = Err e -> e = SaltNotSet.
Proof.
  unfold getHKDFMasterKey.
  destruct (cachedHKDFKey st), (bool_decide (cachedPassphrase st = Some passphrase)),
    (globalPBKDF2Salt st); simpl; congruence.
Qed.

Lemma decryptHKDF_error (encryptedData passphrase : jsstring) (st : CryptoState) :
  (decryptHKDF encryptedData passphrase st).1 <> Err NotEncryptedData.
Proof.
  unfold decryptHKDF. destruct (atob _) as [binaryData|]; [|done].
  destruct (length binaryData <? 60)%nat; [done|].
  unfold bind, deriveChunkKeyHKDF, bind.
  destruct (getHKDFMasterKey passphrase st) as [[key|e] st'] eqn:E; simpl.
  - unfold decryptAesGcm. by destruct (aes_gcm_decrypt _ _ _).
  - intros [= ->]. by apply (f_equal fst), getHKDFMasterKey_error in E.
Qed.

Lemma decryptV2Legacy_error (encryptedData passphrase : jsstring) (st : CryptoState) :
  (decryptV2Legacy encryptedData passphrase st).1 <> Err NotEncryptedData.
Proof.
  unfold decryptV2Legacy. destruct (length _ <? 65)%nat; [done|].
  destruct (atob _) as [ct|]; [|done]. unfold bind, deriveV2LegacyKey.
  destruct (v2LegacyKeyCache st !! _) as [key|]; unfold decryptAesGcm;
    by destruct (aes_gcm_decrypt _ _ _).
Qed.

(** X12.  [decryptContent] and [decryptChunk] are the same function.
    [isV2Encrypted] only looks for a leading [%].  [decryptChunk] never
    fails with "Not encrypted data", the error that [decryptV2] gives, with
    the module unchanged, to a string without that prefix. *)
Theorem decryptContent_is_decryptChunk (content passphrase : jsstring) (st : CryptoState) :
  decryptContent content passphrase st = decryptChunk content passphrase st /\
  isV2Encrypted content = bool_decide (head content = Some CHAR_PERCENT) /\
  (decryptChunk content passphrase st).1 <> Err NotEncryptedData /\
  (isV2Encrypted content = false ->
   decryptV2 content passphrase st = (Err NotEncryptedData, st)).
Proof.
  split; [|split; [|split]].
  - unfold decryptContent, decryptChunk. by destruct content.
  - rewrite isV2Encrypted_head. destruct content as [|c content]; [done|]. simpl.
    destruct (N.eqb_spec c CHAR_PERCENT) as [->|Hc]; [done|].
    symmetry. apply bool_decide_eq_false_2. congruence.
  - rewrite decryptChunk_classify. destruct (classify content);
      [apply decryptHKDF_error|apply decryptV2Legacy_error|done].
  - unfold isV2Encrypted, decryptV2. intros [-> ->]%orb_false_elim. done.
Qed.

End MoreCrypto.

(** *** Base64 padding *)

Lemma dropWhileEq_replicate (n : nat) (s : jsstring) :
  dropWhileEq (replicate n CHAR_EQUALS ++ s) = dropWhileEq s.
Proof. induction n as [|n IH]; [done|]. simpl. exact IH. Qed.

Lemma rev_replicate {A} (n : nat) (x : A) : rev (replicate n x) = replicate n x.
Proof.
  induction n as [|n IH]; [done|]. simpl. rewrite IH.
  clear IH. induction n as [|n IH]; [done|]. simpl. by rewrite IH.
Qed.

Lemma stripTrailingEquals_padding (s : jsstring) (n : nat) :
  stripTrailingEquals (s ++ replicate n CHAR_EQUALS) = stripTrailingEquals s.
Proof.
  unfold stripTrailingEquals. by rewrite rev_app_distr, rev_replicate, dropWhileEq_replicate.
Qed.

Lemma dropWhileEq_split (s : jsstring) :
  exists n, s = replicate n CHAR_EQUALS ++ dropWhileEq s.
Proof.
  induction s as [|c s [n IH]]; [by exists 0%nat|]. simpl.
  destruct (N.eqb_spec c CHAR_EQUALS) as [->|Hc]; [|by exists 0%nat].
  exists (S n). simpl. by rewrite <- IH.
Qed.

Lemma stripTrailingEquals_split (s : jsstring) :
  exists n, s = stripTrailingEquals s ++ replicate n CHAR_EQUALS.
Proof.
  unfold stripTrailingEquals. destruct (dropWhileEq_split (rev s)) as [n H].
  exists n. apply (f_equal (@rev _)) in H.
  by rewrite rev_involutive, rev_app_distr, rev_replicate in H.
Qed.

Lemma dropWhileEq_idempotent (s : jsstring) : dropWhileEq (dropWhileEq s) = dropWhileEq s.
Proof.
  induction s as [|c s IH]; [done|]. simpl.
  destruct (N.eqb_spec c CHAR_EQUALS) as [->|Hc]; [done|]. simpl.
  by destruct (N.eqb_spec c CHAR_EQUALS).
Qed.

Lemma stripTrailingEquals_idempotent (s : jsstring) :
  stripTrailingEquals (stripTrailingEquals s) = stripTrailingEquals s.
Proof. unfold stripTrailingEquals. by rewrite rev_involutive, dropWhileEq_idempotent. Qed.

Lemma repad_padding (base64Part : jsstring) (n : nat) :
  repad (base64Part ++ replicate n CHAR_EQUALS) = repad base64Part.
Proof. unfold repad. by rewrite stripTrailingEquals_padding. Qed.

Lemma padded_length (n : nat) : ((n + (4 - n mod 4) mod 4) mod 4 = 0)%nat.
Proof.
  pose proof (Nat.div_mod_eq n 4) as H.
  pose proof (Nat.mod_upper_bound n 4 ltac:(done)) as Hlt.
  set (m := (n mod 4)%nat) in *. set (q := (n / 4)%nat) in *.
  assert (m = 0 \/ m = 1 \/ m = 2 \/ m = 3)%nat as [-> | [-> | [-> | ->]]] by lia;
    rewrite H; simpl Nat.sub; simpl (_ mod 4)%nat at 2.
  - replace (4 * q + 0 + 0)%nat with (0 + q * 4)%nat by lia. by rewrite Nat.Div0.mod_add.
  - replace (4 * q + 1 + 3)%nat with (0 + (q + 1) * 4)%nat by lia. by rewrite Nat.Div0.mod_add.
  - replace (4 * q + 2 + 2)%nat with (0 + (q + 1) * 4)%nat by lia. by rewrite Nat.Div0.mod_add.
  - replace (4 * q + 3 + 1)%nat with (0 + (q + 1) * 4)%nat by lia. by rewrite Nat.Div0.mod_add.
Qed.

Section Padding.
Context {webcrypto : WebCrypto}.

(** X13.  The padding repair does not depend on the [=] signs at the end
    of the body, gives a length that is a multiple of four, and has nothing
    left to do on its own result; so [decryptV2] treats an HKDF-format
    payload with any number of [=] signs added at its end like the payload
    itself. *)
Theorem padding_is_repaired (body passphrase : jsstring) (n : nat) (st : CryptoState) :
  repad (body ++ replicate n CHAR_EQUALS) = repad body /\
  (length (repad body) mod 4 = 0)%nat /\
  repad (repad body) = repad body /\
  decryptV2 (HKDF_PREFIX ++ body ++ replicate n CHAR_EQUALS) passphrase st
    = decryptV2 (HKDF_PREFIX ++ body) passphrase st.
Proof.
  split; [apply repad_padding|]. split; [|split].
  - unfold repad. rewrite length_app, length_replicate. apply padded_length.
  - unfold repad at 2. rewrite repad_padding. unfold repad.
    by rewrite stripTrailingEquals_idempotent.
  - unfold decryptV2. rewrite !startsWith_app. unfold decryptHKDF.
    by rewrite !sliceFrom_prefix, repad_padding.
Qed.

Lemma elem_of_stripTrailingEquals (c : N) (s : jsstring) :
  c ∈ s -> c <> CHAR_EQUALS -> c ∈ stripTrailingEquals s.
Proof.
  intros Hin Hc. destruct (stripTrailingEquals_split s) as [n H]. rewrite H in Hin.
  apply elem_of_app in Hin as [Hin|Hin]; [done|].
  by apply elem_of_replicate in Hin as [-> _].
Qed.

Lemma base64Values_invalid (c : N) (s : jsstring) :
  c ∈ s -> base64Value c = None -> base64Values s = None.
Proof.
  intros Hin Hc. induction s as [|d s IH]; [by apply elem_of_nil in Hin|].
  simpl. apply elem_of_cons in Hin as [<-|Hin]; [by rewrite Hc|].
  rewrite (IH Hin). by destruct (base64Value d).
Qed.

Lemma elem_of_rev (c : N) (s : jsstring) : c ∈ rev s <-> c ∈ s.
Proof. rewrite !list_elem_of_In. symmetry. apply in_rev. Qed.

Lemma strip_padding_cases (d l : jsstring) :
  match l with
  | 61%N :: 61%N :: r => rev r
  | 61%N :: r => rev r
  | _ => d
  end =
  match l with
  | x :: l' =>
      if N.eqb x 61 then
        match l' with
        | y :: r => if N.eqb y 61 then rev r else rev l'
        | [] => rev l'
        end
      else d
  | [] => d
  end.
Proof.
  destruct l as [|x l']; [done|].
  destruct x as [|x]; [done|]. do 7 (try destruct x as [x|x|]); try done.
  destruct l' as [|y r]; [done|].
  destruct y as [|y]; [done|]. do 7 (try destruct y as [y|y|]); done.
Qed.

Lemma atob_invalid (c : N) (data : jsstring) :
  c ∈ data -> base64Value c = None -> isAsciiWhitespace c = false -> c <> CHAR_EQUALS ->
  atob data = None.
Proof.
  intros Hin Hval Hws Hc. unfold atob. rewrite strip_padding_cases.
  set (d1 := List.filter _ data).
  assert (c ∈ d1) as H1.
  { apply list_elem_of_In, filter_In. split; [by apply list_elem_of_In|]. by rewrite Hws. }
  set (d2 := if (length d1 mod 4 =? 0)%nat then _ else d1).
  assert (c ∈ d2) as H2.
  { subst d2. destruct (length d1 mod 4 =? 0)%nat; [|done].
    assert (c ∈ rev d1) as Hr by (by apply elem_of_rev).
    destruct (rev d1) as [|x l]; [done|].
    destruct (N.eqb_spec x 61) as [->|Hx]; [|done].
    apply elem_of_cons in Hr as [->|Hr]; [done|].
    destruct l as [|y r]; [by apply elem_of_nil in Hr|].
    destruct (N.eqb_spec y 61) as [->|Hy]; [|by apply elem_of_rev].
    apply elem_of_cons in Hr as [->|Hr]; [done|]. by apply elem_of_rev. }
  destruct (length d2 mod 4 =? 1)%nat; [done|].
  by rewrite (base64Values_invalid c d2).
Qed.

(** X14.  An HKDF-format payload whose body holds a character that is
    neither in the base64 alphabet, nor ASCII white space, nor [=], is
    rejected with the error of [atob]; the module is left as it was, so no
    key is derived for it. *)
Theorem malformed_base64_is_rejected (payload passphrase : jsstring) (c : N)
    (st : CryptoState) :
  classify payload = HkdfExpand ->
  c ∈ bodyOf payload ->
  base64Value c = None -> isAsciiWhitespace c = false -> c <> CHAR_EQUALS ->
  decryptChunk payload passphrase st = (Err InvalidCharacterError, st).
Proof.
  intros Hclass Hin Hval Hws Hc. rewrite decryptChunk_classify, Hclass.
  unfold decryptHKDF. rewrite sliceFrom_prefix.
  rewrite (atob_invalid c); try done.
  unfold repad. apply elem_of_app. left. by apply elem_of_stripTrailingEquals.
Qed.

End Padding.

(** X8, witness: the sample payload in a module whose salt was never set. *)
Lemma hkdf_payloads_need_the_salt_sample :
  decryptChunk (webcrypto := toyCrypto) hkdfPayload passphrase emptyState
    = (Err SaltNotSet, emptyState).
Proof.
  refine (proj1 (hkdf_payloads_need_the_salt (webcrypto := toyCrypto) hkdfPayload passphrase
                   emptyState eq_refl eq_refl)
            (default [] (atob (repad (bodyOf hkdfPayload)))) eq_refl _ _).
  - vm_compute. reflexivity.
  - vm_compute. lia.
Defined.

(** X9, witness: two passphrases in turn. *)
Lemma master_key_cache_holds_one_passphrase_sample :
  let st1 := (getHKDFMasterKey (webcrypto := toyCrypto) passphrase saltedState).2 in
  let st2 := (getHKDFMasterKey (webcrypto := toyCrypto) (js "other") st1).2 in
  cachedPassphrase st1 = Some passphrase /\
  getHKDFMasterKey (webcrypto := toyCrypto) (js "other") st1
    = (Ok (masterKey (webcrypto := toyCrypto) (js "other") [Byte.x01; Byte.x02]), st2) /\
  console st2 = console st1 ++ [DerivingMasterKey; MasterKeyDerived] /\
  cachedHKDFKey st2
    = Some (masterKey (webcrypto := toyCrypto) (js "other") [Byte.x01; Byte.x02]) /\
  cachedPassphrase st2 = Some (js "other") /\
  console (getHKDFMasterKey (webcrypto := toyCrypto) passphrase st2).2
    = console st2 ++ [DerivingMasterKey; MasterKeyDerived].
Proof.
  apply (master_key_cache_holds_one_passphrase (webcrypto := toyCrypto) passphrase (js "other")
           [Byte.x01; Byte.x02] saltedState eq_refl).
  discriminate.
Defined.

(** X14, witness: the malformed payload of the tests. *)
Lemma malformed_base64_is_rejected_sample :
  decryptChunk (webcrypto := toyCrypto) (js "%!!!notbase64!!!") passphrase saltedState
    = (Err InvalidCharacterError, saltedState).
Proof.
  apply (malformed_base64_is_rejected (webcrypto := toyCrypto) (js "%!!!notbase64!!!")
           passphrase 33%N saltedState eq_refl); [|reflexivity|reflexivity|discriminate].
  vm_compute. by left.
Defined.

(** ** extractor.ts *)

(** *** The bulk prefetch *)

Lemma uniqueInOrder_spec (seen ids : list jsstring) :
  NoDup (uniqueInOrder seen ids) /\
  forall x, x ∈ uniqueInOrder seen ids <-> x ∈ ids /\ x ∉ seen.
Proof.
  revert seen. induction ids as [|y ids IH]; intros seen.
  - split; [constructor|]. intros x. split; [by intros ?%elem_of_nil|by intros [?%elem_of_nil _]].
  - simpl. case_bool_decide as Hy.
    + destruct (IH seen) as [Hnd Hin]. split; [done|]. intros x. rewrite Hin, elem_of_cons.
      split.
      * intros [H1 H2]. split; [by right|done].
      * intros [[->|H1] H2]; [done|]. by split.
    + destruct (IH (y :: seen)) as [Hnd Hin]. split.
      * constructor; [|done]. rewrite Hin. intros [_ H]. apply H. by left.
      * intros x. rewrite !elem_of_cons, Hin, elem_of_cons. split.
        -- intros [->|[H1 H2]]; [split; [by left|done]|].
           split; [by right|]. intros H3. apply H2. by right.
        -- intros [[->|H1] H2]; [by left|].
           destruct (decide (x = y)) as [->|Hxy]; [by left|].
           right. split; [done|]. by intros [H3|H3].
Qed.

Lemma allChunkIds_elem (fileEntries : list FileEntry) (chunkId : jsstring) :
  chunkId ∈ allChunkIds fileEntries <->
  startsWith chunkId (js "h:") = true /\
  exists entry, entry ∈ fileEntries /\ chunkId ∈ children entry.
Proof.
  unfold allChunkIds. rewrite (proj2 (uniqueInOrder_spec [] _)).
  rewrite list_elem_of_In, filter_In, in_concat. split.
  - intros [[(l & (entry & <- & He)%in_map_iff & Hl) Hs] _]. split; [done|].
    exists entry. by rewrite !list_elem_of_In.
  - intros (Hs & entry & He & Hc). split; [|by intros ?%elem_of_nil]. split; [|done].
    exists (children entry). rewrite in_map_iff, <- list_elem_of_In.
    split; [|done]. exists entry. by rewrite <- list_elem_of_In.
Qed.

Lemma batches_concat (n : nat) (l : list jsstring) :
  (length l <= n * BATCH_SIZE)%nat ->
  concat (map (fun k => take BATCH_SIZE (drop (k * BATCH_SIZE) l)) (seq 0 n)) = l.
Proof.
  revert l. induction n as [|n IH]; intros l Hl.
  - destruct l; [done|simpl in Hl; lia].
  - rewrite <- cons_seq, <- fmap_S_seq. cbn [map concat]. rewrite drop_0.
    change (S <$> seq 0 n) with (map S (seq 0 n)). rewrite map_map.
    transitivity (take BATCH_SIZE l ++ drop BATCH_SIZE l); [|apply take_drop]. f_equal.
    etransitivity; [|apply (IH (drop BATCH_SIZE l)); rewrite length_drop; lia].
    f_equal. apply map_ext. intros k. by rewrite drop_drop.
Qed.

Lemma batches_count (n : nat) : (n <= ((n + BATCH_SIZE - 1) / BATCH_SIZE) * BATCH_SIZE)%nat.
Proof.
  unfold BATCH_SIZE.
  pose proof (Nat.div_mod_eq (n + 100 - 1) 100).
  pose proof (Nat.mod_upper_bound (n + 100 - 1) 100 ltac:(done)). lia.
Qed.

Lemma batchesOf_concat (l : list jsstring) : concat (batchesOf l) = l.
Proof. apply batches_concat, batches_count. Qed.

Lemma batchesOf_sizes (l : list jsstring) :
  Forall (fun batch => (0 < length batch <= BATCH_SIZE)%nat) (batchesOf l).
Proof.
  unfold batchesOf. apply Forall_forall. intros batch Hin.
  apply list_elem_of_In, in_map_iff in Hin as (k & <- & Hk%in_seq).
  rewrite length_take, length_drop. unfold BATCH_SIZE in *.
  assert (k * 100 < length l)%nat; [|lia].
  pose proof (Nat.div_mod_eq (length l + 100 - 1) 100).
  pose proof (Nat.mod_upper_bound (length l + 100 - 1) 100 ltac:(done)).
  set (q := ((length l + 100 - 1) / 100)%nat) in *. lia.
Qed.

(** X15.  The identifiers that [prefetchChunks] asks for are the children
    of the listed entries that begin with [h:], each one once; the batches
    split this list in order, and every batch holds between 1 and 100
    identifiers. *)
Theorem prefetch_asks_once_for_each_chunk (fileEntries : list FileEntry) :
  let ids := allChunkIds fileEntries in
  NoDup ids /\
  (forall chunkId,
     chunkId ∈ ids <->
     startsWith chunkId (js "h:") = true /\
     exists entry, entry ∈ fileEntries /\ chunkId ∈ children entry) /\
  concat (batchesOf ids) = ids /\
  Forall (fun batch => (0 < length batch <= 100)%nat) (batchesOf ids).
Proof.
  intros ids. split; [apply uniqueInOrder_spec|].
  split; [apply allChunkIds_elem|]. split; [apply batchesOf_concat|apply batchesOf_sizes].
Qed.

Section Prefetch.
Variable client : CouchDBClient.

Lemma prefetchBatches_grows (batches : list (list jsstring)) (cache : gmap jsstring LeafChunk) :
  forall chunkId, is_Some (cache !! chunkId) ->
  is_Some ((prefetchBatches client batches cache).2 !! chunkId).
Proof.
  revert cache. induction batches as [|batch rest IH]; intros cache chunkId Hc; [done|].
  simpl. destruct (getChunks client batch) as [chunks|]; [|done].
  apply IH. apply lookup_union_is_Some. by right.
Qed.

Lemma prefetchBatches_covers (batches : list (list jsstring)) (cache cache' : gmap jsstring LeafChunk) :
  (forall batch chunks chunkId,
     getChunks client batch = Some chunks -> chunkId ∈ batch -> is_Some (chunks !! chunkId)) ->
  prefetchBatches client batches cache = (true, cache') ->
  forall batch chunkId, batch ∈ batches -> chunkId ∈ batch -> is_Some (cache' !! chunkId).
Proof.
  intros Hall. revert cache. induction batches as [|b rest IH]; intros cache Hrun batch chunkId Hb Hc.
  - by apply elem_of_nil in Hb.
  - simpl in Hrun. destruct (getChunks client b) as [chunks|] eqn:E; [|done].
    apply elem_of_cons in Hb as [->|Hb].
    + pose proof (prefetchBatches_grows rest (chunks ∪ cache) chunkId) as H.
      rewrite Hrun in H. apply H, lookup_union_is_Some. left. by eapply Hall.
    + by eapply IH.
Qed.

(** X16.  [prefetchChunks] never drops a chunk from the cache.  If every
    bulk request answers with all the chunks asked for and the prefetch
    succeeds, then every child of a listed entry that begins with [h:] is
    in the cache, and [getChunkData] takes it from there unless the entry
    carries it inline. *)
Theorem prefetch_fills_the_cache (fileEntries : list FileEntry)
    (cache : gmap jsstring LeafChunk) :
  let cache' := (prefetchChunks client fileEntries cache).2 in
  (forall chunkId, is_Some (cache !! chunkId) -> is_Some (cache' !! chunkId)) /\
  ((forall batch chunks chunkId,
      getChunks client batch = Some chunks -> chunkId ∈ batch -> is_Some (chunks !! chunkId)) ->
   (prefetchChunks client fileEntries cache).1 = true ->
   forall entry chunkId,
     entry ∈ fileEntries -> chunkId ∈ children entry ->
     startsWith chunkId (js "h:") = true ->
     exists chunk,
       cache' !! chunkId = Some chunk /\
       (eden entry ≫= (fun e => e !! chunkId) = None ->
        getChunkData client cache' chunkId entry = Some (data chunk))).
Proof.
  intros cache'. split; [apply prefetchBatches_grows|].
  intros Hall Hok entry chunkId He Hc Hs.
  assert (chunkId ∈ allChunkIds fileEntries) as Hin.
  { apply allChunkIds_elem. eauto. }
  rewrite <- (batchesOf_concat (allChunkIds fileEntries)) in Hin.
  apply list_elem_of_In, in_concat in Hin as (batch & Hb & Hcb).
  apply list_elem_of_In in Hb, Hcb.
  assert (is_Some (cache' !! chunkId)) as [chunk Hchunk].
  { eapply (prefetchBatches_covers _ cache); [done| |done|done].
    unfold cache', prefetchChunks in *.
    by destruct (prefetchBatches client _ cache) as [[] ?]. }
  exists chunk. split; [done|]. intros Heden. unfold getChunkData. by rewrite Heden, Hchunk.
Qed.

End Prefetch.

Section ExtractAllWrites.
Context {webcrypto : WebCrypto} {filesystem : FileSystem}.

Variable client : CouchDBClient.
Variable passphrase : jsstring.

Lemma writeFileSafely_writesOnly approved (baseDir relativePath content : jsstring)
    (fs0 fs : FS) :
  writesOnly approved fs0 fs ->
  (isPathSafe relativePath baseDir = true ->
   approved (Path.join baseDir (sanitizePath relativePath)) content) ->
  writesOnly approved fs0 (writeFileSafely baseDir relativePath content fs).2.
Proof.
  intros Hfs Hok. unfold writeFileSafely.
  destruct (isPathSafe relativePath baseDir); [|done]. simpl.
  specialize (Hok eq_refl).
  pose proof (writes_directory approved fs0 fs _ _ Hfs Hok) as H1.
  destruct (ensureDir _ fs) as [[] fs1]; [|done].
  pose proof (writes_file approved fs0 fs1 _ _ H1 Hok) as H2.
  by destruct (writeTextFile _ content fs1) as [[] fs2].
Qed.

Lemma extractEntry_writesOnly outputDir cache fileEntries (fs0 : FS) (s : LoopState)
    (entry : FileEntry) :
  let approved := decryptedDocument client passphrase outputDir
                    (globalPBKDF2Salt (cryptoState s)) cache fileEntries in
  coherent (cryptoState s) -> entry ∈ fileEntries ->
  writesOnly approved fs0 (fileSystem s) ->
  writesOnly approved fs0 (fileSystem (extractEntry client passphrase outputDir cache s entry)).
Proof.
  intros approved Hcoh Hin Hfs. unfold extractEntry.
  destruct (startsWith (_id entry) (js ".obsidian/")) eqn:Hconfig; [done|].
  destruct (yields_reassembleFile client passphrase cache entry _ Hcoh) as (_ & _ & Hplain).
  destruct (reassembleFile client passphrase cache entry (cryptoState s))
    as [[content|err] cs]; [|done].
  simpl in Hplain.
  pose proof (writeFileSafely_writesOnly approved outputDir (_id entry) content fs0
                (fileSystem s) Hfs) as H.
  destruct (writeFileSafely outputDir (_id entry) content (fileSystem s)) as [[?|?] fs];
    apply H; intros Hsafe; by exists entry.
Qed.

Lemma extractEntries_writesOnly outputDir cache fileEntries (fs0 : FS)
    (entries : list FileEntry) (s : LoopState) :
  let approved := decryptedDocument client passphrase outputDir
                    (globalPBKDF2Salt (cryptoState s)) cache fileEntries in
  coherent (cryptoState s) -> (forall entry, entry ∈ entries -> entry ∈ fileEntries) ->
  writesOnly approved fs0 (fileSystem s) ->
  writesOnly approved fs0
    (fileSystem (extractEntries client passphrase outputDir cache entries s)).
Proof.
  revert s. induction entries as [|entry entries IH]; intros s approved Hcoh Hsub Hfs; [done|].
  unfold extractEntries. simpl. fold (extractEntries client passphrase outputDir cache).
  destruct (extractEntry_coherent client passphrase outputDir cache s entry Hcoh) as [Hcoh' Hsalt].
  subst approved. rewrite <- Hsalt. apply IH; [done| |].
  - intros e He. apply Hsub. by right.
  - rewrite Hsalt. apply extractEntry_writesOnly; [done| |done]. apply Hsub. by left.
Qed.

(** X17.  Started with coherent key caches, [extractAll] touches the file
    system only through [ensureDir] and [Deno.writeTextFile] for documents
    of the listing that are not configuration files and have a safe
    identifier, at the path [writeFileSafely] gives them, and with the
    plaintexts of their chunks in order as content: a document that fails
    is never written, in part or in whole.  The promise rejects exactly
    when the listing or a bulk fetch of the prefetch fails, and a run that
    rejects has left the file system and the crypto module as they
    were. *)
Theorem extractAll_writes_only_decrypted_documents (outputDir : jsstring) (st : RunState) :
  coherent (run_crypto st) ->
  let out := extractAll client passphrase outputDir st in
  writesOnly
    (decryptedDocument client passphrase outputDir (globalPBKDF2Salt (run_crypto st))
       (chunkCache out.2) (default [] (getAllFileEntries client)))
    (run_fs st) (run_fs out.2) /\
  (out.1 = None <->
   getAllFileEntries client = None \/
   exists fileEntries,
     getAllFileEntries client = Some fileEntries /\
     (prefetchChunks client fileEntries (chunkCache st)).1 = false) /\
  (out.1 = None -> run_fs out.2 = run_fs st /\ run_crypto out.2 = run_crypto st).
Proof.
  intros Hcoh out. subst out. unfold extractAll.
  destruct (getAllFileEntries client) as [fileEntries|];
    [|split; [constructor|split; [split; [by left|done]|done]]].
  destruct (prefetchChunks client fileEntries (chunkCache st)) as [[] cache] eqn:Hfetch; simpl.
  - split; [|split; [split; [done|]|done]].
    + by apply (extractEntries_writesOnly outputDir cache fileEntries (run_fs st) fileEntries
                  (mkLoop (run_crypto st) (run_fs st) _)); [| |constructor].
    + intros [H|(es & [= <-] & H)]; [done|]. by rewrite Hfetch in H.
  - split; [constructor|]. split; [|done]. split; [|done].
    intros _. right. exists fileEntries. by rewrite Hfetch.
Qed.

Lemma extractEntries_stay_inside outputDir cache (fs0 : FS) (entries : list FileEntry)
    (s : LoopState) :
  let inside := fun fullPath (_ : jsstring) => strictlyInside fullPath outputDir = true in
  isAbsolute outputDir = true -> trailingSeparator outputDir = true ->
  Forall (fun entry => trim (_id entry) = _id entry) entries ->
  writesOnly inside fs0 (fileSystem s) ->
  writesOnly inside fs0
    (fileSystem (extractEntries client passphrase outputDir cache entries s)).
Proof.
  intros inside Habs Htrail Htrim. revert s.
  induction Htrim as [|entry entries Hentry _ IH]; intros s Hfs; [done|].
  unfold extractEntries. simpl. fold (extractEntries client passphrase outputDir cache).
  apply IH. unfold extractEntry.
  destruct (startsWith (_id entry) (js ".obsidian/")); [done|].
  destruct (reassembleFile client passphrase cache entry (cryptoState s))
    as [[content|err] cs]; [|done].
  pose proof (writeFileSafely_writesOnly inside outputDir (_id entry) content fs0
                (fileSystem s) Hfs) as H.
  destruct (writeFileSafely outputDir (_id entry) content (fileSystem s)) as [[?|?] fs];
    apply H; intros Hsafe; unfold inside;
    rewrite sanitized_target by done; by apply accepted_is_inside.
Qed.

(** X18.  When the output directory is absolute and written with a
    trailing slash, and no listed identifier has white space at its ends,
    every call of [ensureDir] and [Deno.writeTextFile] that [extractAll]
    makes is for a path strictly inside the output directory. *)
Theorem extractAll_stays_in_the_output_directory (outputDir : jsstring) (st : RunState) :
  isAbsolute outputDir = true -> trailingSeparator outputDir = true ->
  Forall (fun entry => trim (_id entry) = _id entry) (default [] (getAllFileEntries client)) ->
  writesOnly (fun fullPath _ => strictlyInside fullPath outputDir = true)
    (run_fs st) (run_fs (extractAll client passphrase outputDir st).2).
Proof.
  intros Habs Htrail Htrim. unfold extractAll.
  destruct (getAllFileEntries client) as [fileEntries|]; [|constructor].
  destruct (prefetchChunks client fileEntries (chunkCache st)) as [[] cache]; [|constructor].
  simpl. by apply (extractEntries_stay_inside outputDir cache (run_fs st) fileEntries
                     (mkLoop (run_crypto st) (run_fs st) _)); [| | |constructor].
Qed.

End ExtractAllWrites.

Lemma fullStore_answers (batch : list jsstring) (chunks : gmap jsstring LeafChunk)
    (chunkId : jsstring) :
  getChunks fullStore batch = Some chunks -> chunkId ∈ batch -> is_Some (chunks !! chunkId).
Proof.
  intros [= <-] Hin.
  destruct (list_to_map _ !! chunkId) as [chunk|] eqn:E; [by eexists|].
  apply not_elem_of_list_to_map in E. destruct E.
  apply list_elem_of_fmap. exists (chunkId, mkLeafChunk chunkId (js "Hello, ")).
  split; [done|]. apply list_elem_of_In, in_map_iff. exists chunkId.
  by rewrite <- list_elem_of_In.
Qed.

(** X16, witness: the stored chunks of the sample entries, fetched by a
    store that answers in full. *)
Lemma prefetch_fills_the_cache_sample :
  exists chunk,
    (prefetchChunks fullStore [sampleEntry; lastEntry] ∅).2 !! js "h:two" = Some chunk /\
    (eden sampleEntry ≫= (fun e => e !! js "h:two") = None ->
     getChunkData fullStore (prefetchChunks fullStore [sampleEntry; lastEntry] ∅).2
       (js "h:two") sampleEntry = Some (data chunk)).
Proof.
  apply (proj2 (prefetch_fills_the_cache fullStore [sampleEntry; lastEntry] ∅)
           fullStore_answers eq_refl sampleEntry (js "h:two")).
  - by left.
  - vm_compute. right. by left.
  - reflexivity.
Defined.

(** X17, witness: the run over the sample store. *)
Lemma extractAll_writes_only_decrypted_documents_sample :
  let out := extractAll (webcrypto := toyCrypto) (filesystem := logFS) sampleStore passphrase
               (js "/out") startOfRun in
  writesOnly (filesystem := logFS)
    (decryptedDocument (webcrypto := toyCrypto) sampleStore passphrase (js "/out")
       (Some [Byte.x01; Byte.x02]) (chunkCache out.2)
       [configEntry; sampleEntry; brokenEntry; lastEntry])
    [] (run_fs out.2).
Proof.
  exact (proj1 (extractAll_writes_only_decrypted_documents (webcrypto := toyCrypto)
                  (filesystem := logFS) sampleStore passphrase (js "/out") startOfRun
                  (coherent_no_cache (webcrypto := toyCrypto) saltedState eq_refl eq_refl))).
Defined.

(** X18, witness: the run over the sample store, into [/out/]. *)
Lemma extractAll_stays_in_the_output_directory_sample :
  writesOnly (filesystem := logFS)
    (fun fullPath _ => strictlyInside fullPath (js "/out/") = true) []
    (run_fs (extractAll (webcrypto := toyCrypto) (filesystem := logFS) sampleStore passphrase
               (js "/out/") startOfRun).2).
Proof.
  apply (extractAll_stays_in_the_output_directory (webcrypto := toyCrypto)
           (filesystem := logFS) sampleStore passphrase (js "/out/") startOfRun eq_refl eq_refl).
  by repeat constructor.
Defined.

(** ** couchdb.ts *)

Lemma chunksOf_from (rows : list Row) (start : gmap jsstring LeafChunk) (chunkId : jsstring) :
  match fold_left storeChunk rows start !! chunkId with
  | Some chunk => (start !! chunkId = Some chunk \/ storedChunk rows chunkId chunk /\ data chunk <> [])
  | None =>
      start !! chunkId = None /\
      forall row doc, row ∈ rows -> row_id row = chunkId -> row_doc row = Some doc ->
        doc_data doc = None \/ doc_data doc = Some []
  end.
Proof.
  revert start. induction rows as [|row rows IH]; intros start.
  - simpl. destruct (start !! chunkId) eqn:E; [by left|]. split; [done|].
    by intros row doc ?%elem_of_nil.
  - simpl. specialize (IH (storeChunk start row)).
    destruct (fold_left storeChunk rows (storeChunk start row) !! chunkId) as [chunk|].
    + destruct IH as [IH|[(r & d & Hr & ?) ?]].
      * unfold storeChunk in IH. destruct (row_doc row) as [doc|] eqn:Hdoc; [|by left].
        destruct (doc_data doc) as [[|c text]|] eqn:Hdata; [by left| |by left].
        destruct (decide (row_id row = chunkId)) as [Hid|Hid].
        -- rewrite <- Hid, lookup_insert_eq in IH. injection IH as <-. right. split.
           ++ exists row, doc. split; [by left|]. unfold asLeafChunk at 1. simpl.
              by rewrite Hdata.
           ++ unfold asLeafChunk. simpl. by rewrite Hdata.
        -- rewrite lookup_insert_ne in IH by done. by left.
      * right. split; [|done]. exists r, d. split; [by right|done].
    + destruct IH as [Hstart Hnone]. unfold storeChunk in Hstart.
      assert (start !! chunkId = None /\
              forall doc, row_id row = chunkId -> row_doc row = Some doc ->
                doc_data doc = None \/ doc_data doc = Some []) as [H1 H2].
      { destruct (row_doc row) as [doc|] eqn:Hdoc; [|done].
        destruct (doc_data doc) as [[|c text]|] eqn:Hdata.
        - split; [done|]. intros ? _ [= <-]. by right.
        - apply lookup_insert_None in Hstart as [? ?]. split; [done|]. done.
        - split; [done|]. intros ? _ [= <-]. by left. }
      split; [done|]. intros r d [->|Hr]%elem_of_cons; [apply H2|by apply Hnone].
Qed.

(** X19.  The map that [getChunks] builds from a response holds, under an
    identifier, the document of a row with that identifier and non-empty
    data; it holds nothing under an identifier only when no row with that
    identifier has a document with non-empty data. *)
Theorem getChunks_keeps_chunks_with_data (rows : list Row) (chunkId : jsstring) :
  match chunksOf rows !! chunkId with
  | Some chunk => data chunk <> [] /\ storedChunk rows chunkId chunk
  | None =>
      forall row doc, row ∈ rows -> row_id row = chunkId -> row_doc row = Some doc ->
        doc_data doc = None \/ doc_data doc = Some []
  end.
Proof.
  pose proof (chunksOf_from rows ∅ chunkId) as H. unfold chunksOf.
  destruct (fold_left storeChunk rows ∅ !! chunkId) as [chunk|].
  - destruct H as [H|[? ?]]; [by rewrite lookup_empty in H|done].
  - by destruct H.
Qed.

Lemma chunksOf_data (rows : list Row) (chunkId : jsstring) (chunk : LeafChunk) :
  chunksOf rows !! chunkId = Some chunk -> data chunk <> [].
Proof.
  intros H. pose proof (chunksOf_from rows ∅ chunkId) as Hfrom. unfold chunksOf in H.
  rewrite H in Hfrom. destruct Hfrom as [Hfrom|[_ Hdata]]; [|done].
  by rewrite lookup_empty in Hfrom.
Qed.

Lemma prefetchBatches_data (db : Database) (batches : list (list jsstring))
    (cache : gmap jsstring LeafChunk) :
  (forall chunkId chunk, cache !! chunkId = Some chunk -> data chunk <> []) ->
  forall chunkId chunk,
    (prefetchBatches (clientOf db) batches cache).2 !! chunkId = Some chunk ->
    data chunk <> [].
Proof.
  revert cache. induction batches as [|batch rest IH]; intros cache Hcache; [done|].
  simpl. destruct (allDocsWithKeys db batch) as [rows|]; [|done]. simpl.
  apply IH. intros chunkId chunk [H|[_ H]]%lookup_union_Some_raw.
  - by apply chunksOf_data in H.
  - by apply Hcache in H.
Qed.

(** X20.  With the client of a database, a prefetch keeps the cache free of
    chunks without data; so a chunk that is in the cache is never reported
    missing, unless the entry carries an inline chunk under the same
    identifier. *)
Theorem prefetched_chunks_are_never_missing (db : Database) (fileEntries : list FileEntry)
    (cache : gmap jsstring LeafChunk) (entry : FileEntry) (chunkId : jsstring) :
  (forall id chunk, cache !! id = Some chunk -> data chunk <> []) ->
  let cache' := (prefetchChunks (clientOf db) fileEntries cache).2 in
  (forall id chunk, cache' !! id = Some chunk -> data chunk <> []) /\
  (is_Some (cache' !! chunkId) ->
   eden entry ≫= (fun e => e !! chunkId) = None ->
   falsy (getChunkData (clientOf db) cache' chunkId entry) = false).
Proof.
  intros Hcache cache'.
  assert (forall id chunk, cache' !! id = Some chunk -> data chunk <> []) as Hdata
    by (by apply prefetchBatches_data).
  split; [done|]. intros [chunk Hchunk] Heden. unfold getChunkData.
  rewrite Heden, Hchunk. apply Hdata in Hchunk. by destruct (data chunk).
Qed.

(** X20, witness: the bulk answer of the sample database holds a chunk
    without data, which does not reach the cache. *)
Lemma prefetched_chunks_are_never_missing_sample :
  let cache' := (prefetchChunks (clientOf sampleDatabase) [sampleEntry] ∅).2 in
  (forall id chunk, cache' !! id = Some chunk -> data chunk <> []) /\
  (is_Some (cache' !! js "h:one") ->
   eden lastEntry ≫= (fun e => e !! js "h:one") = None ->
   falsy (getChunkData (clientOf sampleDatabase) cache' (js "h:one") lastEntry) = false).
Proof.
  apply (prefetched_chunks_are_never_missing sampleDatabase [sampleEntry] ∅ lastEntry
           (js "h:one")).
  intros id chunk H. by rewrite lookup_empty in H.
Defined.

(** ** backup.ts *)

Lemma test_nil (s : jsstring) : test [] s = true <-> s = [].
Proof. by destruct s. Qed.

Lemma test_Lit (c : N) (pattern : list PatternItem) (s : jsstring) :
  test (Lit c :: pattern) s = true <-> exists s', s = c :: s' /\ test pattern s' = true.
Proof.
  destruct s as [|d s]; simpl.
  - split; [done|]. by intros (? & ? & ?).
  - split.
    + intros [->%N.eqb_eq H]%andb_prop. eauto.
    + intros (s' & [= -> ->] & H). by rewrite N.eqb_refl.
Qed.

Lemma test_Digit (pattern : list PatternItem) (s : jsstring) :
  test (Digit :: pattern) s = true <->
  exists d s', s = d :: s' /\ isDigit d = true /\ test pattern s' = true.
Proof.
  destruct s as [|d s]; simpl.
  - split; [done|]. by intros (? & ? & ? & ?).
  - split.
    + intros [H1 H2]%andb_prop. eauto.
    + intros (d' & s' & [= -> ->] & H1 & H2). by rewrite H1.
Qed.

Lemma test_app (p1 p2 : list PatternItem) (s1 s2 : jsstring) :
  test p1 s1 = true -> test (p1 ++ p2) (s1 ++ s2) = test p2 s2.
Proof.
  revert s1. induction p1 as [|[c|] p1 IH]; intros s1 H.
  - by apply test_nil in H as ->.
  - apply test_Lit in H as (s' & -> & H). simpl. by rewrite N.eqb_refl, IH.
  - apply test_Digit in H as (d & s' & -> & Hd & H). simpl. by rewrite Hd, IH.
Qed.

Lemma test_literal (s : jsstring) : test (map Lit s) s = true.
Proof. induction s as [|c s IH]; [done|]. simpl. by rewrite N.eqb_refl. Qed.

Lemma test_length (pattern : list PatternItem) (s : jsstring) :
  test pattern s = true -> length s = length pattern.
Proof.
  revert s. induction pattern as [|[c|] p IH]; intros s H.
  - by apply test_nil in H as ->.
  - apply test_Lit in H as (s' & -> & H). simpl. by rewrite (IH s').
  - apply test_Digit in H as (d & s' & -> & _ & H). simpl. by rewrite (IH s').
Qed.

Lemma test_split (p1 p2 : list PatternItem) (s : jsstring) :
  test (p1 ++ p2) s = true ->
  test p1 (take (length p1) s) = true /\ test p2 (drop (length p1) s) = true.
Proof.
  revert s. induction p1 as [|[c|] p1 IH]; intros s H.
  - by rewrite drop_0.
  - apply test_Lit in H as (s' & -> & H). simpl. rewrite N.eqb_refl. by apply IH.
  - apply test_Digit in H as (d & s' & -> & Hd & H). simpl. rewrite Hd. by apply IH.
Qed.

Lemma isBackupFile_date (date : jsstring) :
  isBackupFile (js "obsidian-" ++ date ++ js ".zip") = test ISO_DATE_PATTERN date.
Proof.
  unfold isBackupFile.
  change BACKUP_FILENAME_PATTERN
    with (map Lit (js "obsidian-") ++ ISO_DATE_PATTERN ++ map Lit (js ".zip")).
  rewrite test_app by apply test_literal.
  destruct (test ISO_DATE_PATTERN date) eqn:E.
  - rewrite (test_app _ _ _ _ E). apply test_literal.
  - destruct (test (ISO_DATE_PATTERN ++ map Lit (js ".zip")) (date ++ js ".zip")) eqn:F; [|done].
    pose proof (test_length _ _ F) as Hlen. rewrite !length_app in Hlen.
    apply test_split in F as [F _].
    assert (length date = length ISO_DATE_PATTERN) as Hd by (simpl in Hlen |- *; lia).
    by rewrite <- Hd, take_app_length, E in F.
Qed.

Lemma test_literal_inv (a s : jsstring) : test (map Lit a) s = true -> s = a.
Proof.
  revert s. induction a as [|c a IH]; intros s H.
  - by apply test_nil in H.
  - apply test_Lit in H as (s' & -> & H). f_equal. by apply IH.
Qed.

Lemma isBackupFile_inv (filename : jsstring) :
  isBackupFile filename = true ->
  exists date, filename = js "obsidian-" ++ date ++ js ".zip" /\ test ISO_DATE_PATTERN date = true.
Proof.
  intros H. unfold isBackupFile in H.
  change BACKUP_FILENAME_PATTERN
    with (map Lit (js "obsidian-") ++ ISO_DATE_PATTERN ++ map Lit (js ".zip")) in H.
  apply test_split in H as [H1%test_literal_inv H2].
  apply test_split in H2 as [H2 H3%test_literal_inv].
  set (n := length (map Lit (js "obsidian-"))) in *.
  set (m := length ISO_DATE_PATTERN) in *.
  exists (take m (drop n filename)). split; [|exact H2].
  rewrite <- (take_drop n filename) at 1. rewrite H1. f_equal.
  rewrite <- (take_drop m (drop n filename)) at 1. by rewrite H3.
Qed.

(** X21.  [isBackupFile] accepts exactly the names [obsidian-], a date of
    four, two and two digits joined by dashes, [.zip]. *)
Theorem isBackupFile_shape (filename : jsstring) :
  isBackupFile filename = true <->
  exists date,
    test ISO_DATE_PATTERN date = true /\
    filename = js "obsidian-" ++ date ++ js ".zip".
Proof.
  split.
  - intros (date & -> & H)%isBackupFile_inv. eauto.
  - intros (date & H & ->). by rewrite isBackupFile_date.
Qed.

Lemma test_Forall (P : N -> Prop) (pattern : list PatternItem) (s : jsstring) :
  (forall c, Lit c ∈ pattern -> P c) -> (forall d, isDigit d = true -> P d) ->
  test pattern s = true -> Forall P s.
Proof.
  intros Hlit Hdigit. revert s. induction pattern as [|[c|] p IH]; intros s H.
  - by apply test_nil in H as ->.
  - apply test_Lit in H as (s' & -> & H). constructor; [apply Hlit; by left|].
    apply IH; [|done]. intros c' Hc'. apply Hlit. by right.
  - apply test_Digit in H as (d & s' & -> & Hd & H). constructor; [by apply Hdigit|].
    apply IH; [|done]. intros c' Hc'. apply Hlit. by right.
Qed.

Lemma isBackupFile_proper (filename : jsstring) :
  isBackupFile filename = true -> proper filename /\ trailingSeparator filename = false.
Proof.
  intros H. pose proof H as (date & -> & Hdate)%isBackupFile_inv.
  split; [split; [done|split; [|done]]|].
  - apply (test_Forall _ BACKUP_FILENAME_PATTERN); [| |done].
    + intros c Hc ->. apply list_elem_of_In in Hc. vm_compute in Hc.
      repeat (destruct Hc as [Hc|Hc]; [discriminate|]). done.
    + intros d Hd ->. done.
  - unfold trailingSeparator. rewrite !app_assoc.
    change (js ".zip") with (js ".zi" ++ [112%N]). by rewrite app_assoc, last_snoc.
Qed.

(** X22.  Under an absolute backup directory, the path that
    [pruneOldBackups] makes of a name accepted by [isBackupFile] is the
    normalized directory followed by that name: it lies in the backup
    directory itself, not above it and not in a subdirectory. *)
Theorem backup_files_are_direct_children (backupDir filename : jsstring) :
  isAbsolute backupDir = true -> isBackupFile filename = true ->
  Path.join backupDir filename = printedBase (directoriesOf backupDir ++ [filename]) false /\
  strictlyInside (Path.join backupDir filename) backupDir = true.
Proof.
  intros Habs [Hproper Htrail]%isBackupFile_proper.
  assert (filename <> []) as Hne by apply Hproper.
  destruct (resolved_absolute backupDir filename Habs Hne) as [Hjoin _].
  rewrite Htrail, directoriesOf_join in Hjoin.
  rewrite splitSlash_seg in Hjoin by apply Hproper.
  cbn [fold_left] in Hjoin. rewrite pushSegment_proper in Hjoin by done.
  cbn [rev] in Hjoin. rewrite rev_involutive in Hjoin.
  split; [done|]. rewrite Hjoin. unfold strictlyInside.
  rewrite directoriesOf_printedBase.
  - by apply strictlyInside_app.
  - apply Forall_app. split; [apply directoriesOf_proper|by constructor].
Qed.

Section Prune.
Context {platform : BackupPlatform}.

Lemma pruneEntry_removesOnly backupDir cutoff listing (disk0 : Disk) (s : PruneResult * Disk)
    (entry : DirEntry) :
  let s' := pruneEntry backupDir cutoff s entry in
  entry ∈ listing ->
  removesOnly (oldBackup backupDir cutoff listing) disk0 s.2 ->
  Forall (fun name => isBackupFile name = true) (pruned s.1) ->
  removesOnly (oldBackup backupDir cutoff listing) disk0 s'.2 /\
  Forall (fun name => isBackupFile name = true) (pruned s'.1) /\
  (length (pruned s'.1) + length (skipped s'.1) <= S (length (pruned s.1) + length (skipped s.1)))%nat.
Proof.
  destruct s as [r disk]. intros s' Hin Hrem Hall. subst s'. unfold pruneEntry, skip.
  destruct (entryIsFile entry) eqn:HisFile; simpl;
    [|split; [done|split; [done|simpl; rewrite ?length_app; simpl; lia]]].
  destruct (isBackupFile (entryName entry)) eqn:Hname; simpl;
    [|split; [done|split; [done|simpl; rewrite ?length_app; simpl; lia]]].
  destruct (stat _ disk) as [info|] eqn:Hstat; simpl;
    [|split; [done|split; [done|simpl; rewrite ?length_app; simpl; lia]]].
  destruct (isFile info) eqn:Hfile; simpl;
    [|split; [done|split; [done|simpl; rewrite ?length_app; simpl; lia]]].
  destruct (mtime info) as [t|] eqn:Hmtime; [|split; [done|split; [done|simpl; lia]]].
  destruct (Z.ltb_spec t cutoff) as [Hold|Hnew]; [|split; [done|split; [done|simpl; lia]]].
  assert (removesOnly (oldBackup backupDir cutoff listing) disk0
            (remove (Path.join backupDir (entryName entry)) disk).2) as Hstep.
  { apply removes_file; [done|]. by exists entry, info, t. }
  destruct (remove _ disk) as [[] disk']; simpl in *.
  - split; [done|]. split; [|simpl; rewrite ?length_app; simpl; lia].
    apply Forall_app. split; [done|by constructor].
  - split; [done|]. split; [done|simpl; rewrite ?length_app; simpl; lia].
Qed.

Lemma pruneEntries_removesOnly backupDir cutoff listing (disk0 : Disk)
    (entries : list DirEntry) (s : PruneResult * Disk) :
  let s' := fold_left (pruneEntry backupDir cutoff) entries s in
  (forall entry, entry ∈ entries -> entry ∈ listing) ->
  removesOnly (oldBackup backupDir cutoff listing) disk0 s.2 ->
  Forall (fun name => isBackupFile name = true) (pruned s.1) ->
  removesOnly (oldBackup backupDir cutoff listing) disk0 s'.2 /\
  Forall (fun name => isBackupFile name = true) (pruned s'.1) /\
  (length (pruned s'.1) + length (skipped s'.1)
   <= length entries + (length (pruned s.1) + length (skipped s.1)))%nat.
Proof.
  revert s. induction entries as [|entry entries IH]; intros s s' Hsub Hrem Hall.
  - subst s'. split; [done|]. split; [done|]. simpl. lia.
  - subst s'. cbn [fold_left].
    destruct (pruneEntry_removesOnly backupDir cutoff listing disk0 s entry) as (H1 & H2 & H3);
      [apply Hsub; by left|done|done|].
    destruct (IH (pruneEntry backupDir cutoff s entry)) as (H4 & H5 & H6); [|done|done|].
    { intros e He. apply Hsub. by right. }
    split; [done|]. split; [done|]. cbn [length]. lia.
Qed.

(** X23.  [pruneOldBackups] changes the disk only by removing entries of
    the listing of the backup directory that the listing and [Deno.stat]
    both call regular files, that have the name of a backup, and that were
    last modified before the cutoff.  The names it reports as pruned are
    names of backups, and it reports no more names than the listing holds.
    The promise rejects exactly when the backup directory is there and
    cannot be listed, and then the disk is as it was; if the backup
    directory is missing or not a directory, the result is empty and the
    disk is as it was. *)
Theorem pruneOldBackups_removes_only_old_backups (now : Z) (backupDir : jsstring)
    (retentionDays : Z) (disk : Disk) :
  let out := pruneOldBackups now backupDir retentionDays disk in
  let cutoff := now - retentionDays * 24 * 60 * 60 * 1000 in
  let listing := default [] (readDir backupDir disk) in
  removesOnly (oldBackup backupDir cutoff listing) disk out.2 /\
  match out.1 with
  | inr r =>
      Forall (fun name => isBackupFile name = true) (pruned r) /\
      (length (pruned r) + length (skipped r) <= length listing)%nat
  | inl _ => out.2 = disk
  end /\
  ((forall info, stat backupDir disk = Some info -> isDirectory info = false) ->
   out = (inr (mkPruneResult [] []), disk)) /\
  ((exists info, stat backupDir disk = Some info /\ isDirectory info = true) ->
   readDir backupDir disk = None ->
   out = (inl ReadDirFailed, disk)) /\
  ((exists err, out.1 = inl err) ->
   (exists info, stat backupDir disk = Some info /\ isDirectory info = true) /\
   readDir backupDir disk = None).
Proof.
  intros out cutoff listing. subst out. unfold pruneOldBackups.
  destruct (stat backupDir disk) as [info|] eqn:Hstat.
  2: { split; [constructor|]. split; [split; [constructor|simpl; lia]|]. split; [done|].
       split; [by intros (? & ? & _)|by intros [? ?]]. }
  destruct (isDirectory info) eqn:Hdir; simpl.
  2: { split; [constructor|]. split; [split; [constructor|simpl; lia]|]. split; [done|].
       split; [|by intros [? ?]].
       intros (info' & [= <-] & Hdir'). by rewrite Hdir in Hdir'. }
  subst listing. destruct (readDir backupDir disk) as [entries|] eqn:Hread; simpl.
  2: { split; [constructor|]. split; [done|].
       split; [intros H; by rewrite (H info) in Hdir|].
       split; [done|]. intros _. split; [by exists info|done]. }
  destruct (pruneEntries_removesOnly backupDir cutoff entries disk entries
              (mkPruneResult [] [], disk)) as (H1 & H2 & H3); [done|constructor|constructor|].
  fold cutoff. destruct (fold_left _ entries _) as [r disk'] eqn:E. simpl in *.
  split; [done|]. split; [split; [done|lia]|].
  split; [intros H; by rewrite (H info) in Hdir|].
  split; [done|by intros [? ?]].
Qed.

(** X24.  When [toISOString] gives a date of four, two and two digits
    before the [T], an archive that [createZipArchive] returns has the name
    of a backup, lies where [join] puts that name under the output path,
    was made by one run of [zip -r] in the source directory that exited
    with code 0, and answers to [Deno.stat]. *)
Theorem createZipArchive_names_a_backup (isoNow sourceDir outputPath zipPath : jsstring)
    (disk disk' : Disk) :
  test ISO_DATE_PATTERN (firstPiece CHAR_UPPERCASE_T isoNow) = true ->
  createZipArchive isoNow sourceDir outputPath disk = (inr zipPath, disk') ->
  let zipName := js "obsidian-" ++ firstPiece CHAR_UPPERCASE_T isoNow ++ js ".zip" in
  isBackupFile zipName = true /\
  zipPath = Path.join outputPath zipName /\
  runZip [js "-r"; zipPath; js "."] sourceDir disk = (Some 0, disk') /\
  is_Some (stat zipPath disk').
Proof.
  intros Hdate Hrun zipName. split; [by unfold zipName; rewrite isBackupFile_date|].
  unfold createZipArchive in Hrun. fold zipName in Hrun.
  destruct (runZip _ sourceDir disk) as [[code|] disk1] eqn:Hzip; [|done].
  destruct (Z.eqb_spec code 0) as [->|Hcode]; [|done]. simpl in Hrun.
  destruct (stat _ disk1) as [info|] eqn:Hstat; [|done].
  injection Hrun as <- <-. by rewrite Hzip, Hstat.
Qed.

End Prune.

(** X24, witness: an archive made on 17 May 2024. *)
Lemma createZipArchive_names_a_backup_sample :
  isBackupFile (js "obsidian-2024-05-17.zip") = true /\
  js "/backup/obsidian-2024-05-17.zip" = Path.join (js "/backup") (js "obsidian-2024-05-17.zip") /\
  runZip (BackupPlatform := listDisk)
    [js "-r"; js "/backup/obsidian-2024-05-17.zip"; js "."] (js "/tmp/vault") sampleDisk
    = (Some 0,
       sampleDisk ++ [(js "obsidian-2024-05-17.zip", mkFileInfo true false (Some 0))]) /\
  is_Some (stat (BackupPlatform := listDisk) (js "/backup/obsidian-2024-05-17.zip")
             (sampleDisk ++ [(js "obsidian-2024-05-17.zip", mkFileInfo true false (Some 0))])).
Proof.
  exact (createZipArchive_names_a_backup (platform := listDisk)
           (js "2024-05-17T08:30:00.000Z") (js "/tmp/vault") (js "/backup")
           (js "/backup/obsidian-2024-05-17.zip") sampleDisk
           (sampleDisk ++ [(js "obsidian-2024-05-17.zip", mkFileInfo true false (Some 0))])
           eq_refl eq_refl).
Defined.

(** X23, witness: the sample disk, ninety days in and with thirty days of
    retention: the old backup goes, the recent one, the file of another
    name and the directory stay. *)
Lemma pruneOldBackups_sample :
  pruneOldBackups (platform := listDisk) (90 * day) (js "/backup") 30 sampleDisk
    = (inr (mkPruneResult [js "obsidian-2024-01-01.zip"]
              [(js "notes.md", NoPatternMatch); (js "obsidian-2023-01-01.zip", NotAFile)]),
       [ (js "obsidian-2024-03-01.zip", mkFileInfo true false (Some (70 * day)));
         (js "notes.md", mkFileInfo true false (Some 0));
         (js "obsidian-2023-01-01.zip", mkFileInfo false true (Some 0)) ]) /\
  removesOnly (platform := listDisk)
    (oldBackup (platform := listDisk) (js "/backup") (60 * day)
       (default [] (readDir (BackupPlatform := listDisk) (js "/backup") sampleDisk)))
    sampleDisk
    (pruneOldBackups (platform := listDisk) (90 * day) (js "/backup") 30 sampleDisk).2.
Proof.
  split; [by vm_compute|].
  exact (proj1 (pruneOldBackups_removes_only_old_backups (platform := listDisk) (90 * day)
                  (js "/backup") 30 sampleDisk)).
Defined.

(** X22, witness. *)
Lemma backup_files_are_direct_children_sample :
  Path.join (js "/backup/") (js "obsidian-2024-01-01.zip")
    = printedBase (directoriesOf (js "/backup/") ++ [js "obsidian-2024-01-01.zip"]) false /\
  strictlyInside (Path.join (js "/backup/") (js "obsidian-2024-01-01.zip")) (js "/backup/")
    = true.
Proof.
  exact (backup_files_are_direct_children (js "/backup/") (js "obsidian-2024-01-01.zip")
           eq_refl eq_refl).
Defined.
